(** * lo_event: a verification model of the client-side event pipeline

  The development follows the TypeScript sources module by module:
  [Json] (the values the pipeline carries), [Util] (util.ts),
  [BrowserStorage] (browserStorage.ts), [Disabler] (disabler.ts),
  [WebsocketLogger] (websocketLogger.ts), [IndexeddbQueue]
  (indexeddbQueue.ts), [MemoryQueue] (memoryQueue.js), [Queue] (queue.ts)
  and [LoEvent] (loEvent.ts). *)

From Stdlib Require Import ZArith Lia DecimalString.
From stdpp Require Import gmap strings list.

Local Open Scope string_scope.
Local Open Scope list_scope.
Local Open Scope nat_scope.
Set Warnings "-register-all".

(** ** JavaScript values *)

Module Json.

(** [typeof v === 'object'] holds for plain objects and for arrays alike;
  an array is an object whose own enumerable properties are its index
  keys "0", "1", ...  Both are therefore one constructor, tagged with the
  class of the object, carrying the ordered list of own enumerable data
  properties.  The two accessor-like names of JavaScript ([__proto__] on
  any object, [length] on an array) are not data properties and are
  outside this model; values are trees (no object is shared between two
  places of a value). *)
Inductive objclass := PlainObject | ArrayObject.

Inductive JSON :=
| JNull
| JBool (b : bool)
| JNum (n : Z)
| JStr (s : string)
| JObject (cls : objclass) (props : list (string * JSON)).

(** [typeof v === 'object' && v !== null] *)
Definition isObject (v : JSON) : bool :=
  match v with JObject _ _ => true | _ => false end.

(** [Array.isArray(v)] *)
Definition isArray (v : JSON) : bool :=
  match v with JObject ArrayObject _ => true | _ => false end.

(** JavaScript truthiness of a value ([!v] is its negation). *)
Definition truthy (v : JSON) : bool :=
  match v with
  | JNull => false
  | JBool b => b
  | JNum n => negb (n =? 0)%Z
  | JStr s => negb (String.eqb s "")
  | JObject _ _ => true
  end.

(** [!v] where [v] may be [undefined] *)
Definition falsy (v : option JSON) : bool :=
  match v with None => true | Some w => negb (truthy w) end.

Section Props.
Context {A : Type}.

(** own property lookup in an ordered property list *)
Fixpoint lookupProp (k : string) (ps : list (string * A)) : option A :=
  match ps with
  | [] => None
  | (k', v) :: ps' => if String.eqb k k' then Some v else lookupProp k ps'
  end.

(** [o[k] = v]: overwrite in place, or append a new own property *)
Fixpoint assignProp (k : string) (v : A) (ps : list (string * A))
  : list (string * A) :=
  match ps with
  | [] => [(k, v)]
  | (k', v') :: ps' =>
      if String.eqb k k' then (k, v) :: ps' else (k', v') :: assignProp k v ps'
  end.

Definition keys (ps : list (string * A)) : list string := map fst ps.
End Props.

(** [v[k]] for an own property; [None] is [undefined]. Primitives carry no
  own data properties in this model. *)
Definition getProp (v : JSON) (k : string) : option JSON :=
  match v with JObject _ ps => lookupProp k ps | _ => None end.

(** [v[k] = x] on an object. *)
Definition setProp (v : JSON) (k : string) (x : JSON) : JSON :=
  match v with JObject c ps => JObject c (assignProp k x ps) | _ => v end.

Definition obj (ps : list (string * JSON)) : JSON := JObject PlainObject ps.

Definition indexKey (i : nat) : string := NilZero.string_of_uint (Nat.to_uint i).

Fixpoint indexed (i : nat) (l : list JSON) : list (string * JSON) :=
  match l with
  | [] => []
  | x :: l' => (indexKey i, x) :: indexed (S i) l'
  end.

(** the array literal [[x0, x1, ...]] *)
Definition arr (l : list JSON) : JSON := JObject ArrayObject (indexed 0 l).

(** What a JavaScript call can do besides returning: throw. The thrown
    values the pipeline distinguishes are plain errors, the [TypeError] of a
    strict-mode assignment to a primitive, and the [BlockError] of
    disabler.ts. *)
Inductive exn :=
| ErrorExn (message : string)
| TypeErrorExn (message : string)
| BlockErrorExn (message : string) (timeLimit : Z) (action : string).

Inductive outcome (A : Type) :=
| Returned (a : A)
| Thrown (e : exn).
Arguments Returned {A} a.
Arguments Thrown {A} e.

End Json.
Import Json.


(** ** browserStorage.ts *)

Module BrowserStorage.

(** the [keys] argument of [get]: [string | string[] | null] *)
Inductive Keys :=
| KeyString (key : string)
| KeyArray (keys : list string)
| KeyNull.

(** The [StorageBackend] interface of types.ts for a backend that calls its
    callback before returning (every backend this file builds does):
    [get] yields the result map handed to the callback, [set] the new
    contents. *)
Record StorageBackend (St : Type) := {
  get : Keys → St → gmap string JSON;
  set : gmap string JSON → St → St
}.
Arguments get {St} _ _ _.
Arguments set {St} _ _ _.

(** The part of the capability contract the disabler relies on: a record
    written under one key is what a read of that key returns. *)
Definition reads_back {St} (storage : StorageBackend St) : Prop :=
  ∀ (key : string) (value : JSON) (st : St),
    get storage (KeyArray [key]) (set storage {[key := value]} st) !! key = Some value.

(** *** thunkStorage *)

(** [this.data = { ...this.data, ...items }] *)
Definition thunk_set (items data : gmap string JSON) : gmap string JSON :=
  items ∪ data.

(** [get(keys, callback)]: the object handed to [callback], for keys other
    than [__proto__] (an assignment under that name makes no property) *)
Definition thunk_get (keys : Keys) (data : gmap string JSON) : gmap string JSON :=
  match keys with
  | KeyArray ks =>
      foldl (λ result key,
               match data !! key with
               | Some v => <[key := v]> result
               | None => result
               end) ∅ ks
  | KeyString key =>
      match data !! key with
      | Some v => {[key := v]}
      | None => ∅
      end
  | KeyNull => data
  end.

Definition thunkStorage : StorageBackend (gmap string JSON) :=
  {| get := thunk_get; set := thunk_set |}.

(** *** the localStorage wrappers *)

(** [getWithCallback(getItem)]: the object handed to [callback], for keys
    other than [__proto__] *)
Definition getWithCallback {St} (getItem : string → St → JSON)
    (items : Keys) (area : St) : gmap string JSON :=
  let items := match items with KeyString s => KeyArray [s] | _ => items end in
  let list := match items with KeyArray l => l | _ => [] end in
  foldl (λ results item, <[item := getItem item area]> results) ∅ list.

(** [setWithCallback(setItem)] *)
Definition setWithCallback {St} (setItem : string → JSON → St → St)
    (items : gmap string JSON) (area : St) : St :=
  map_fold setItem area items.

(** A Web Storage area holds strings. [getItem] answers [null] for a key
    that is not there. *)
Definition localStorage_getItem (key : string) (area : gmap string string) : JSON :=
  match area !! key with
  | Some s => JStr s
  | None => JNull
  end.

(** [String(value)], which the wrappers apply before [setItem]: a plain
    object becomes "[object Object]", an array the comma-separated strings
    of its elements ([null] giving the empty string), an integer its
    decimal digits (as JavaScript prints them below 10^21). *)
Fixpoint String_ (value : JSON) : string :=
  match value with
  | JNull => "null"
  | JBool true => "true"
  | JBool false => "false"
  | JNum n => NilZero.string_of_int (Z.to_int n)
  | JStr s => s
  | JObject PlainObject _ => "[object Object]"
  | JObject ArrayObject elements =>
      (fix join (l : list (string * JSON)) : string :=
         match l with
         | [] => ""
         | [(_, x)] => match x with JNull => "" | _ => String_ x end
         | (_, x) :: rest =>
             String.append (match x with JNull => "" | _ => String_ x end)
               (String.append "," (join rest))
         end) elements
  end.

(** [(key, value) => localStorage.setItem(key, String(value))] *)
Definition localStorage_setItem (key : string) (value : JSON)
    (area : gmap string string) : gmap string string :=
  <[key := String_ value]> area.

Definition localStorageBackend : StorageBackend (gmap string string) :=
  {| get := getWithCallback localStorage_getItem;
     set := setWithCallback localStorage_setItem |}.

(** *** What the callers rely on for the strings they store *)

(** A string written under a key is what a read of that key returns,
    alone or among other keys, and writing one key leaves what is read under
    the others. *)
Definition string_store {St} (storage : StorageBackend St) : Prop :=
  (∀ keys key s st, key ∈ keys →
     get storage (KeyArray keys) (set storage {[key := JStr s]} st) !! key
     = Some (JStr s))
  ∧ (∀ keys key key' value st, key ≠ key' →
       get storage (KeyArray keys) (set storage {[key := value]} st) !! key'
       = get storage (KeyArray keys) st !! key').

(** a value written under a key is what a read of that key, given as a
    string, returns *)
Definition keeps_records {St} (storage : StorageBackend St) : Prop :=
  ∀ key value st,
    get storage (KeyString key) (set storage {[key := value]} st) !! key = Some value.

(** The values [String_] prints as JavaScript does: whole numbers that a
    double holds exactly (from 10^21 on JavaScript prints an exponent),
    plain objects without a property [toString] of their own (with one that
    is no function, [String] throws), and arrays that have their elements
    under the keys "0", "1", ... without a gap and nothing else, all the
    way down. *)
Fixpoint printable (value : JSON) : bool :=
  match value with
  | JNum n => (Z.abs n <=? 9007199254740991)%Z
  | JObject PlainObject ps =>
      match lookupProp "toString" ps with Some _ => false | None => true end
  | JObject ArrayObject elements =>
      (fix each (i : nat) (l : list (string * JSON)) : bool :=
         match l with
         | [] => true
         | (k, x) :: rest => String.eqb k (indexKey i) && printable x && each (S i) rest
         end) 0 elements
  | _ => true
  end.

End BrowserStorage.

(** ** util.ts *)

Module Util.

(** [once(func)]: the closure variable [run] is the only state. The wrapper
    either runs [func] or throws. *)
Inductive once_result (R : Type) :=
| Ran (r : R)
| CalledMoreThanOnce.
Arguments Ran {R} r.
Arguments CalledMoreThanOnce {R}.

Definition once {R : Type} (func : R) (run : bool) : once_result R * bool :=
  if negb run then (Ran func, true) else (CalledMoreThanOnce, run).

(** [mergeDictionary(target, source)]: the for-in loop over the own
    properties of [source], mutating [target]. It is only ever entered with
    [typeof source === 'object']; for [null] the loop body never runs.
    This is the merge on the contents of the two values, for a source that
    shares no object with the target and has ordinary keys;
    [Objects.mergeDictionary] has the same code on objects held by
    reference. *)
Fixpoint mergeDictionary (target source : JSON) {struct source} : JSON :=
  match source with
  | JObject _ sprops =>
      (fix loop (ps : list (string * JSON)) (t : JSON) {struct ps} : JSON :=
         match ps with
         | [] => t
         | (key, sv) :: ps' =>
             loop ps'
               (match getProp t key with
                | Some tv =>
                    if isObject tv && isObject sv
                    then setProp t key (mergeDictionary tv sv)
                    else setProp t key sv
                | None => setProp t key sv
                end)
         end) sprops target
  | _ => target
  end.

(** one iteration of the loop body *)
Definition mergeKey (t : JSON) (key : string) (sv : JSON) : JSON :=
  match getProp t key with
  | Some tv =>
      if isObject tv && isObject sv
      then setProp t key (mergeDictionary tv sv)
      else setProp t key sv
  | None => setProp t key sv
  end.

(** what the loop body leaves under the key it handles *)
Definition merged (existing : option JSON) (incoming : JSON) : JSON :=
  match existing with
  | Some tv => if isObject tv && isObject incoming then mergeDictionary tv incoming
               else incoming
  | None => incoming
  end.

Definition mergeProps (ps : list (string * JSON)) (t : JSON) : JSON :=
  fold_left (λ t kv, mergeKey t kv.1 kv.2) ps t.

(** An entry of the [inputList] of [mergeMetadata]: a value, or a function
    (sync or async), represented by the value it returns. *)
Inductive MetadataInput :=
| MValue (v : JSON)
| MFunction (result : JSON).

(** [typeof v === 'object'] (true for [null] as well) *)
Definition typeofObject (v : JSON) : bool :=
  match v with JNull | JObject _ _ => true | _ => false end.

Definition mergeInput (masterDict : JSON) (item : MetadataInput) : JSON :=
  match item with
  | MValue v => if typeofObject v then mergeDictionary masterDict v else masterDict
  | MFunction r => if typeofObject r then mergeDictionary masterDict r else masterDict
  end.

(** [mergeMetadata(inputList)] *)
Definition mergeMetadata (inputList : list MetadataInput) : JSON :=
  fold_left mergeInput inputList (obj []).

(** *** timestampEvent *)

(** What the environment answers during one call: [new Date().toISOString()],
    [Date.now()], [Date()] and the string [keystamp()] would build. *)
Record Readings := {
  toISOString : string;
  Date_now : Z;
  Date_string : string;
  keystamp : string
}.

(** the module-level variables of util.ts *)
Record UtilState := {
  cachedBrowserStamp : JSON;
  eventIndex : Z;
  sessionStamp : string;
  verboseEvents : bool
}.

Definition setVerboseEvents (value : bool) (u : UtilState) : UtilState :=
  {| cachedBrowserStamp := cachedBrowserStamp u; eventIndex := eventIndex u;
     sessionStamp := sessionStamp u; verboseEvents := value |}.

Definition stampKey : string := "loBrowserStamp".

Section WithStorage.
Context {St : Type} (storage : BrowserStorage.StorageBackend St).

(** [browserStamp()]: returns the stamp, the new cache and the storage, on
    a storage that runs the callback of [get] before [get] returns, as
    [thunkStorage] and the [localStorage] wrappers do ([browserStampAt]
    below has the other case as well) *)
Definition browserStamp (rd : Readings) (cached : JSON) (st : St)
    : JSON * JSON * St :=
  if truthy cached then (cached, cached, st)
  else
    let cached := JStr (keystamp rd) in
    let result := BrowserStorage.get storage (BrowserStorage.KeyArray [stampKey]) st in
    match result !! stampKey with
    | Some v =>
        if truthy v then (v, v, st)
        else (cached, cached, BrowserStorage.set storage {[stampKey := cached]} st)
    | None => (cached, cached, BrowserStorage.set storage {[stampKey := cached]} st)
    end.

Definition cannotCreateProperty : exn :=
  TypeErrorExn "Cannot create property on a primitive value".

(** [timestampEvent(event)]. The event is mutated in place: the result
    carries the event as it is after the call, also when the call throws.
    util.ts is a module, hence strict code: assigning a property to a
    primitive throws a [TypeError]. *)
Definition timestampEvent (rd : Readings) (event : JSON) (u : UtilState) (st : St)
    : outcome unit * JSON * UtilState * St :=
  match event with
  | JObject _ _ =>
      let event :=
        if falsy (getProp event "metadata") then setProp event "metadata" (obj [])
        else event in
      match getProp event "metadata" with
      | Some (JObject c ps) =>
          let metadata := JObject c ps in
          let metadata := setProp metadata "iso_ts" (JStr (toISOString rd)) in
          if verboseEvents u then
            let metadata := setProp metadata "ts" (JNum (Date_now rd)) in
            let metadata := setProp metadata "human_ts" (JStr (Date_string rd)) in
            let metadata := setProp metadata "sessionIndex" (JNum (eventIndex u)) in
            let metadata := setProp metadata "sessionTag" (JStr (sessionStamp u)) in
            let '(tag, cached, st) := browserStamp rd (cachedBrowserStamp u) st in
            let metadata := setProp metadata "browserTag" tag in
            (Returned tt, setProp event "metadata" metadata,
             {| cachedBrowserStamp := cached; eventIndex := (eventIndex u + 1)%Z;
                sessionStamp := sessionStamp u; verboseEvents := verboseEvents u |},
             st)
          else (Returned tt, setProp event "metadata" metadata, u, st)
      | _ => (Thrown cannotCreateProperty, event, u, st)
      end
  | _ => (Thrown cannotCreateProperty, event, u, st)
  end.

End WithStorage.

(** the keys [timestampEvent] writes into [metadata] *)
Definition stampedKeys (verbose : bool) : list string :=
  if verbose
  then ["iso_ts"; "ts"; "human_ts"; "sessionIndex"; "sessionTag"; "browserTag"]
  else ["iso_ts"].

(** *** backoff *)

(** [TERMINATION_POLICY] *)
Inductive TERMINATION_POLICY := DIE | RETRY.

(** [maxRetries]: a whole number, or [Infinity] (the default) *)
Inductive MaxRetries :=
| Retries (n : Z)
| Infinity.

(** the default of [delays] *)
Definition defaultDelays : list Z :=
  [100; 1 * 1000; 10 * 1000; 1 * (60 * 1000); 5 * (60 * 1000); 30 * (60 * 1000)]%Z.

(** [retryCount > maxRetries] *)
Definition pastMaxRetries (retryCount : nat) (maxRetries : MaxRetries) : bool :=
  match maxRetries with
  | Retries n => (n <? Z.of_nat retryCount)%Z
  | Infinity => false
  end.

(** [retryCount < delays.length ? delays[retryCount] : delays[delays.length - 1]];
    [None] is the [undefined] an empty list gives *)
Definition delayTime (delays : list Z) (retryCount : nat) : option Z :=
  if retryCount <? length delays then delays !! retryCount else last delays.

(** How a call of [backoff] ended, the world its predicate was left in, and
    two records: the arguments of the calls of [delay], in order, and the
    number of times the predicate was asked. *)
Record Backoff (H : Type) := {
  settled : outcome bool;
  predicate_world : H;
  slept : list (option Z);
  asked : nat
}.
Arguments settled {H} _.
Arguments predicate_world {H} _.
Arguments slept {H} _.
Arguments asked {H} _.

Section Backoff.
(** [H] is the world the predicate closes over; what it answers is any
    value, tested for truthiness, or a fault (thrown, or delivered as a
    rejected promise), which leaves [backoff] through the [await]. *)
Context {H : Type}.
Variable predicate : H → outcome JSON * H.

(** The [while (true)] loop of [backoff] from the variables [retryCount],
    the world of the predicate and the two records. The loop need not end:
    [fuel] bounds the turns followed, and [None] says that the loop is still
    running after them. *)
Fixpoint backoff_loop (fuel : nat) (errorMessage : string) (delays : list Z)
    (terminationPolicy : TERMINATION_POLICY) (maxRetries : MaxRetries)
    (retryCount : nat) (h : H) (slept : list (option Z)) (asked : nat)
    : option (Backoff H) :=
  match fuel with
  | 0 => None
  | S fuel' =>
      match predicate h with
      | (Thrown e, h) =>
          Some {| settled := Thrown e; predicate_world := h;
                  slept := slept; asked := S asked |}
      | (Returned v, h) =>
          if truthy v then
            Some {| settled := Returned true; predicate_world := h;
                    slept := slept; asked := S asked |}
          else if match terminationPolicy with DIE => true | RETRY => false end
                  && (length delays <=? retryCount) then
            Some {| settled := Thrown (ErrorExn errorMessage); predicate_world := h;
                    slept := slept; asked := S asked |}
          else
            let slept := slept ++ [delayTime delays retryCount] in
            let retryCount := S retryCount in
            if match terminationPolicy with RETRY => true | DIE => false end
               && pastMaxRetries retryCount maxRetries then
              Some {| settled := Thrown (ErrorExn errorMessage); predicate_world := h;
                      slept := slept; asked := S asked |}
            else
              backoff_loop fuel' errorMessage delays terminationPolicy maxRetries
                retryCount h slept (S asked)
      end
  end.

(** [backoff(predicate, errorMessage, delays, terminationPolicy, maxRetries)] *)
Definition backoff (fuel : nat) (errorMessage : string) (delays : list Z)
    (terminationPolicy : TERMINATION_POLICY) (maxRetries : MaxRetries) (h : H)
    : option (Backoff H) :=
  backoff_loop fuel errorMessage delays terminationPolicy maxRetries 0 h [] 0.

(** the predicate answers, whenever it is asked *)
Definition answers : Prop :=
  ∀ h, ∃ v h', predicate h = (Returned v, h').

(** the predicate answers a falsy value, whenever it is asked *)
Definition refuses : Prop :=
  ∀ h, ∃ v h', predicate h = (Returned v, h') ∧ truthy v = false.

End Backoff.

(** a predicate that sees a counter grow and answers true from the third
    call on *)
Definition thirdTime (h : nat) : outcome JSON * nat :=
  (Returned (JBool (2 <=? h)), S h).

(** a predicate that never answers true *)
Definition never (h : nat) : outcome JSON * nat :=
  (Returned (JBool false), S h).

(** *** renderTime *)

(** [renderTime(t)] for a whole number [t] of seconds. [Math.floor] of a
    quotient of whole numbers is the floor division [/] of [Z], the [%] of
    JavaScript takes the sign of the dividend and is [Z.rem], and [String]
    of a whole number is its decimal numeral. (Below 2^40 in magnitude the
    double-precision quotients have the same floors as the exact ones.) *)
Definition renderTime (t : Z) : string :=
  let seconds := Z.rem t 60 in
  let minutes := Z.rem (t / 60) 60 in
  let hours := Z.rem (t / 3600) 60 in
  let days := (t / 3600 / 24)%Z in
  if (0 <? days)%Z then String.append (BrowserStorage.String_ (JNum days)) "d"
  else if (0 <? hours)%Z then String.append (BrowserStorage.String_ (JNum hours)) "h"
  else if (0 <? minutes)%Z then String.append (BrowserStorage.String_ (JNum minutes)) "m"
  else if (0 <? seconds)%Z then String.append (BrowserStorage.String_ (JNum seconds)) "s"
  else "-".


(** *** fetchDebuggingIdentifier *)

(** [keystamp(prefix)], from the string [keystamp()] builds *)
Definition keystampWith (prefix : string) (rd : Readings) : string :=
  String.append (if String.eqb prefix "" then "" else String.append prefix "-")
    (keystamp rd).

Section Identifier.
Context {St : Type} (storage : BrowserStorage.StorageBackend St).

(** [fetchDebuggingIdentifier()]: the metadata the promise is resolved
    with, and the storage *)
Definition fetchDebuggingIdentifier (rd : Readings) (st : St) : JSON * St :=
  let metadata := obj [] in
  let result :=
    BrowserStorage.get storage (BrowserStorage.KeyArray ["logger_id"; "name"]) st in
  let '(metadata, st) :=
    if negb (falsy (result !! "logger_id"))
    then (setProp metadata "logger_id" (default JNull (result !! "logger_id")), st)
    else
      let logger_id := JStr (keystampWith "lid" rd) in
      (setProp metadata "logger_id" logger_id,
       BrowserStorage.set storage {["logger_id" := logger_id]} st) in
  let metadata :=
    if negb (falsy (result !! "name"))
    then setProp metadata "name" (default JNull (result !! "name"))
    else metadata in
  (metadata, st).

End Identifier.

(** *** browserStamp and the time of the callback *)

(** When a storage runs the callback of [get]: before [get] returns, as
    [thunkStorage] and the [localStorage] wrappers do, or in a later task,
    as [chrome.storage] does. *)
Inductive CallbackTime := BeforeReturn | InLaterTask.

Section StampCallback.
Context {St : Type} (storage : BrowserStorage.StorageBackend St).

(** The callback [browserStamp] hands to [storage.get], run on the result
    map with the cache as it is then: the cache and the storage it leaves. *)
Definition stampCallback (result : gmap string JSON) (cached : JSON) (st : St)
    : JSON * St :=
  match result !! stampKey with
  | Some v =>
      if truthy v then (v, st)
      else (cached, BrowserStorage.set storage {[stampKey := cached]} st)
  | None => (cached, BrowserStorage.set storage {[stampKey := cached]} st)
  end.

(** [browserStamp()] on a storage that runs the callback at the given
    time: the stamp returned, the cache and the storage when the call
    returns, and whether the callback is still to run. ([get] and [set] of
    the backend are what the storage reads and writes, whenever it does.) *)
Definition browserStampAt (time : CallbackTime) (rd : Readings) (cached : JSON)
    (st : St) : JSON * JSON * St * bool :=
  if truthy cached then (cached, cached, st, false)
  else
    let fresh := JStr (keystamp rd) in
    match time with
    | BeforeReturn =>
        let '(cached, st) :=
          stampCallback
            (BrowserStorage.get storage (BrowserStorage.KeyArray [stampKey]) st)
            fresh st in
        (cached, cached, st, false)
    | InLaterTask => (fresh, fresh, st, true)
    end.

(** the callback that was left to run later runs, on what the storage
    holds then *)
Definition stampArrives (cached : JSON) (st : St) : JSON * St :=
  stampCallback (BrowserStorage.get storage (BrowserStorage.KeyArray [stampKey]) st)
    cached st.

End StampCallback.

(** *** copyFields and treeget *)

Import Strings.Ascii.

(** [s.split(c)] for a separator of one character *)
Fixpoint split (c : Strings.Ascii.ascii) (s : string) : list string :=
  match s with
  | EmptyString => [EmptyString]
  | String a s' =>
      if Strings.Ascii.eqb a c then EmptyString :: split c s'
      else match split c s' with
           | first :: rest => String a first :: rest
           | [] => [String a EmptyString]
           end
  end.

(** [s.indexOf(c)]; [None] is the answer -1 *)
Fixpoint indexOf (c : Strings.Ascii.ascii) (s : string) : option nat :=
  match s with
  | EmptyString => None
  | String a s' => if Strings.Ascii.eqb a c then Some 0 else S <$> indexOf c s'
  end.

(** [parts[i]] of the parts of a [split], where there is such a part *)
Definition part (i : nat) (parts : list string) : string := nth i parts "".

(** What a walk through a value arrives at: a value of the model, a
    property the model has no value for, or a fault. *)
Inductive reached :=
| Value (v : JSON)
| Builtin (owner : JSON) (name : string)
| Fault (e : exn).

Definition notAnObject : exn :=
  TypeErrorExn "Cannot use 'in' operator to search for a key in a primitive".

Definition cannotReadNull : exn :=
  TypeErrorExn "Cannot read properties of null".

(** [items[key] = v] on an object that inherits from [Object.prototype], as
    an object literal does. Under the key [__proto__] the assignment runs
    the setter inherited from there and creates no property: a string, a
    number or a boolean is ignored, while [null] or an object becomes the
    prototype of [items], which no value of this model records: [None]. *)
Definition assign (items : JSON) (key : string) (v : JSON) : option JSON :=
  if String.eqb key "__proto__" then
    match v with
    | JNull | JObject _ _ => None
    | _ => Some items
    end
  else Some (setProp items key v).

Section Members.
(** [builtin v k]: the value [v] has a property named [k] that is not one
    of its own data properties: one it inherits through its prototype
    chain (the methods of [Object.prototype], [Array.prototype],
    [String.prototype], ...) or a built-in own one (the [length] and the
    characters of a string, the [length] of an array). JavaScript finds
    such a property with [in] and reads it with [v[k]]; what it holds (a
    function, mostly) is no value of this model, so a walk that arrives at
    one ends there, marked [Builtin]. *)
Variable builtin : JSON → string → bool.

(** [key in node], and [node[key]] where it is: [None] says that [key] is
    not in [node]. An own data property shadows an inherited one. *)
Definition member (node : JSON) (key : string) : option reached :=
  match getProp node key with
  | Some v => Some (Value v)
  | None => if builtin node key then Some (Builtin node key) else None
  end.

(** [copyFields(source, fields)]. Where the copy takes a new prototype (see
    [assign]) the result is marked [Builtin], like a walk that arrives at a
    property outside the model. *)
Definition copyFields (source : JSON) (fields : list string) : reached :=
  if truthy source then
    match source with
    | JObject _ _ =>
        (fix forEach (fields : list string) (result : JSON) : reached :=
           match fields with
           | [] => Value result
           | field :: fields' =>
               match member source field with
               | Some (Value v) =>
                   match assign result field v with
                   | Some result' => forEach fields' result'
                   | None => Builtin result field
                   end
               | Some other => other
               | None => forEach fields' result
               end
           end) fields (obj [])
    | _ => match fields with
           | [] => Value (obj [])
           | _ :: _ => Fault notAnObject
           end
    end
  else Value (obj []).

(** [arr[idx]] in the test [arr[idx] !== undefined]; [None] is [undefined] *)
Definition element (arr : JSON) (idx : string) : option reached :=
  match arr with
  | JNull => Some (Fault cannotReadNull)
  | _ => member arr idx
  end.

(** the loop of [treeget] over [keylist], from the subtree it has arrived at *)
Fixpoint treeget_loop (keylist : list string) (subtree : JSON) : reached :=
  match keylist with
  | [] => Value subtree
  | key :: keylist' =>
      match subtree with
      | JNull => Value JNull
      | JObject _ _ =>
          match member subtree key with
          | Some (Value v) => treeget_loop keylist' v
          | Some other => other
          | None =>
              if negb (String.eqb key "")
                 && match indexOf "["%char key with Some (S _) => true | _ => false end
              then
                let item := part 0 (split "["%char key) in
                let idx_orig := part 1 (split "["%char key) in
                let idx := part 0 (split "]"%char idx_orig) in
                match member subtree item with
                | Some (Value arr) =>
                    match element arr idx with
                    | Some (Value v) => treeget_loop keylist' v
                    | Some other => other
                    | None => Value JNull
                    end
                | Some other => other
                | None => Value JNull
                end
              else Value JNull
          end
      | _ => Fault notAnObject
      end
  end.

(** [treeget(tree, key)] *)
Definition treeget (tree : JSON) (key : string) : reached :=
  treeget_loop (split "."%char key) tree.

End Members.

(** the value under a path of own keys, if the path is there *)
Fixpoint walk (tree : JSON) (path : list string) : option JSON :=
  match path with
  | [] => Some tree
  | key :: path' =>
      match getProp tree key with
      | Some v => walk v path'
      | None => None
      end
  end.

(** the dotted notation of a path *)
Fixpoint dotted (path : list string) : string :=
  match path with
  | [] => ""
  | [key] => key
  | key :: path' => String.append key (String "."%char (dotted path'))
  end.

(** the character occurs in the string *)
Fixpoint occurs (c : Strings.Ascii.ascii) (s : string) : bool :=
  match s with
  | EmptyString => false
  | String a s' => Strings.Ascii.eqb a c || occurs c s'
  end.

(** the names every object inherits from [Object.prototype] *)
Definition objectPrototype (v : JSON) (k : string) : bool :=
  match v with
  | JObject _ _ =>
      bool_decide (k ∈ ["constructor"; "hasOwnProperty"; "isPrototypeOf";
                        "propertyIsEnumerable"; "toLocaleString"; "toString";
                        "valueOf"; "__proto__"])
  | _ => false
  end.

End Util.


(** ** util.ts: the merge, on objects held by reference *)

Module Objects.

(** [mergeDictionary] changes its target in place and puts the objects of
    its source into it as they are, not copies of them. What it does to
    fragments that share an object is therefore no function of their
    contents, and [Util.mergeDictionary], which works on contents, is
    right only for fragments that share none. Here the same code is
    modelled on a heap: an object is a place in it, and a value is a
    primitive or a reference to an object. *)
Inductive value :=
| VNull
| VBool (b : bool)
| VNum (n : Z)
| VStr (s : string)
| VRef (l : nat).

(** An object: its class and its own enumerable properties, in the order
    [for ... in] lists them (array indices first, in ascending order, then
    the other keys in the order they were created). *)
Record object := {
  cls : objclass;
  props : list (string * value)
}.

(** the heap; a location is a position in it *)
Definition heap := list object.

(** The number a key names if it is an array index: a decimal numeral
    without a sign or a leading zero, below 2^32 - 1. *)
Definition arrayIndex (k : string) : option N :=
  match NilZero.uint_of_string k with
  | Some d =>
      let n := N.of_uint d in
      if String.eqb (NilZero.string_of_uint (N.to_uint n)) k && (n <? 4294967295)%N
      then Some n else None
  | None => None
  end.

Section Props.
Context {A : Type}.

(** a new property under the array index [n], before the first property
    that is no array index or a greater one *)
Fixpoint place (k : string) (n : N) (v : A) (ps : list (string * A))
    : list (string * A) :=
  match ps with
  | [] => [(k, v)]
  | (k', v') :: ps' =>
      match arrayIndex k' with
      | Some n' => if (n' <? n)%N then (k', v') :: place k n v ps' else (k, v) :: ps
      | None => (k, v) :: ps
      end
  end.

(** [o[k] = v] on the own properties of [o], for a key that is no accessor
    of [o]: an existing property keeps its place, a new one takes the
    place [for ... in] will find it at. *)
Definition put (k : string) (v : A) (ps : list (string * A)) : list (string * A) :=
  match lookupProp k ps, arrayIndex k with
  | None, Some n => place k n v ps
  | _, _ => assignProp k v ps
  end.

End Props.

(** How a run of the code ends in this model: with a result; at something
    the model does not follow (an object given a new prototype, an array
    resized through its [length], a reference to no object); or not within
    the steps it was followed for. *)
Inductive result (A : Type) :=
| Done (a : A)
| OutsideModel
| StillRunning.
Arguments Done {A} a.
Arguments OutsideModel {A}.
Arguments StillRunning {A}.

(** [target[key] = v] (util.ts:188). Under the key [__proto__], unless the
    target has a property of its own by that name, the assignment runs the
    setter every object inherits: a primitive is ignored, [null] or an
    object becomes the prototype. The [length] of an array is no data
    property either: assigning it resizes the array. *)
Definition assign (h : heap) (target : nat) (key : string) (v : value) : result heap :=
  match h !! target with
  | Some o =>
      if String.eqb key "__proto__"
         && match lookupProp key (props o) with Some _ => false | None => true end
      then match v with
           | VNull | VRef _ => OutsideModel
           | _ => Done h
           end
      else if String.eqb key "length"
              && match cls o with ArrayObject => true | PlainObject => false end
      then OutsideModel
      else Done (<[target := {| cls := cls o; props := put key v (props o) |}]> h)
  | None => OutsideModel
  end.

(** The body of the [for ... in] loop for one key, [rec] being the
    recursive call. A key that has left the source since the loop began is
    passed over. *)
Definition mergeKey (rec : heap → nat → nat → result heap) (target source : nat)
    (key : string) (h : heap) : result heap :=
  match h !! target, h !! source with
  | Some t, Some s =>
      match lookupProp key (props s) with
      | Some sv =>
          match lookupProp key (props t), sv with
          | Some (VRef tl), VRef sl => rec h tl sl
          | _, _ => assign h target key sv
          end
      | None => Done h
      end
  | _, _ => OutsideModel
  end.

(** the loop over the keys the source had when the loop began *)
Fixpoint forIn (rec : heap → nat → nat → result heap) (target source : nat)
    (keys : list string) (h : heap) : result heap :=
  match keys with
  | [] => Done h
  | key :: keys' =>
      match mergeKey rec target source key h with
      | Done h' => forIn rec target source keys' h'
      | OutsideModel => OutsideModel
      | StillRunning => StillRunning
      end
  end.

(** [mergeDictionary(target, source)] on two objects of the heap. The
    recursion follows the source, which may lead back to itself: [fuel]
    bounds the depth followed. *)
Fixpoint mergeDictionary (fuel : nat) (h : heap) (target source : nat) : result heap :=
  match fuel with
  | 0 => StillRunning
  | S fuel' =>
      match h !! source with
      | Some s => forIn (mergeDictionary fuel') target source (keys (props s)) h
      | None => OutsideModel
      end
  end.

(** one turn of the loop of [mergeMetadata] over [inputList]: an item that
    is an object is merged, [null] has no keys to merge, anything else is
    ignored (a function stands here as the value it returns) *)
Definition mergeInput (fuel : nat) (masterDict : nat) (h : result heap) (item : value)
    : result heap :=
  match h with
  | Done h =>
      match item with
      | VRef l => mergeDictionary fuel h masterDict l
      | _ => Done h
      end
  | OutsideModel => OutsideModel
  | StillRunning => StillRunning
  end.

(** [mergeMetadata(inputList)]: the heap it leaves and the new object
    [masterDict] it returns *)
Definition mergeMetadata (fuel : nat) (h : heap) (inputList : list value)
    : result (heap * nat) :=
  let masterDict := length h in
  match foldl (mergeInput fuel masterDict)
          (Done (h ++ [{| cls := PlainObject; props := [] |}])) inputList with
  | Done h' => Done (h', masterDict)
  | OutsideModel => OutsideModel
  | StillRunning => StillRunning
  end.

(** *** Values as contents *)

(** the contents of a value of the heap, followed to the depth [fuel] *)
Fixpoint read (fuel : nat) (h : heap) (v : value) : option JSON :=
  match v with
  | VNull => Some JNull
  | VBool b => Some (JBool b)
  | VNum n => Some (JNum n)
  | VStr s => Some (JStr s)
  | VRef l =>
      match fuel with
      | 0 => None
      | S fuel' =>
          match h !! l with
          | Some o =>
              match
                (fix each (ps : list (string * value)) : option (list (string * JSON)) :=
                   match ps with
                   | [] => Some []
                   | (k, v) :: ps' =>
                       match read fuel' h v, each ps' with
                       | Some J, Some Js => Some ((k, J) :: Js)
                       | _, _ => None
                       end
                   end) (props o)
              with
              | Some Js => Some (JObject (cls o) Js)
              | None => None
              end
          | None => None
          end
      end
  end.





(** *** What the claim says of the merge *)



(** *** A fragment given twice *)

(** the fragments [{a: {x: 1}}] and [{a: {x: 2}}] *)
Definition twoFragments : heap :=
  [ {| cls := PlainObject; props := [("x", VNum 1)] |};
    {| cls := PlainObject; props := [("a", VRef 0)] |};
    {| cls := PlainObject; props := [("x", VNum 2)] |};
    {| cls := PlainObject; props := [("a", VRef 2)] |} ].

(** the fragments [{a: [1, 2, 3], b: {}}] and [{a: [9], b: 2}], written as
    literals: every object is one of its own *)
Definition literals : heap :=
  [ {| cls := ArrayObject; props := [("0", VNum 1); ("1", VNum 2); ("2", VNum 3)] |};
    {| cls := PlainObject; props := [] |};
    {| cls := PlainObject; props := [("a", VRef 0); ("b", VRef 1)] |};
    {| cls := ArrayObject; props := [("0", VNum 9)] |};
    {| cls := PlainObject; props := [("a", VRef 3); ("b", VNum 2)] |} ].

End Objects.
(** ** disabler.ts *)

Module Disabler.
Import BrowserStorage.

Definition TRANSMIT : string := "TRANSMIT".
Definition MAINTAIN : string := "MAINTAIN".
Definition DROP : string := "DROP".

(** [TIME_LIMIT.PERMANENT] *)
Definition PERMANENT : Z := (-1)%Z.

Definition DISABLER_STORE : string := "disablerState".

(** [interface DisablerState] *)
Record DisablerState := {
  action : string;
  expiration : option Z
}.

Definition DEFAULTS : DisablerState :=
  {| action := TRANSMIT; expiration := None |}.

(** [class BlockError], after its constructor has resolved the time limit *)
Record BlockError := {
  message : string;
  timeLimit : Z;
  error_action : string
}.

(** The module variables [action] and [expiration], the storage the module
    imports, the clock [Date.now()] reads, and a probe counting the calls
    of [storage.set] made by this module. *)
Record World (St : Type) := {
  state : DisablerState;
  store : St;
  clock : Z;
  writes : nat
}.
Arguments state {St} _.
Arguments store {St} _.
Arguments clock {St} _.
Arguments writes {St} _.

(** the record [{ action, expiration }] as it is handed to [storage.set] *)
Definition encode (d : DisablerState) : JSON :=
  obj [("action", JStr (action d));
       ("expiration", match expiration d with Some e => JNum e | None => JNull end)].

(** [ToNumber(expiration)] in the comparison [now < expiration]:
    [null] compares as [0] *)
Definition toNumber (e : option Z) : Z := default 0%Z e.

(** [currentValue.action !== action] *)
Definition action_differs (currentValue : JSON) (a : string) : bool :=
  match getProp currentValue "action" with
  | Some (JStr s) => negb (String.eqb s a)
  | _ => true
  end.

(** [currentValue.expiration !== expiration] *)
Definition expiration_differs (currentValue : JSON) (e : option Z) : bool :=
  match getProp currentValue "expiration", e with
  | Some JNull, None => false
  | Some (JNum n), Some m => negb (n =? m)%Z
  | _, _ => true
  end.

(** the test guarding [storage.set] in [retry] *)
Definition needs_write (currentValue : option JSON) (d : DisablerState) : bool :=
  falsy currentValue
  || action_differs (default JNull currentValue) (action d)
  || expiration_differs (default JNull currentValue) (expiration d).

(** the record [retry] resets to *)
Definition reset : DisablerState := {| action := TRANSMIT; expiration := None |}.

Section WithStorage.
Context {St : Type} (storage : StorageBackend St).

(** what the stored record is when [retry] looks *)
Definition stored (st : St) : option JSON :=
  get storage (KeyArray [DISABLER_STORE]) st !! DISABLER_STORE.

(** [state.action || DEFAULTS.action] and [state.expiration ||
    DEFAULTS.expiration], read off a stored record of the declared type
    [DisablerState] (or no record at all) *)
Definition decode (stored : option JSON) : DisablerState :=
  let st := if falsy stored then obj [] else default JNull stored in
  {| action := match getProp st "action" with
               | Some (JStr s) => if String.eqb s "" then TRANSMIT else s
               | _ => TRANSMIT
               end;
     expiration := match getProp st "expiration" with
                   | Some (JNum n) => if (n =? 0)%Z then None else Some n
                   | _ => None
                   end |}.

Definition init (w : World St) : World St :=
  let storedState := get storage (KeyString DISABLER_STORE) (store w) in
  {| state := decode (storedState !! DISABLER_STORE);
     store := store w; clock := clock w; writes := writes w |}.

Definition handleBlockError (error : BlockError) (w : World St) : World St :=
  let d := {| action := error_action error;
              expiration := if (timeLimit error =? PERMANENT)%Z then Some PERMANENT
                            else Some (clock w + timeLimit error)%Z |} in
  {| state := d;
     store := set storage {[DISABLER_STORE := encode d]} (store w);
     clock := clock w;
     writes := S (writes w) |}.

Definition storeEvents (w : World St) : bool :=
  negb (String.eqb (action (state w)) DROP).

Definition streamEvents (w : World St) : bool :=
  String.eqb (action (state w)) TRANSMIT.

(** [retry()]. [await util.delay(ms)] lets [ms] milliseconds pass. The
    callback given to [storage.get] is run before [retry] returns, as
    [thunkStorage] and the [localStorage] wrappers run it; [retry] does not
    wait for a storage that answers later. *)
Definition retry (w : World St) : bool * World St :=
  if bool_decide (expiration (state w) = Some PERMANENT) then (false, w)
  else
    let now := clock w in
    let expiry := toNumber (expiration (state w)) in
    let clock' := if (now <? expiry)%Z then (now + (expiry - now))%Z else now in
    let d := {| action := action DEFAULTS; expiration := expiration DEFAULTS |} in
    let result := get storage (KeyArray [DISABLER_STORE]) (store w) in
    let currentValue := result !! DISABLER_STORE in
    if needs_write currentValue d
    then (true, {| state := d;
                   store := set storage {[DISABLER_STORE := encode d]} (store w);
                   clock := clock'; writes := S (writes w) |})
    else (true, {| state := d; store := store w; clock := clock'; writes := writes w |}).

End WithStorage.

(** a client blocked until time 5000, asked at time 1000, on the in-memory
    storage holding the block *)
Definition blocked_world : World (gmap string JSON) :=
  {| state := {| action := MAINTAIN; expiration := Some 5000%Z |};
     store := {[DISABLER_STORE :=
                  encode {| action := MAINTAIN; expiration := Some 5000%Z |}]};
     clock := 1000%Z; writes := 0 |}.

(** the same client where the storage is the [localStorage] wrapper, after
    the expiration has passed *)
Definition expired_world : World (gmap string string) :=
  {| state := {| action := MAINTAIN; expiration := Some 5000%Z |};
     store := ∅; clock := 9000%Z; writes := 0 |}.

(** The page is loaded again at time [now]: the module variables are back
    at [DEFAULTS], the storage is as it was left. *)
Definition reloaded {St} (w : World St) (now : Z) : World St :=
  {| state := DEFAULTS; store := store w; clock := now; writes := 0 |}.

End Disabler.

(** ** websocketLogger.ts *)

Module WebsocketLogger.

(** [Math.min(1000 * Math.pow(2, n), 1000 * 60 * 15)]. For a count [n] the
    power of two and its product with 1000 are exact in double precision as
    long as they are finite, and [Math.min] with the cap absorbs the
    overflow to [Infinity]; the integers carry the same values. *)
Definition calculateExponentialBackoff (n : Z) : Z :=
  Z.min (1000 * 2 ^ n) (1000 * 60 * 15).

(** the variables [failures] and [READY] of the logger closure *)
Record Connection := {
  failures : Z;
  READY : bool
}.

Definition initialConnection : Connection :=
  {| failures := 0; READY := false |}.

(** One turn of the [while (true)] loop of [startWebsocketConnectionLoop],
    given what [await newWebsocket()] answered: the state when the turn
    ends and the delay slept, if any. After a successful open the turn
    lasts until the socket closes. *)
Definition connectionTurn (connected : bool) (c : Connection)
    : Connection * option Z :=
  if negb connected then
    let failures := (failures c + 1)%Z in
    ({| failures := failures; READY := READY c |},
     Some (calculateExponentialBackoff failures))
  else
    ({| failures := 0; READY := false |}, None).

(** The turns of the loop for the answers of the first attempts, from the
    state [c]: the state after them and the delays slept, in order. *)
Fixpoint connectionLoop (attempts : list bool) (c : Connection)
    : Connection * list Z :=
  match attempts with
  | [] => (c, [])
  | connected :: attempts' =>
      let '(c', slept) := connectionTurn connected c in
      let '(c'', later) := connectionLoop attempts' c' in
      (c'', match slept with Some d => d :: later | None => later end)
  end.

End WebsocketLogger.

(** ** indexeddbQueue.ts *)

Module IndexeddbQueue.

(** [interface DBOperation]. The [resolve] of a dequeue operation is the
    resolver of the promise [dequeue()] returned; the queue has one consumer
    (the dequeue loop), so one such promise is outstanding at a time and the
    operation need not name it. *)
Inductive DBOperation :=
| OpEnqueue (payload : JSON)
| OpDequeue.

#[export] Instance DBOperation_is_dequeue (op : DBOperation) : Decision (op = OpDequeue).
Proof. destruct op; [right; discriminate | by left]. Defined.

(** A request handed to IndexedDB whose [onsuccess] has not fired yet. *)
Inductive IDBRequest :=
| ReqAdd (payload : JSON)
| ReqOpenCursor.

#[export] Instance IDBRequest_is_cursor (r : IDBRequest) : Decision (r = ReqOpenCursor).
Proof. destruct r; [right; discriminate | by left]. Defined.

(** The fields of [class Queue], and what lives outside the object:
    - [db]: the database is open ([request.onsuccess] of [initialize] has
      run and called [startProcessing]);
    - [yielded]: the operation [nextDBOperationPromise] was resolved with,
      which the generator is about to yield;
    - [resolved]: the value the promise of the outstanding [dequeue()] was
      resolved with, until the awaiting caller takes it;
    - [objectStore]: the rows of the object store in key order (keys are
      auto-incremented, so this is insertion order), each row its payload;
    - [requests]: the requests in flight, oldest first. Each is the only
      request of its own read-write transaction on the one object store, and
      IndexedDB runs such transactions in the order they were created;
    - [addCount]: a probe counting the calls of [objectStore.add].
    The store is taken to be healthy: no request fails. *)
Record Queue := {
  db : bool;
  dbOperationQueue : list DBOperation;
  nextDBOperationPromise : bool;
  yielded : option DBOperation;
  nextItemPromise : bool;
  resolved : option JSON;
  objectStore : list JSON;
  requests : list IDBRequest;
  addCount : nat
}.

Definition set_db (v : bool) (q : Queue) : Queue :=
  {| db := v;
     dbOperationQueue := dbOperationQueue q;
     nextDBOperationPromise := nextDBOperationPromise q;
     yielded := yielded q;
     nextItemPromise := nextItemPromise q;
     resolved := resolved q;
     objectStore := objectStore q;
     requests := requests q;
     addCount := addCount q |}.

Definition set_dbOperationQueue (v : list DBOperation) (q : Queue) : Queue :=
  {| db := db q;
     dbOperationQueue := v;
     nextDBOperationPromise := nextDBOperationPromise q;
     yielded := yielded q;
     nextItemPromise := nextItemPromise q;
     resolved := resolved q;
     objectStore := objectStore q;
     requests := requests q;
     addCount := addCount q |}.

Definition set_nextDBOperationPromise (v : bool) (q : Queue) : Queue :=
  {| db := db q;
     dbOperationQueue := dbOperationQueue q;
     nextDBOperationPromise := v;
     yielded := yielded q;
     nextItemPromise := nextItemPromise q;
     resolved := resolved q;
     objectStore := objectStore q;
     requests := requests q;
     addCount := addCount q |}.

Definition set_yielded (v : option DBOperation) (q : Queue) : Queue :=
  {| db := db q;
     dbOperationQueue := dbOperationQueue q;
     nextDBOperationPromise := nextDBOperationPromise q;
     yielded := v;
     nextItemPromise := nextItemPromise q;
     resolved := resolved q;
     objectStore := objectStore q;
     requests := requests q;
     addCount := addCount q |}.

Definition set_nextItemPromise (v : bool) (q : Queue) : Queue :=
  {| db := db q;
     dbOperationQueue := dbOperationQueue q;
     nextDBOperationPromise := nextDBOperationPromise q;
     yielded := yielded q;
     nextItemPromise := v;
     resolved := resolved q;
     objectStore := objectStore q;
     requests := requests q;
     addCount := addCount q |}.

Definition set_resolved (v : option JSON) (q : Queue) : Queue :=
  {| db := db q;
     dbOperationQueue := dbOperationQueue q;
     nextDBOperationPromise := nextDBOperationPromise q;
     yielded := yielded q;
     nextItemPromise := nextItemPromise q;
     resolved := v;
     objectStore := objectStore q;
     requests := requests q;
     addCount := addCount q |}.

Definition set_objectStore (v : list JSON) (q : Queue) : Queue :=
  {| db := db q;
     dbOperationQueue := dbOperationQueue q;
     nextDBOperationPromise := nextDBOperationPromise q;
     yielded := yielded q;
     nextItemPromise := nextItemPromise q;
     resolved := resolved q;
     objectStore := v;
     requests := requests q;
     addCount := addCount q |}.

Definition set_requests (v : list IDBRequest) (q : Queue) : Queue :=
  {| db := db q;
     dbOperationQueue := dbOperationQueue q;
     nextDBOperationPromise := nextDBOperationPromise q;
     yielded := yielded q;
     nextItemPromise := nextItemPromise q;
     resolved := resolved q;
     objectStore := objectStore q;
     requests := v;
     addCount := addCount q |}.

Definition set_addCount (v : nat) (q : Queue) : Queue :=
  {| db := db q;
     dbOperationQueue := dbOperationQueue q;
     nextDBOperationPromise := nextDBOperationPromise q;
     yielded := yielded q;
     nextItemPromise := nextItemPromise q;
     resolved := resolved q;
     objectStore := objectStore q;
     requests := requests q;
     addCount := v |}.

(** [new Queue(queueName)] over a store holding [rows] *)
Definition new (rows : list JSON) : Queue :=
  {| db := false; dbOperationQueue := []; nextDBOperationPromise := false;
     yielded := None; nextItemPromise := false; resolved := None;
     objectStore := rows; requests := []; addCount := 0 |}.

(** [request.onsuccess] of [initialize] *)
Definition onsuccess (q : Queue) : Queue := set_db true q.

(** [addItemToDB(op)] with [op.payload.payload = payload] *)
Definition addItemToDB (payload : JSON) (q : Queue) : Queue :=
  if nextItemPromise q then
    set_nextItemPromise false (set_resolved (Some payload) q)
  else
    set_addCount (S (addCount q)) (set_requests (requests q ++ [ReqAdd payload]) q).

(** [nextItemFromDB(op)]: the function returns once the cursor request is
    made; the rest happens in [request.onsuccess] *)
Definition nextItemFromDB (q : Queue) : Queue :=
  set_requests (requests q ++ [ReqOpenCursor]) q.

Definition dbOperationDispatch (op : DBOperation) (q : Queue) : Queue :=
  match op with
  | OpEnqueue payload => addItemToDB payload q
  | OpDequeue => nextItemFromDB q
  end.

(** One turn of the [for await] loop of [startProcessing], with the pull
    from [_nextDBOperation] that feeds it. *)
Definition processOperation (q : Queue) : Queue :=
  if negb (db q) then q
  else
    match yielded q with
    | Some operation => dbOperationDispatch operation (set_yielded None q)
    | None =>
        if nextDBOperationPromise q then q
        else
          match dbOperationQueue q with
          | operation :: rest =>
              dbOperationDispatch operation (set_dbOperationQueue rest q)
          | [] => set_nextDBOperationPromise true q
          end
    end.

(** The oldest request in flight succeeds and its [onsuccess] runs. For a
    cursor on a non-empty store this includes the [delete] of the row and
    [deleteRequest.onsuccess], which are part of the same transaction. *)
Definition requestSucceeds (q : Queue) : Queue :=
  match requests q with
  | [] => q
  | ReqAdd payload :: rest =>
      set_objectStore (objectStore q ++ [payload]) (set_requests rest q)
  | ReqOpenCursor :: rest =>
      match objectStore q with
      | item :: others =>
          set_resolved (Some item) (set_objectStore others (set_requests rest q))
      | [] => set_nextItemPromise true (set_requests rest q)
      end
  end.

Definition addItemToDBOperationQueue (payload : DBOperation) (q : Queue) : Queue :=
  if nextDBOperationPromise q then
    set_nextDBOperationPromise false (set_yielded (Some payload) q)
  else
    set_dbOperationQueue (dbOperationQueue q ++ [payload]) q.

Definition enqueue (item : JSON) (q : Queue) : Queue :=
  addItemToDBOperationQueue (OpEnqueue item) q.

Definition dequeue (q : Queue) : Queue :=
  addItemToDBOperationQueue OpDequeue q.

(** what can happen to the backend between two calls of its methods *)
Inductive backend_event :=
| DbOpens
| ProcessOperation
| RequestSucceeds.

Definition occurs (e : backend_event) (q : Queue) : Queue :=
  match e with
  | DbOpens => onsuccess q
  | ProcessOperation => processOperation q
  | RequestSucceeds => requestSucceeds q
  end.

(** *** What is where *)

(** the operations accepted and not yet dispatched, oldest first *)
Definition operations (q : Queue) : list DBOperation :=
  option_list (yielded q) ++ dbOperationQueue q.

Definition payloads (ops : list DBOperation) : list JSON :=
  omap (λ op, match op with OpEnqueue payload => Some payload | OpDequeue => None end) ops.

(** the payloads of the [add] requests in flight *)
Definition adding (reqs : list IDBRequest) : list JSON :=
  omap (λ r, match r with ReqAdd payload => Some payload | ReqOpenCursor => None end) reqs.

(** a cursor request is in flight *)
Definition reading (reqs : list IDBRequest) : bool :=
  existsb (λ r, match r with ReqOpenCursor => true | ReqAdd _ => false end) reqs.

(** Every item the backend holds, from the one that would be delivered
    first: the one a dequeue was resolved with, the rows of the store, the
    rows being added, the items of the pending enqueue operations. *)
Definition inflight (q : Queue) : list JSON :=
  option_list (resolved q) ++ objectStore q ++ adding (requests q)
    ++ payloads (operations q).

(** the operation the next turn of [startProcessing] dispatches, if any *)
Definition next_operation (q : Queue) : option DBOperation :=
  if negb (db q) then None
  else
    match yielded q with
    | Some operation => Some operation
    | None => if nextDBOperationPromise q then None else head (dbOperationQueue q)
    end.

(** The next turn of [startProcessing] hands an item to [objectStore.add]
    while a cursor request is still in flight: [nextItemFromDB] returned as
    soon as the cursor was requested, so [startProcessing] went on without
    waiting for its [onsuccess]. *)
Definition racy (q : Queue) : bool :=
  match next_operation q with
  | Some (OpEnqueue _) => negb (nextItemPromise q) && reading (requests q)
  | _ => false
  end.

(** how many stages a dequeue is at: queued as an operation, reading,
    parked, resolved *)
Definition dequeues (q : Queue) : nat :=
  length (filter (λ op, op = OpDequeue) (operations q))
  + length (filter (λ r, r = ReqOpenCursor) (requests q))
  + (if nextItemPromise q then 1 else 0)
  + match resolved q with Some _ => 1 | None => 0 end.

(** the requests in flight are [add]s, followed by at most one cursor *)
Fixpoint cursor_last (reqs : list IDBRequest) : bool :=
  match reqs with
  | [] => true
  | ReqAdd _ :: rest => cursor_last rest
  | ReqOpenCursor :: rest => match rest with [] => true | _ :: _ => false end
  end.

(** What holds of the backend as long as it has one consumer and no turn
    of [startProcessing] was [racy]: one dequeue at most is under way; no
    [add] was requested behind a cursor; a parked dequeue means an empty
    store with nothing in flight; and the generator waits for an operation
    only when none is pending. *)
Definition consistent (q : Queue) : Prop :=
  dequeues q ≤ 1
  ∧ cursor_last (requests q) = true
  ∧ (nextItemPromise q = true → objectStore q = [] ∧ requests q = [])
  ∧ (nextDBOperationPromise q = true → operations q = []).

(** an upper bound on the backend events and loop turns it takes to hand
    over everything the backend holds *)
Definition work (q : Queue) : nat :=
  5 * length (payloads (operations q))
  + 4 * length (adding (requests q))
  + 3 * length (objectStore q)
  + match resolved q with Some _ => 3 | None => 0 end
  + 2 * length (filter (λ op, op = OpDequeue) (operations q))
  + length (filter (λ r, r = ReqOpenCursor) (requests q)).

(** [initialize()], given whether [typeof indexedDB !== 'undefined']: where
    there is none it throws before any request is made. [initialize] is an
    [async] function that the constructor calls and does not await: the
    fault rejects a promise nobody holds and the constructor returns. *)
Definition initialize (indexedDB : bool) : outcome unit :=
  if negb indexedDB then
    Thrown (ErrorExn
      "IndexedDB is not available in this environment. Use QueueType.IN_MEMORY for Node.js.")
  else Returned tt.

(** What holds of the backend as long as it has one consumer, whatever the
    order of events: one dequeue at most is under way, and the generator
    waits for an operation only when none is pending. *)
Definition orderly (q : Queue) : Prop :=
  dequeues q ≤ 1 ∧ (nextDBOperationPromise q = true → operations q = []).

End IndexeddbQueue.

(** ** memoryQueue.js *)

Module MemoryQueue.

(** Modelled from the spec: memoryQueue.js is imported by queue.ts but its
    source is not part of the sources at hand. The specification describes
    the in-memory backend as a simple array-backed FIFO whose [enqueue]
    appends to the tail and never suspends and whose [dequeue] suspends
    until an item is available. [waiting] says that a [dequeue()] is
    suspended, [resolved] holds the value its promise was resolved with
    until the awaiting caller takes it. *)
Record Queue := {
  items : list JSON;
  waiting : bool;
  resolved : option JSON
}.

(** Modelled from the spec: what is missing is the constructor of
    memoryQueue.js. The array starts empty and nothing is suspended. *)
Definition new : Queue := {| items := []; waiting := false; resolved := None |}.

(** Modelled from the spec: what is missing is [Queue.enqueue] of
    memoryQueue.js. The item is appended to the tail; a suspended [dequeue]
    is resumed with the head. *)
Definition enqueue (item : JSON) (q : Queue) : Queue :=
  let items := items q ++ [item] in
  if waiting q then
    match items with
    | head :: rest => {| items := rest; waiting := false; resolved := Some head |}
    | [] => {| items := items; waiting := waiting q; resolved := resolved q |}
    end
  else {| items := items; waiting := waiting q; resolved := resolved q |}.

(** Modelled from the spec: what is missing is [Queue.dequeue] of
    memoryQueue.js. The head is taken if there is one; otherwise the call
    suspends. *)
Definition dequeue (q : Queue) : Queue :=
  match items q with
  | head :: rest => {| items := rest; waiting := waiting q; resolved := Some head |}
  | [] => {| items := []; waiting := true; resolved := resolved q |}
  end.

(** every item the backend holds, from the one that would be delivered first *)
Definition inflight (q : Queue) : list JSON :=
  option_list (resolved q) ++ items q.


Definition dequeues (q : Queue) : nat :=
  (if waiting q then 1 else 0) + match resolved q with Some _ => 1 | None => 0 end.

(** one dequeue at most is under way, and it is suspended only on an empty
    array *)
Definition consistent (q : Queue) : Prop :=
  dequeues q ≤ 1 ∧ (waiting q = true → items q = []).

End MemoryQueue.

(** ** queue.ts *)

Module Queue.

Definition AUTODETECT : string := "AUTODETECT".
Definition IN_MEMORY : string := "IN_MEMORY".
Definition PERSISTENT : string := "PERSISTENT".

Inductive QueueClass := MemoryQueueClass | IndexeddbQueueClass.

(** [queueClasses[queueType]] *)
Definition queueClasses (queueType : string) : option QueueClass :=
  if String.eqb queueType IN_MEMORY then Some MemoryQueueClass
  else if String.eqb queueType PERSISTENT then Some IndexeddbQueueClass
  else None.

(** The names every object has from [Object.prototype]. [queueClasses] is
    an object literal, and indexing it by one of these finds the inherited
    member, not [undefined]: a queue type of such a name is outside what
    [queueClasses] above describes ([new Queue] then ends with a backend
    that is no queue, or with a [TypeError]). *)
Definition inheritedNames : list string :=
  ["constructor"; "hasOwnProperty"; "isPrototypeOf"; "propertyIsEnumerable";
   "toLocaleString"; "toString"; "valueOf"; "__proto__";
   "__defineGetter__"; "__defineSetter__"; "__lookupGetter__"; "__lookupSetter__"].

(** [autodetect()], given whether [typeof indexedDB !== 'undefined'] *)
Definition autodetect (indexedDB : bool) : string :=
  if negb indexedDB then IN_MEMORY else PERSISTENT.

(** [this.queue]: an instance of one of the two backend classes *)
Inductive Backend :=
| InMemory (q : MemoryQueue.Queue)
| Persistent (q : IndexeddbQueue.Queue).

Definition backend_enqueue (item : JSON) (b : Backend) : Backend :=
  match b with
  | InMemory q => InMemory (MemoryQueue.enqueue item q)
  | Persistent q => Persistent (IndexeddbQueue.enqueue item q)
  end.

Definition backend_dequeue (b : Backend) : Backend :=
  match b with
  | InMemory q => InMemory (MemoryQueue.dequeue q)
  | Persistent q => Persistent (IndexeddbQueue.dequeue q)
  end.

(** the value the promise returned by [this.queue.dequeue()] has been
    resolved with, if it has *)
Definition backend_resolved (b : Backend) : option JSON :=
  match b with
  | InMemory q => MemoryQueue.resolved q
  | Persistent q => IndexeddbQueue.resolved q
  end.

(** the [await] has handed that value over *)
Definition backend_awaited (b : Backend) : Backend :=
  match b with
  | InMemory q =>
      InMemory {| MemoryQueue.items := MemoryQueue.items q;
                  MemoryQueue.waiting := MemoryQueue.waiting q;
                  MemoryQueue.resolved := None |}
  | Persistent q => Persistent (IndexeddbQueue.set_resolved None q)
  end.

Definition backend_occurs (e : IndexeddbQueue.backend_event) (b : Backend) : Backend :=
  match b with
  | InMemory q => InMemory q
  | Persistent q => Persistent (IndexeddbQueue.occurs e q)
  end.

(** where the [async] function [startDequeueLoop] stands *)
Inductive LoopState :=
| NotStarted
| AwaitingDequeue
| Terminated.

(** [class Queue]: the backend, the [run] flag of the [util.once] wrapper
    around [startDequeueLoop], the loop, and two records kept for the
    statements below: the items [onDequeue] has been invoked with and the
    calls of [onError], each in order. *)
Record Queue := {
  queue : Backend;
  startDequeueLoop_run : bool;
  loop : LoopState;
  calls : list JSON;
  reported : list (string * exn)
}.

Definition set_queue (v : Backend) (q : Queue) : Queue :=
  {| queue := v;
     startDequeueLoop_run := startDequeueLoop_run q;
     loop := loop q;
     calls := calls q;
     reported := reported q |}.

Definition set_startDequeueLoop_run (v : bool) (q : Queue) : Queue :=
  {| queue := queue q;
     startDequeueLoop_run := v;
     loop := loop q;
     calls := calls q;
     reported := reported q |}.

Definition set_loop (v : LoopState) (q : Queue) : Queue :=
  {| queue := queue q;
     startDequeueLoop_run := startDequeueLoop_run q;
     loop := v;
     calls := calls q;
     reported := reported q |}.

Definition set_calls (v : list JSON) (q : Queue) : Queue :=
  {| queue := queue q;
     startDequeueLoop_run := startDequeueLoop_run q;
     loop := loop q;
     calls := v;
     reported := reported q |}.

Definition set_reported (v : list (string * exn)) (q : Queue) : Queue :=
  {| queue := queue q;
     startDequeueLoop_run := startDequeueLoop_run q;
     loop := loop q;
     calls := calls q;
     reported := v |}.

Definition invalidQueueType : exn := ErrorExn "Invalid queue type".

(** [new Queue(queueName, { queueType })]; [rows] is what an earlier session
    left in the object store of that name, if the backend is persistent. *)
Definition new (queueType : string) (indexedDB : bool) (rows : list JSON)
    : outcome Queue :=
  let queueType :=
    if String.eqb queueType AUTODETECT then autodetect indexedDB else queueType in
  match queueClasses queueType with
  | Some QueueClass =>
      Returned
        {| queue := match QueueClass with
                    | MemoryQueueClass => InMemory MemoryQueue.new
                    | IndexeddbQueueClass => Persistent (IndexeddbQueue.new rows)
                    end;
           startDequeueLoop_run := false; loop := NotStarted;
           calls := []; reported := [] |}
  | None => Thrown invalidQueueType
  end.

Definition enqueue (item : JSON) (q : Queue) : Queue :=
  set_queue (backend_enqueue item (queue q)) q.

Section Loop.
(** [H] is the world the four callbacks of the configuration act on. They
    are closures of the caller; they reach the queue only through the
    arguments the loop passes them. The loop threads that world along. *)
Context {H : Type}.

(** [interface DequeueLoopConfig] *)
Record DequeueLoopConfig := {
  initialize : H → outcome bool * H;
  shouldDequeue : H → outcome bool * H;
  onDequeue : JSON → H → outcome unit * H;
  onError : string → exn → H → H
}.

Variable config : DequeueLoopConfig.

(** a call [onError(message, error)] *)
Definition report (message : string) (error : exn) (qh : Queue * H) : Queue * H :=
  (set_reported (reported qh.1 ++ [(message, error)]) qh.1,
   onError config message error qh.2).

Definition terminate (qh : Queue * H) : Queue * H :=
  (set_loop Terminated qh.1, qh.2).

(** From the top of the [while (true)] body to [await this.queue.dequeue()]. *)
Definition iteration (qh : Queue * H) : Queue * H :=
  match shouldDequeue config qh.2 with
  | (Returned true, h) =>
      (set_loop AwaitingDequeue (set_queue (backend_dequeue (queue qh.1)) qh.1), h)
  | (Returned false, h) =>
      terminate
        (report "QUEUE ERROR: Not allowed to start dequeueing"
           (ErrorExn "QUEUE ERROR: Dequeue streaming returned false.") (qh.1, h))
  | (Thrown error, h) =>
      terminate (report "QUEUE ERROR: Not allowed to start dequeueing" error (qh.1, h))
  end.

(** the body of [startDequeueLoop] up to its first [await] of a dequeue *)
Definition startDequeueLoop_body (qh : Queue * H) : Queue * H :=
  match initialize config qh.2 with
  | (Returned true, h) => iteration (qh.1, h)
  | (Returned false, h) =>
      terminate
        (report "QUEUE ERROR: Failure to initialize before starting dequeue loop"
           (ErrorExn "QUEUE ERROR: Initialization function returned false.") (qh.1, h))
  | (Thrown error, h) =>
      terminate
        (report "QUEUE ERROR: Failure to initialize before starting dequeue loop" error
           (qh.1, h))
  end.

Definition calledMoreThanOnce : exn :=
  ErrorExn "Error! Function was called more than once! This should never happen".

(** [queue.startDequeueLoop(config)], through the wrapper the constructor
    installs: [util.once(this.startDequeueLoop.bind(this))] *)
Definition startDequeueLoop (qh : Queue * H) : outcome unit * (Queue * H) :=
  match Util.once startDequeueLoop_body (startDequeueLoop_run qh.1) with
  | (Util.Ran func, run) =>
      (Returned tt, func (set_startDequeueLoop_run run qh.1, qh.2))
  | (Util.CalledMoreThanOnce, run) =>
      (Thrown calledMoreThanOnce, (set_startDequeueLoop_run run qh.1, qh.2))
  end.

(** [if (item !== null) await onDequeue(item)] inside its [try], and the
    [catch] *)
Definition process (item : JSON) (qh : Queue * H) : Queue * H :=
  match item with
  | JNull => qh
  | _ =>
      let q := set_calls (calls qh.1 ++ [item]) qh.1 in
      match onDequeue config item qh.2 with
      | (Returned _, h) => (q, h)
      | (Thrown error, h) =>
          report "QUEUE ERROR: Unable to process item" error (q, h)
      end
  end.

(** The loop resumes from [await this.queue.dequeue()] once the promise is
    resolved, runs the rest of the body and the next turn up to the same
    [await]. *)
Definition resume (qh : Queue * H) : Queue * H :=
  match loop qh.1, backend_resolved (queue qh.1) with
  | AwaitingDequeue, Some item =>
      iteration (process item (set_queue (backend_awaited (queue qh.1)) qh.1, qh.2))
  | _, _ => qh
  end.

(** What can happen to a queue, in the order the event loop lets it: a
    producer calls [enqueue], somebody calls [startDequeueLoop], the loop
    resumes, the backend moves. *)
Inductive event :=
| Enqueue (item : JSON)
| StartDequeueLoop
| Resume
| BackendEvent (e : IndexeddbQueue.backend_event).

Definition step (qh : Queue * H) (ev : event) : Queue * H :=
  match ev with
  | Enqueue item => (enqueue item qh.1, qh.2)
  | StartDequeueLoop => (startDequeueLoop qh).2
  | Resume => resume qh
  | BackendEvent e => (set_queue (backend_occurs e (queue qh.1)) qh.1, qh.2)
  end.

Definition run (evs : list event) (qh : Queue * H) : Queue * H :=
  foldl step qh evs.

End Loop.

Arguments DequeueLoopConfig : clear implicits.

(** *** Schedules *)

Definition backend_inflight (b : Backend) : list JSON :=
  match b with
  | InMemory q => MemoryQueue.inflight q
  | Persistent q => IndexeddbQueue.inflight q
  end.

(** the test [item !== null] of the loop *)
Definition is_null (item : JSON) : bool :=
  match item with JNull => true | _ => false end.

Definition nonnull (items : list JSON) : list JSON :=
  List.filter (λ item, negb (is_null item)) items.

(** the event is a turn of [startProcessing] that is [IndexeddbQueue.racy] *)
Definition racy_event (q : Queue) (ev : event) : bool :=
  match ev, queue q with
  | BackendEvent IndexeddbQueue.ProcessOperation, Persistent b => IndexeddbQueue.racy b
  | _, _ => false
  end.

(** no event of the schedule is racy when it happens *)
Fixpoint race_free {H} (config : DequeueLoopConfig H) (evs : list event)
    (qh : Queue * H) : bool :=
  match evs with
  | [] => true
  | ev :: evs' => negb (racy_event qh.1 ev) && race_free config evs' (step config qh ev)
  end.

(** The callbacks never stop the loop: [initialize] and [shouldDequeue]
    answer true whenever they are asked. *)
Definition alive {H} (config : DequeueLoopConfig H) : Prop :=
  (∀ h, ∃ h', initialize config h = (Returned true, h'))
  ∧ (∀ h, ∃ h', shouldDequeue config h = (Returned true, h')).

(** What the event loop does next when no producer interferes: resume the
    loop if its dequeue is resolved, else let the oldest request succeed,
    else dispatch the next operation. [None]: nothing is left to do. *)
Definition next_event (q : Queue) : option event :=
  match loop q, backend_resolved (queue q) with
  | AwaitingDequeue, Some _ => Some Resume
  | _, _ =>
      match queue q with
      | InMemory _ => None
      | Persistent b =>
          match IndexeddbQueue.requests b, IndexeddbQueue.next_operation b with
          | _ :: _, _ => Some (BackendEvent IndexeddbQueue.RequestSucceeds)
          | [], Some _ => Some (BackendEvent IndexeddbQueue.ProcessOperation)
          | [], None => None
          end
      end
  end.

Definition backend_work (b : Backend) : nat :=
  match b with
  | InMemory q => 3 * length (MemoryQueue.inflight q)
  | Persistent q => IndexeddbQueue.work q
  end.

(** the events by which the event loop, left alone, comes to rest *)
Fixpoint completion {H} (config : DequeueLoopConfig H) (fuel : nat)
    (qh : Queue * H) : list event :=
  match fuel with
  | 0 => []
  | S fuel' =>
      match next_event qh.1 with
      | Some ev => ev :: completion config fuel' (step config qh ev)
      | None => []
      end
  end.

Definition settle {H} (config : DequeueLoopConfig H) (qh : Queue * H) : list event :=
  completion config (backend_work (queue qh.1)) qh.

(** the database of a persistent backend is open (there is none to open
    for the in-memory one) *)
Definition opened (b : Backend) : bool :=
  match b with
  | InMemory _ => true
  | Persistent q => IndexeddbQueue.db q
  end.

Definition backend_dequeues (b : Backend) : nat :=
  match b with
  | InMemory q => MemoryQueue.dequeues q
  | Persistent q => IndexeddbQueue.dequeues q
  end.

Definition backend_consistent (b : Backend) : Prop :=
  match b with
  | InMemory q => MemoryQueue.consistent q
  | Persistent q => IndexeddbQueue.consistent q
  end.

(** The invariant of a queue whose loop is kept alive, along a race-free
    schedule; [all] is what the backend held at first followed by what was
    enqueued since. What [onDequeue] was invoked with, followed by the
    non-null items the backend holds, is the non-null part of [all]; the
    backend is consistent; and a dequeue is under way exactly when the loop
    awaits one. *)
Definition fifo (all : list JSON) (q : Queue) : Prop :=
  calls q ++ nonnull (backend_inflight (queue q)) = nonnull all
  ∧ backend_consistent (queue q)
  ∧ backend_dequeues (queue q) = match loop q with AwaitingDequeue => 1 | _ => 0 end
  ∧ loop q ≠ Terminated
  ∧ (loop q = NotStarted ↔ startDequeueLoop_run q = false).

(** the items passed to [enqueue] along a sequence of events *)
Definition enqueued (evs : list event) : list JSON :=
  omap (λ ev, match ev with Enqueue item => Some item | _ => None end) evs.

(** the defaults of the configuration, around a given [onDequeue] *)
Definition defaultConfig {H} (onDequeue : JSON → H → outcome unit * H)
    : DequeueLoopConfig H :=
  {| initialize := λ h, (Returned true, h);
     shouldDequeue := λ h, (Returned true, h);
     onDequeue := onDequeue;
     onError := λ _ _ h, h |}.

(** a handler that fails on every item; its world counts the calls of
    [onError] *)
Definition failingConfig : DequeueLoopConfig nat :=
  {| initialize := λ h, (Returned true, h);
     shouldDequeue := λ h, (Returned true, h);
     onDequeue := λ _ h, (Thrown (ErrorExn "handler failed"), h);
     onError := λ _ _ h, S h |}.

(** a persistent queue on an empty store, and the schedule that brings the
    item 1 to the loop: the database opens, 1 is enqueued, the loop starts,
    both operations are dispatched and both requests succeed *)
Definition emptyPersistent : Queue :=
  {| queue := Persistent (IndexeddbQueue.new []);
     startDequeueLoop_run := false; loop := NotStarted; calls := []; reported := [] |}.

Definition bringsOne : list event :=
  [BackendEvent IndexeddbQueue.DbOpens; Enqueue (JNum 1); StartDequeueLoop;
   BackendEvent IndexeddbQueue.ProcessOperation;
   BackendEvent IndexeddbQueue.ProcessOperation;
   BackendEvent IndexeddbQueue.RequestSucceeds;
   BackendEvent IndexeddbQueue.RequestSucceeds].

(** a handler that accepts every item *)
Definition acceptingConfig : DequeueLoopConfig unit :=
  defaultConfig (λ _ h, (Returned tt, h)).

(** the database opens; 1, [null] and 2 are enqueued; the loop starts *)
Definition enqueuesNull : list event :=
  [BackendEvent IndexeddbQueue.DbOpens; Enqueue (JNum 1); Enqueue JNull;
   Enqueue (JNum 2); StartDequeueLoop].

(** The database opens and the loop starts on an empty store; its dequeue
    is dispatched; 1 is enqueued and dispatched before the cursor's
    [onsuccess] has run; then both requests succeed; 2 is enqueued; the
    event loop goes on until it rests. *)
Definition enqueuesDuringRead : list event :=
  [BackendEvent IndexeddbQueue.DbOpens; StartDequeueLoop;
   BackendEvent IndexeddbQueue.ProcessOperation;
   Enqueue (JNum 1);
   BackendEvent IndexeddbQueue.ProcessOperation;
   BackendEvent IndexeddbQueue.RequestSucceeds;
   BackendEvent IndexeddbQueue.RequestSucceeds;
   Enqueue (JNum 2)].

(** *** One consumer *)

(** The loop is the one caller of [dequeue] on a persistent backend: a
    dequeue is under way exactly when the loop awaits one, and the loop has
    not started exactly as long as the wrapper of [startDequeueLoop] has
    not run. *)
Definition single_consumer (q : Queue) : Prop :=
  ∃ b, queue q = Persistent b
       ∧ IndexeddbQueue.orderly b
       ∧ IndexeddbQueue.dequeues b = match loop q with AwaitingDequeue => 1 | _ => 0 end
       ∧ (loop q = NotStarted ↔ startDequeueLoop_run q = false).

(** what [onDequeue] has been invoked with, and the non-null items the
    backend holds *)
Definition held (q : Queue) : list JSON :=
  calls q ++ nonnull (backend_inflight (queue q)).

(** Where [initialize()] of the persistent backend threw, no open request
    exists whose [onsuccess] could run: the database never opens. *)
Definition possible (indexedDB : bool) (evs : list event) : Prop :=
  IndexeddbQueue.initialize indexedDB ≠ Returned tt →
  BackendEvent IndexeddbQueue.DbOpens ∉ evs.

(** The database opens and the loop starts on an empty store; its dequeue
    is dispatched; [a] is enqueued and dispatched before the cursor's
    [onsuccess] has run; then both requests succeed; [b] is enqueued. *)
Definition overtaking (a b : JSON) : list event :=
  [BackendEvent IndexeddbQueue.DbOpens; StartDequeueLoop;
   BackendEvent IndexeddbQueue.ProcessOperation;
   Enqueue a;
   BackendEvent IndexeddbQueue.ProcessOperation;
   BackendEvent IndexeddbQueue.RequestSucceeds;
   BackendEvent IndexeddbQueue.RequestSucceeds;
   Enqueue b].

(** a configuration whose [shouldDequeue] answers false on the third call,
    counted in its world *)
Definition twoTurnsConfig : DequeueLoopConfig nat :=
  {| initialize := λ h, (Returned true, h);
     shouldDequeue := λ h, (Returned (h <? 2), S h);
     onDequeue := λ _ h, (Returned tt, h);
     onError := λ _ _ h, h |}.

(** a configuration whose [initialize] answers false *)
Definition uninitializedConfig : DequeueLoopConfig nat :=
  {| initialize := λ h, (Returned false, h);
     shouldDequeue := λ h, (Returned true, h);
     onDequeue := λ _ h, (Returned tt, h);
     onError := λ _ _ h, S h |}.

(** the loop is started, the database would be ready, items are enqueued
    and the backend is given every chance *)
Definition everyChance : list event :=
  [Enqueue (JNum 1); StartDequeueLoop; Enqueue (JNum 2);
   BackendEvent IndexeddbQueue.ProcessOperation;
   BackendEvent IndexeddbQueue.ProcessOperation;
   BackendEvent IndexeddbQueue.RequestSucceeds; Resume;
   BackendEvent IndexeddbQueue.ProcessOperation;
   BackendEvent IndexeddbQueue.RequestSucceeds; Resume].

End Queue.

(** ** loEvent.ts *)

Module LoEvent.

Inductive INIT_STATES :=
| NOT_STARTED
| IN_PROGRESS
| LOGGERS_READY
| READY
| ERROR.

(** How the call of an optional hook of a logger ends: it returns (a value,
    or a promise that is fulfilled), it returns a promise that is rejected,
    or it throws before returning anything. *)
Inductive hook :=
| Fulfils
| Rejects (e : exn)
| Throws (e : exn).

(** [interface Logger]: the callable itself and the two optional hooks the
    orchestrator uses; [None] is a logger without the property. *)
Record Logger := {
  send : JSON → outcome unit;
  init_hook : option hook;
  setField : option (JSON → hook)
}.

(** [interface MetadataTask], [func] by what calling it gives *)
Record MetadataTask := {
  name : string;
  func : outcome JSON
}.

(** the callbacks chained on [currentState] *)
Inductive Step :=
| DisablerInit
| InitializeLoggers
| LockFields (data : list Util.MetadataInput)
| CompileMetadata
| StartDequeueLoop.

(** the options of [init] that act on the pipeline *)
Record InitOptions := {
  useDisabler : bool;
  queueType : string;
  sendBrowserInfo : option JSON;
  verboseEvents : bool;
  metadata : list MetadataTask
}.

(** the [.map(...)] that calls every hook: the first call that throws ends it *)
Fixpoint firstThrown (hooks : list hook) : option exn :=
  match hooks with
  | [] => None
  | Throws e :: _ => Some e
  | _ :: rest => firstThrown rest
  end.

(** [await Promise.all(...)] over what the hooks returned *)
Fixpoint firstRejected (hooks : list hook) : option exn :=
  match hooks with
  | [] => None
  | Rejects e :: _ => Some e
  | _ :: rest => firstRejected rest
  end.

(** every [setField] hook of the loggers returns, whatever it is given *)
Definition setField_returns (loggers : list Logger) : Prop :=
  ∀ logger f payload, logger ∈ loggers → setField logger = Some f → f payload = Fulfils.

Section WithStorage.
Context {St : Type} (storage : BrowserStorage.StorageBackend St).

(** The module variables the callbacks of the main loop act on, with the
    state of the modules they call into, and two records: the messages
    given to [debug.error] (where debugLog.ts routes them is not followed)
    and the payloads handed to the [setField] hooks.
    The storage both disabler.ts and util.ts import is the [store] of the
    disabler's world. *)
Record World := {
  initialized : INIT_STATES;
  loggersEnabled : list Logger;
  disabler : Disabler.World St;
  util : Util.UtilState;
  debugErrors : list string;
  setFieldCalls : list JSON
}.

Definition set_initialized (v : INIT_STATES) (s : World) : World :=
  {| initialized := v;
     loggersEnabled := loggersEnabled s;
     disabler := disabler s;
     util := util s;
     debugErrors := debugErrors s;
     setFieldCalls := setFieldCalls s |}.

Definition set_loggersEnabled (v : list Logger) (s : World) : World :=
  {| initialized := initialized s;
     loggersEnabled := v;
     disabler := disabler s;
     util := util s;
     debugErrors := debugErrors s;
     setFieldCalls := setFieldCalls s |}.

Definition set_disabler (v : Disabler.World St) (s : World) : World :=
  {| initialized := initialized s;
     loggersEnabled := loggersEnabled s;
     disabler := v;
     util := util s;
     debugErrors := debugErrors s;
     setFieldCalls := setFieldCalls s |}.

Definition set_util (v : Util.UtilState) (s : World) : World :=
  {| initialized := initialized s;
     loggersEnabled := loggersEnabled s;
     disabler := disabler s;
     util := v;
     debugErrors := debugErrors s;
     setFieldCalls := setFieldCalls s |}.

Definition set_debugErrors (v : list string) (s : World) : World :=
  {| initialized := initialized s;
     loggersEnabled := loggersEnabled s;
     disabler := disabler s;
     util := util s;
     debugErrors := v;
     setFieldCalls := setFieldCalls s |}.

Definition set_setFieldCalls (v : list JSON) (s : World) : World :=
  {| initialized := initialized s;
     loggersEnabled := loggersEnabled s;
     disabler := disabler s;
     util := util s;
     debugErrors := debugErrors s;
     setFieldCalls := v |}.

(** the module variables of loEvent.ts; [rejected] and [pipeline] are the
    promise [currentState]: whether it is bound to be rejected, and the
    callbacks chained on it that have not run yet *)
Record LoEvent := {
  world : World;
  queue : option Queue.Queue;
  rejected : option exn;
  pipeline : list Step;
  pendingSource : string;
  pendingVersion : string;
  pendingMetadata : list MetadataTask
}.

Definition set_world (v : World) (s : LoEvent) : LoEvent :=
  {| world := v;
     queue := queue s;
     rejected := rejected s;
     pipeline := pipeline s;
     pendingSource := pendingSource s;
     pendingVersion := pendingVersion s;
     pendingMetadata := pendingMetadata s |}.

Definition set_queue (v : option Queue.Queue) (s : LoEvent) : LoEvent :=
  {| world := world s;
     queue := v;
     rejected := rejected s;
     pipeline := pipeline s;
     pendingSource := pendingSource s;
     pendingVersion := pendingVersion s;
     pendingMetadata := pendingMetadata s |}.

Definition set_rejected (v : option exn) (s : LoEvent) : LoEvent :=
  {| world := world s;
     queue := queue s;
     rejected := v;
     pipeline := pipeline s;
     pendingSource := pendingSource s;
     pendingVersion := pendingVersion s;
     pendingMetadata := pendingMetadata s |}.

Definition set_pipeline (v : list Step) (s : LoEvent) : LoEvent :=
  {| world := world s;
     queue := queue s;
     rejected := rejected s;
     pipeline := v;
     pendingSource := pendingSource s;
     pendingVersion := pendingVersion s;
     pendingMetadata := pendingMetadata s |}.

Definition set_pendingSource (v : string) (s : LoEvent) : LoEvent :=
  {| world := world s;
     queue := queue s;
     rejected := rejected s;
     pipeline := pipeline s;
     pendingSource := v;
     pendingVersion := pendingVersion s;
     pendingMetadata := pendingMetadata s |}.

Definition set_pendingVersion (v : string) (s : LoEvent) : LoEvent :=
  {| world := world s;
     queue := queue s;
     rejected := rejected s;
     pipeline := pipeline s;
     pendingSource := pendingSource s;
     pendingVersion := v;
     pendingMetadata := pendingMetadata s |}.

Definition set_pendingMetadata (v : list MetadataTask) (s : LoEvent) : LoEvent :=
  {| world := world s;
     queue := queue s;
     rejected := rejected s;
     pipeline := pipeline s;
     pendingSource := pendingSource s;
     pendingVersion := pendingVersion s;
     pendingMetadata := v |}.

Definition isInitialized (w : World) : bool :=
  match initialized w with READY => true | _ => false end.

(** [initializeLoggers()]: the world after it and, if the promise it
    returns is rejected, the reason *)
Definition initializeLoggers (w : World) : option exn * World :=
  let initializedLoggers := omap init_hook (loggersEnabled w) in
  match firstThrown initializedLoggers with
  | Some e => (Some e, w)
  | None =>
      match firstRejected initializedLoggers with
      | None => (None, set_initialized LOGGERS_READY w)
      | Some _ =>
          (None,
           set_debugErrors (debugErrors w ++ ["Error resolving logger initializers:"])
             (set_initialized ERROR w))
      end
  end.

(** [compileMetadata(metadataTasks)] *)
Definition compileMetadata (metadataTasks : list MetadataTask) (w : World)
    : list JSON * World :=
  (omap (λ task, match func task with
                 | Returned result => Some (obj [(name task, result)])
                 | Thrown _ => None
                 end) metadataTasks,
   set_debugErrors
     (debugErrors w ++
      omap (λ task, match func task with
                    | Returned _ => None
                    | Thrown _ =>
                        Some (String.append "Error in initialization task "
                                (String.append (name task) ":"))
                    end) metadataTasks) w).

(** [lockFieldsAsync(data)] *)
Definition lockFieldsAsync (rd : Util.Readings) (data : list Util.MetadataInput)
    (w : World) : option exn * World :=
  let payload := obj [("fields", Util.mergeMetadata data); ("event", JStr "lock_fields")] in
  let '(stamped, payload, u, st) :=
    Util.timestampEvent storage rd payload (util w) (Disabler.store (disabler w)) in
  let w := set_util u
             (set_disabler {| Disabler.state := Disabler.state (disabler w);
                              Disabler.store := st;
                              Disabler.clock := Disabler.clock (disabler w);
                              Disabler.writes := Disabler.writes (disabler w) |} w) in
  match stamped with
  | Thrown e => (Some e, w)
  | Returned _ =>
      let authpromises := (λ f : JSON → hook, f payload) <$> omap setField (loggersEnabled w) in
      let w := set_setFieldCalls (setFieldCalls w ++ [payload]) w in
      match firstThrown authpromises with
      | Some e => (Some e, w)
      | None => (firstRejected authpromises, w)
      end
  end.

(** [sendEvent(event)]: the loop over [loggersEnabled] *)
Fixpoint sendEvent_loop (loggers : list Logger) (event : JSON) (w : World)
    : outcome unit * World :=
  match loggers with
  | [] => (Returned tt, w)
  | logger :: rest =>
      match send logger event with
      | Returned _ => sendEvent_loop rest event w
      | Thrown (BlockErrorExn message timeLimit action) =>
          sendEvent_loop rest event
            (set_disabler
               (Disabler.handleBlockError storage
                  {| Disabler.message := message; Disabler.timeLimit := timeLimit;
                     Disabler.error_action := action |} (disabler w)) w)
      | Thrown error => (Thrown error, w)
      end
  end.

Definition sendEvent (event : JSON) (w : World) : outcome unit * World :=
  sendEvent_loop (loggersEnabled w) event w.

(** the configuration [go] hands to [queue.startDequeueLoop]; [onError] is
    the default, [debug.error] *)
Definition mainLoopConfig : Queue.DequeueLoopConfig World :=
  {| Queue.initialize := λ w, (Returned (isInitialized w), w);
     Queue.shouldDequeue := λ w,
       let '(again, d) := Disabler.retry storage (disabler w) in
       (Returned again, set_disabler d w);
     Queue.onDequeue := sendEvent;
     Queue.onError := λ message _ w, set_debugErrors (debugErrors w ++ [message]) w |}.

Definition queueIsUndefined : exn :=
  TypeErrorExn "Cannot read properties of undefined".

(** the last callback [go] chains *)
Definition startStep (s : LoEvent) : LoEvent :=
  match initialized (world s) with
  | ERROR =>
      set_world
        (set_debugErrors
           (debugErrors (world s) ++
            ["Cannot start dequeue loop: logger initialization failed"]) (world s)) s
  | _ =>
      let w := set_initialized READY (world s) in
      match queue s with
      | None => set_rejected (Some queueIsUndefined) (set_world w s)
      | Some q =>
          match Queue.startDequeueLoop mainLoopConfig (q, w) with
          | (Returned _, (q, w)) => set_queue (Some q) (set_world w s)
          | (Thrown e, (q, w)) =>
              set_rejected (Some e) (set_queue (Some q) (set_world w s))
          end
      end
  end.

Definition settleWith (r : option exn * World) (s : LoEvent) : LoEvent :=
  set_rejected r.1 (set_world r.2 s).

(** One callback of the chain runs. A callback chained with [then] on a
    rejected promise is skipped and the rejection is passed on. *)
Definition runStep (rd : Util.Readings) (s : LoEvent) (step : Step) : LoEvent :=
  match rejected s with
  | Some _ => s
  | None =>
      match step with
      | DisablerInit =>
          set_world (set_disabler (Disabler.init storage (disabler (world s))) (world s)) s
      | InitializeLoggers => settleWith (initializeLoggers (world s)) s
      | LockFields data => settleWith (lockFieldsAsync rd data (world s)) s
      | CompileMetadata =>
          let '(results, w) := compileMetadata (pendingMetadata s) (world s) in
          settleWith (lockFieldsAsync rd (Util.MValue <$> results) w) s
      | StartDequeueLoop => startStep s
      end
  end.

(** the chain runs as far as it has been built *)
Definition settle (rd : Util.Readings) (s : LoEvent) : LoEvent :=
  foldl (runStep rd) (set_pipeline [] s) (pipeline s).

Definition chain (step : Step) (s : LoEvent) : LoEvent :=
  set_pipeline (pipeline s ++ [step]) s.

Definition lockFields (data : list Util.MetadataInput) (s : LoEvent) : LoEvent :=
  chain (LockFields data) s.

(** [logEvent(eventType, event)]: how the call ends, and the module state *)
Definition logEvent (rd : Util.Readings) (eventType : string) (event : JSON)
    (s : LoEvent) : outcome unit * LoEvent :=
  if negb (Disabler.storeEvents (disabler (world s))) then (Returned tt, s)
  else
    match event with
    | JObject _ _ =>
        let event := setProp event "event" (JStr eventType) in
        let '(stamped, event, u, st) :=
          Util.timestampEvent storage rd event (util (world s))
            (Disabler.store (disabler (world s))) in
        let w := set_util u
                   (set_disabler
                      {| Disabler.state := Disabler.state (disabler (world s));
                         Disabler.store := st;
                         Disabler.clock := Disabler.clock (disabler (world s));
                         Disabler.writes := Disabler.writes (disabler (world s)) |}
                      (world s)) in
        match stamped with
        | Thrown e => (Thrown e, set_world w s)
        | Returned _ =>
            match queue s with
            | Some q => (Returned tt, set_queue (Some (Queue.enqueue event q)) (set_world w s))
            | None => (Thrown queueIsUndefined, set_world w s)
            end
        end
    | _ => (Thrown Util.cannotCreateProperty, s)
    end.

(** [init(source, version, loggers, options)], given whether the
    environment has [indexedDB] and the rows its store holds *)
Definition init (rd : Util.Readings) (indexedDB : bool) (rows : list JSON)
    (source version : string) (loggers : list Logger) (options : InitOptions)
    (s : LoEvent) : outcome unit * LoEvent :=
  if String.eqb source "" then (Thrown (ErrorExn "source must be a non-null string"), s)
  else if String.eqb version "" then (Thrown (ErrorExn "version must be a non-null string"), s)
  else
    let s := set_world (set_util (Util.setVerboseEvents (verboseEvents options)
                                    (util (world s))) (world s)) s in
    match Queue.new (queueType options) indexedDB rows with
    | Thrown e => (Thrown e, s)
    | Returned q =>
        let s := set_queue (Some q) s in
        let s := if useDisabler options then chain DisablerInit s else s in
        let s := set_world (set_initialized IN_PROGRESS
                              (set_loggersEnabled loggers (world s))) s in
        let s := set_pendingMetadata (metadata options)
                   (set_pendingVersion version (set_pendingSource source s)) in
        let s := chain InitializeLoggers s in
        match sendBrowserInfo options with
        | Some browserInfo => logEvent rd "BROWSER_INFO" browserInfo s
        | None => (Returned tt, s)
        end
    end.

(** [go()] *)
Definition go (s : LoEvent) : LoEvent :=
  let s := lockFields
             [Util.MValue (obj [("source", JStr (pendingSource s));
                                ("version", JStr (pendingVersion s))])] s in
  let s := chain CompileMetadata s in
  chain StartDequeueLoop s.

(** the module as it is loaded *)
Definition loaded (w : Disabler.World St) (u : Util.UtilState) : LoEvent :=
  {| world := {| initialized := NOT_STARTED; loggersEnabled := [];
                 disabler := w; util := u; debugErrors := []; setFieldCalls := [] |};
     queue := None; rejected := None; pipeline := [];
     pendingSource := ""; pendingVersion := ""; pendingMetadata := [] |}.

(** the callbacks that neither initialize the loggers nor start the loop *)
Definition neutral (step : Step) : bool :=
  match step with
  | DisablerInit | LockFields _ | CompileMetadata => true
  | InitializeLoggers | StartDequeueLoop => false
  end.

(** the chain is not rejected, the main queue is [q], the loggers are
    [loggers] and the state of the orchestrator is [i] *)
Definition tracked (q : Queue.Queue) (loggers : list Logger) (i : INIT_STATES)
    (s : LoEvent) : Prop :=
  rejected s = None ∧ queue s = Some q ∧ loggersEnabled (world s) = loggers
  ∧ initialized (world s) = i.

(** [queue.startDequeueLoop] has been called on the main queue *)
Definition loopStarted (s : LoEvent) : bool :=
  match queue s with
  | Some q => Queue.startDequeueLoop_run q
  | None => false
  end.

End WithStorage.

(** *** Loggers and a module to run them in *)

(** a logger like [consoleLogger]: both hooks are there and return *)
Definition quietLogger : Logger :=
  {| send := λ _, Returned tt;
     init_hook := Some Fulfils;
     setField := Some (λ _, Fulfils) |}.

(** a logger whose [init] is an [async] function that fails *)
Definition rejectingLogger : Logger :=
  {| send := λ _, Returned tt;
     init_hook := Some (Rejects (ErrorExn "init failed"));
     setField := Some (λ _, Fulfils) |}.

(** a logger whose [init] is a plain function that throws *)
Definition throwingLogger : Logger :=
  {| send := λ _, Returned tt;
     init_hook := Some (Throws (ErrorExn "init failed"));
     setField := Some (λ _, Fulfils) |}.

Definition defaultOptions : InitOptions :=
  {| useDisabler := true; queueType := Queue.AUTODETECT; sendBrowserInfo := None;
     verboseEvents := false; metadata := [] |}.

Definition someReadings : Util.Readings :=
  {| Util.toISOString := "2026-01-01T00:00:00.000Z"; Util.Date_now := 1767225600000%Z;
     Util.Date_string := "Thu Jan 01 2026"; Util.keystamp := "k-1767225600000" |}.

(** the module freshly loaded where there is no [indexedDB] and the storage
    is the empty [thunkStorage] *)
Definition freshModule : @LoEvent (gmap string JSON) :=
  loaded {| Disabler.state := Disabler.DEFAULTS; Disabler.store := ∅;
            Disabler.clock := 1767225600000%Z; Disabler.writes := 0 |}
         {| Util.cachedBrowserStamp := JNull; Util.eventIndex := 0%Z;
            Util.sessionStamp := "s-1767225600000"; Util.verboseEvents := true |}.

(** [init('S', 'V', loggers); go();] and the chain run to its end *)
Definition initAndGo (loggers : list Logger) : @LoEvent (gmap string JSON) :=
  settle BrowserStorage.thunkStorage someReadings
    (go (init BrowserStorage.thunkStorage someReadings false [] "S" "V" loggers
           defaultOptions freshModule).2).

(** *** What [sendEvent] lets pass *)

(** the call of a logger that the [try] of [sendEvent] goes on after: it
    returned, or it threw a [BlockError] *)
Definition passes (r : outcome unit) : bool :=
  match r with
  | Returned _ => true
  | Thrown (BlockErrorExn _ _ _) => true
  | Thrown _ => false
  end.

(** the [BlockError]s the loggers throw on an event, in the order of the
    loggers *)
Definition blockErrors (loggers : list Logger) (event : JSON) : list Disabler.BlockError :=
  omap (λ logger,
          match send logger event with
          | Thrown (BlockErrorExn message timeLimit action) =>
              Some {| Disabler.message := message; Disabler.timeLimit := timeLimit;
                      Disabler.error_action := action |}
          | _ => None
          end) loggers.

(** a logger that the server has blocked: it throws the [BlockError] *)
Definition blockedLogger (timeLimit : Z) (action : string) : Logger :=
  {| send := λ _, Thrown (BlockErrorExn "blocked" timeLimit action);
     init_hook := None;
     setField := None |}.

(** a logger that fails on every event *)
Definition brokenLogger : Logger :=
  {| send := λ _, Thrown (ErrorExn "logger failed");
     init_hook := None;
     setField := None |}.

(** a logger whose [setField] is an [async] function that fails *)
Definition deafLogger : Logger :=
  {| send := λ _, Returned tt;
     init_hook := Some Fulfils;
     setField := Some (λ _, Rejects (ErrorExn "setField failed")) |}.

(** *** What the loggers are told *)

(** the [fields] of the payloads handed to the [setField] hooks so far *)
Definition fieldsSent {St} (w : @World St) : list (option JSON) :=
  (λ payload, getProp payload "fields") <$> setFieldCalls w.

(** some [setField] hook fails, whatever it is given: it throws, or the
    promise it returns is rejected *)
Definition setField_fails (loggers : list Logger) : Prop :=
  ∀ payload,
    firstThrown ((λ f : JSON → hook, f payload) <$> omap setField loggers) ≠ None
    ∨ firstRejected ((λ f : JSON → hook, f payload) <$> omap setField loggers) ≠ None.

(** a metadata task that succeeds and one that fails *)
(** A key under which an assignment to a plain object makes an ordinary
    property, listed by [for ... in] where it was created: not [__proto__],
    whose assignment runs the inherited setter, and no array index, which
    is listed before the other keys. *)
Definition ordinaryKey (k : string) : bool :=
  negb (String.eqb k "__proto__")
  && match Objects.arrayIndex k with Some _ => false | None => true end.

(** the keys an input of [mergeMetadata] brings *)
Definition inputKeys (item : Util.MetadataInput) : list string :=
  match item with
  | Util.MValue (JObject _ ps) | Util.MFunction (JObject _ ps) => keys ps
  | _ => []
  end.

(** Inputs whose keys are ordinary and all different. Merging them assigns
    every key once, to the new [masterDict]: no object the inputs are made
    of is changed, whichever of them they share. *)
Definition separateKeys (inputList : list Util.MetadataInput) : Prop :=
  NoDup (concat (inputKeys <$> inputList))
  ∧ Forall (λ k, ordinaryKey k = true) (concat (inputKeys <$> inputList)).

Definition someTasks : list MetadataTask :=
  [{| name := "screen"; func := Returned (obj [("width", JNum 800)]) |};
   {| name := "localStorageInfo"; func := Thrown (ErrorExn "SecurityError") |};
   {| name := "language"; func := Returned (JStr "en") |}].

End LoEvent.


(** ** metadata/storage.ts *)

Module StorageMetadata.

(** What a call of [storage.getItem(key)] does: it returns the string
    stored, returns [null] where nothing is stored, or throws an error
    object, of which the code reads [name] and [message]. *)
Inductive got :=
| Item (value : string)
| Missing
| Threw (name message : string).

(** The [Storage] the function is given, as far as the function uses it. A
    read of [length] or a call of [key(i)] that throws is [None]; reading
    changes nothing. *)
Record Storage := {
  length : option nat;
  key : nat → option string;
  getItem : string → got
}.

(** the value assigned to [items[key]]: what [getItem] returned, or the
    record made of the error it threw *)
Definition entry (g : got) : JSON :=
  match g with
  | Item value => JStr value
  | Missing => JNull
  | Threw name message =>
      obj [("type", JStr "error");
           ("error_type", JStr (if String.eqb name "" then "Unknown" else name));
           ("error_message", JStr (if String.eqb message "" then "" else message))]
  end.

(** What the function returns: a value, or an object with a new prototype
    (see [Util.assign]), which is outside the model. *)
Inductive answer :=
| Answer (v : JSON)
| PrototypeReplaced.

(** [keys.forEach(key => ...)] *)
Fixpoint forEach (storage : Storage) (keys : list string) (items : JSON) : answer :=
  match keys with
  | [] => Answer items
  | k :: keys' =>
      match Util.assign items k (entry (getItem storage k)) with
      | Some items' => forEach storage keys' items'
      | None => PrototypeReplaced
      end
  end.

(** [for (let i = 0; i < storage.length; i++)], with [todo] indices left
    from [i] on; a [key(i)] that throws leaves the loop for the outer
    [catch] *)
Fixpoint forLoop (storage : Storage) (todo i : nat) (items : JSON) : answer :=
  match todo with
  | O => Answer items
  | S todo' =>
      match key storage i with
      | None => Answer JNull
      | Some k =>
          match Util.assign items k (entry (getItem storage k)) with
          | Some items' => forLoop storage todo' (S i) items'
          | None => PrototypeReplaced
          end
      end
  end.

(** [getStorageMetadata(storage, keys)] *)
Definition getStorageMetadata (storage : option Storage) (keys : option (list string))
    : answer :=
  match storage with
  | None => Answer JNull
  | Some storage =>
      match keys with
      | None =>
          match length storage with
          | None => Answer JNull
          | Some n => forLoop storage n 0 (obj [])
          end
      | Some keys => forEach storage keys (obj [])
      end
  end.

(** a storage of two items whose second one cannot be read *)
Definition guarded : Storage :=
  {| length := Some 2;
     key := λ i, Some (match i with O => "user" | _ => "token" end);
     getItem := λ k, if String.eqb k "user" then Item "ada"
                     else if String.eqb k "token"
                          then Threw "SecurityError" "denied"
                          else Missing |}.

(** a storage whose second key cannot be listed *)
Definition unlisted : Storage :=
  {| length := Some 2;
     key := λ i, match i with O => Some "user" | _ => None end;
     getItem := λ k, if String.eqb k "user" then Item "ada" else Missing |}.

End StorageMetadata.
(** * Properties *)

(** ** Property lists *)

Module JsonFacts.

Lemma lookup_assign_eq {A} k (v : A) ps : lookupProp k (assignProp k v ps) = Some v.
Proof.
  induction ps as [|[k' v'] ps IH]; simpl.
  - by rewrite String.eqb_refl.
  - destruct (String.eqb k k') eqn:E; simpl.
    + by rewrite String.eqb_refl.
    + by rewrite E.
Qed.

Lemma lookup_assign_ne {A} k k' (v : A) ps :
  k ≠ k' → lookupProp k' (assignProp k v ps) = lookupProp k' ps.
Proof.
  intros Hne. induction ps as [|[k0 v0] ps IH]; simpl.
  - destruct (String.eqb_spec k' k); congruence.
  - destruct (String.eqb_spec k k0) as [->|]; simpl.
    + destruct (String.eqb_spec k' k0); congruence.
    + destruct (String.eqb_spec k' k0); congruence.
Qed.

Lemma assign_assign {A} k (v w : A) ps :
  assignProp k w (assignProp k v ps) = assignProp k w ps.
Proof.
  induction ps as [|[k' v'] ps IH]; simpl.
  - by rewrite String.eqb_refl.
  - destruct (String.eqb k k') eqn:E; simpl.
    + by rewrite String.eqb_refl.
    + by rewrite E, IH.
Qed.

Lemma lookup_not_in {A} k (ps : list (string * A)) :
  k ∉ keys ps → lookupProp k ps = None.
Proof.
  induction ps as [|[k' v] ps IH]; simpl; [done|].
  intros Hn. apply not_elem_of_cons in Hn as [Hne Hn].
  destruct (String.eqb_spec k k'); [done|auto].
Qed.

Lemma getProp_setProp_eq c ps k x :
  getProp (setProp (JObject c ps) k x) k = Some x.
Proof. apply lookup_assign_eq. Qed.

Lemma getProp_setProp_ne v k k' x :
  k ≠ k' → getProp (setProp v k x) k' = getProp v k'.
Proof. destruct v; simpl; auto using lookup_assign_ne. Qed.

Lemma isObject_setProp v k x : isObject (setProp v k x) = isObject v.
Proof. by destruct v. Qed.

End JsonFacts.
Import JsonFacts.

(** ** browserStorage.ts *)

Module BrowserStorageFacts.
Import BrowserStorage.

(** the in-memory backend does return everything for [null] *)
Lemma thunk_get_null (data : gmap string JSON) : thunk_get KeyNull data = data.
Proof. reflexivity. Qed.

Lemma thunkStorage_reads_back : reads_back thunkStorage.
Proof.
  intros key value st. simpl. unfold thunk_set.
  rewrite (lookup_union_l' _ _ key); [|by rewrite lookup_singleton_eq].
  rewrite lookup_singleton_eq. apply lookup_insert_eq.
Qed.

(** the wrapper around [getItem] hands [null] on to [items ?? []] and
    looks nothing up *)
Lemma getWithCallback_null {St} (getItem : string → St → JSON) (area : St) :
  getWithCallback getItem KeyNull area = ∅.
Proof. reflexivity. Qed.

(** C9 fails for the backends built with [getWithCallback]: on a
    localStorage area that holds the pair [user_id = "u1"], [get(null,
    callback)] calls the callback with the empty map, while the same call
    on [thunkStorage] holding that pair returns it. *)
Theorem getWithCallback_null_misses_stored_pairs :
  let area : gmap string string := {["user_id" := "u1"]} in
  let data : gmap string JSON := {["user_id" := JStr "u1"]} in
  get localStorageBackend (KeyString "user_id") area !! "user_id" = Some (JStr "u1")
  ∧ get localStorageBackend KeyNull area = ∅
  ∧ get localStorageBackend KeyNull area !! "user_id" = None
  ∧ get thunkStorage KeyNull data !! "user_id" = Some (JStr "u1").
Proof. repeat split; reflexivity. Qed.

(** what the wrappers around [localStorage] give back is the string
    [String(value)], whatever was written *)
Lemma localStorage_reads_back_string key value area :
  get localStorageBackend (KeyArray [key]) (set localStorageBackend {[key := value]} area)
    !! key = Some (JStr (String_ value)).
Proof.
  simpl. unfold setWithCallback, getWithCallback. rewrite map_fold_singleton.
  simpl. rewrite lookup_insert_eq. unfold localStorage_getItem, localStorage_setItem.
  by rewrite lookup_insert_eq.
Qed.

Lemma localStorage_not_reads_back : ¬ reads_back localStorageBackend.
Proof.
  intros Hlaw. specialize (Hlaw "k" JNull ∅).
  rewrite localStorage_reads_back_string in Hlaw. discriminate.
Qed.

End BrowserStorageFacts.

(** ** util.ts *)

Module UtilFacts.
Import Util.

Lemma mergeDictionary_unfold target c sprops :
  mergeDictionary target (JObject c sprops) = mergeProps sprops target.
Proof.
  unfold mergeProps. revert target.
  induction sprops as [|[k sv] ps IH]; intros t; [done|].
  simpl. rewrite <- IH. done.
Qed.

Lemma isObject_mergeKey t k sv : isObject (mergeKey t k sv) = isObject t.
Proof.
  unfold mergeKey. destruct (getProp t k) as [tv|]; [|apply isObject_setProp].
  destruct (isObject tv && isObject sv); apply isObject_setProp.
Qed.

Lemma getProp_mergeKey_ne t k k' sv :
  k ≠ k' → getProp (mergeKey t k sv) k' = getProp t k'.
Proof.
  intros Hne. unfold mergeKey. destruct (getProp t k) as [tv|].
  - destruct (isObject tv && isObject sv); by apply getProp_setProp_ne.
  - by apply getProp_setProp_ne.
Qed.

Lemma getProp_mergeKey_eq t k sv :
  isObject t = true → getProp (mergeKey t k sv) k = Some (merged (getProp t k) sv).
Proof.
  intros Ht. destruct t as [| | | |c ps]; try discriminate.
  unfold mergeKey, merged. destruct (getProp (JObject c ps) k) as [tv|].
  - destruct (isObject tv && isObject sv); apply getProp_setProp_eq.
  - apply getProp_setProp_eq.
Qed.

Lemma getProp_mergeProps ps : ∀ t k,
  isObject t = true → NoDup (keys ps) →
  getProp (mergeProps ps t) k =
    match lookupProp k ps with
    | Some sv => Some (merged (getProp t k) sv)
    | None => getProp t k
    end.
Proof.
  induction ps as [|[k0 sv0] ps IH]; intros t k Ht Hnd; [done|].
  simpl in Hnd. apply NoDup_cons in Hnd as [Hk0 Hnd].
  change (mergeProps ((k0, sv0) :: ps) t) with (mergeProps ps (mergeKey t k0 sv0)).
  rewrite IH; [|by rewrite isObject_mergeKey|done].
  simpl. destruct (String.eqb_spec k k0) as [->|Hne].
  - rewrite (lookup_not_in k0 ps Hk0). by apply getProp_mergeKey_eq.
  - rewrite getProp_mergeKey_ne; [done|congruence].
Qed.

Lemma mergeMetadata_snoc inputList item :
  mergeMetadata (inputList ++ [item]) = mergeInput (mergeMetadata inputList) item.
Proof. unfold mergeMetadata. by rewrite fold_left_app. Qed.

Lemma isObject_mergeProps ps : ∀ t, isObject (mergeProps ps t) = isObject t.
Proof.
  induction ps as [|[k sv] ps IH]; intros t; [done|].
  change (mergeProps ((k, sv) :: ps) t) with (mergeProps ps (mergeKey t k sv)).
  by rewrite IH, isObject_mergeKey.
Qed.

Lemma isObject_mergeDictionary t s : isObject (mergeDictionary t s) = isObject t.
Proof.
  destruct s; try done. rewrite mergeDictionary_unfold. apply isObject_mergeProps.
Qed.

Lemma isObject_mergeMetadata inputList : isObject (mergeMetadata inputList) = true.
Proof.
  induction inputList as [|item l IH] using rev_ind; [done|].
  rewrite mergeMetadata_snoc.
  destruct item as [v|v]; simpl; destruct (typeofObject v);
    by rewrite ?isObject_mergeDictionary.
Qed.


(** *** timestampEvent *)

Section TimestampEvent.
Context {St : Type} (storage : BrowserStorage.StorageBackend St).

(** the metadata object after the stamps, from the one before *)
Lemma stamps_keep_other_keys (metadata : JSON) (k : string) (verbose : bool)
    (v1 v2 v3 v4 v5 v6 : JSON) :
  k ∉ stampedKeys verbose →
  getProp
    (if verbose
     then setProp (setProp (setProp (setProp (setProp (setProp metadata
            "iso_ts" v1) "ts" v2) "human_ts" v3) "sessionIndex" v4)
            "sessionTag" v5) "browserTag" v6
     else setProp metadata "iso_ts" v1) k
  = getProp metadata k.
Proof.
  intros Hk. destruct verbose; simpl in Hk.
  - repeat (rewrite getProp_setProp_ne; [|set_solver]). done.
  - rewrite getProp_setProp_ne; [done|set_solver].
Qed.

(** the event after the call is the event before it with, at most, its
    [metadata] property assigned *)
Lemma timestampEvent_event rd event u st :
  let event' := (timestampEvent storage rd event u st).1.1.2 in
  event' = event ∨ ∃ metadata', event' = setProp event "metadata" metadata'.
Proof.
  unfold timestampEvent. destruct event as [| | | |c ps]; simpl; auto.
  destruct (falsy (lookupProp "metadata" ps)); simpl.
  - rewrite lookup_assign_eq. simpl.
    destruct (verboseEvents u).
    + destruct (browserStamp storage rd (cachedBrowserStamp u) st) as [[tag cached] st'].
      simpl. right. rewrite assign_assign. eauto.
    + simpl. right. rewrite assign_assign. eauto.
  - destruct (lookupProp "metadata" ps) as [[| | | |c' ps']|]; simpl; auto.
    destruct (verboseEvents u).
    + destruct (browserStamp storage rd (cachedBrowserStamp u) st) as [[tag cached] st'].
      simpl. right. eauto.
    + simpl. right. eauto.
Qed.

Lemma timestampEvent_other_fields rd event u st k :
  k ≠ "metadata" →
  getProp (timestampEvent storage rd event u st).1.1.2 k = getProp event k.
Proof.
  intros Hk.
  destruct (timestampEvent_event rd event u st) as [->|[m' ->]]; [done|].
  by apply getProp_setProp_ne.
Qed.

Lemma timestampEvent_metadata_keys rd event u st metadata k :
  getProp event "metadata" = Some metadata →
  k ∉ stampedKeys (verboseEvents u) →
  ∃ metadata',
    getProp (timestampEvent storage rd event u st).1.1.2 "metadata" = Some metadata'
    ∧ getProp metadata' k = getProp metadata k.
Proof.
  intros Hm Hk. unfold timestampEvent.
  destruct event as [| | | |c ps]; try discriminate. simpl in Hm.
  cbn [getProp]. rewrite Hm. cbn [falsy].
  destruct (truthy metadata) eqn:Ht; cbn [negb].
  - (* an object, or a primitive the assignment throws on *)
    cbn [getProp]. rewrite Hm. destruct metadata as [| | | |c' ps'];
      try (eexists; split; [cbn; exact Hm | done]).
    destruct (verboseEvents u) eqn:Hv.
    + destruct (browserStamp storage rd (cachedBrowserStamp u) st) as [[tag cached] st'].
      eexists. split; [cbn; apply lookup_assign_eq|].
      apply (stamps_keep_other_keys (JObject c' ps') k true). done.
    + eexists. split; [cbn; apply lookup_assign_eq|].
      apply (stamps_keep_other_keys (JObject c' ps') k false
               (JStr (toISOString rd)) JNull JNull JNull JNull JNull). done.
  - (* a falsy value: replaced by a fresh object, which has no keys *)
    cbn [setProp getProp]. rewrite lookup_assign_eq.
    assert (Hnone : getProp metadata k = None) by by destruct metadata.
    rewrite Hnone. cbn [obj].
    destruct (verboseEvents u) eqn:Hv.
    + destruct (browserStamp storage rd (cachedBrowserStamp u) st) as [[tag cached] st'].
      eexists. split; [cbn; rewrite assign_assign; apply lookup_assign_eq|].
      etrans; [apply (stamps_keep_other_keys (obj []) k true); done | done].
    + eexists. split; [cbn; rewrite assign_assign; apply lookup_assign_eq|].
      etrans; [apply (stamps_keep_other_keys (obj []) k false
               (JStr (toISOString rd)) JNull JNull JNull JNull JNull); done | done].
Qed.
(** an object without a [metadata] property is stamped without a fault *)
Lemma timestampEvent_returns rd c ps u st :
  lookupProp "metadata" ps = None →
  (timestampEvent storage rd (JObject c ps) u st).1.1.1 = Returned tt.
Proof.
  intros Hm. unfold timestampEvent. cbn [getProp]. rewrite Hm. cbn [falsy].
  cbn [setProp getProp]. rewrite lookup_assign_eq. cbn [obj].
  destruct (verboseEvents u); [|done].
  by destruct (browserStamp storage rd (cachedBrowserStamp u) st) as [[tag cached] st'].
Qed.

(** C10: [timestampEvent] changes nothing of the event but its [metadata]
    property: every other top-level field reads as before the call, and
    every key that [metadata] already had, other than the stamped ones
    ([iso_ts]; with verbose mode on also [ts], [human_ts], [sessionIndex],
    [sessionTag], [browserTag]), still reads as before. *)
Theorem timestampEvent_frame (rd : Readings) (event : JSON) (u : UtilState) (st : St) :
  let event' := (timestampEvent storage rd event u st).1.1.2 in
  (∀ k, k ≠ "metadata" → getProp event' k = getProp event k)
  ∧ (∀ metadata k,
       getProp event "metadata" = Some metadata →
       k ∉ stampedKeys (verboseEvents u) →
       ∃ metadata', getProp event' "metadata" = Some metadata'
                    ∧ getProp metadata' k = getProp metadata k).
Proof.
  split.
  - intros k Hk. by apply timestampEvent_other_fields.
  - intros metadata k Hm Hk. by apply timestampEvent_metadata_keys.
Qed.

End TimestampEvent.

End UtilFacts.

(** ** disabler.ts *)

Module DisablerFacts.
Import BrowserStorage Disabler.
Local Open Scope Z_scope.

Section WithStorage.
Context {St : Type} (storage : StorageBackend St).

Lemma needs_write_reset : needs_write (Some (encode reset)) reset = false.
Proof. reflexivity. Qed.

Lemma needs_write_differs (currentValue : option JSON) :
  needs_write currentValue reset = true → currentValue ≠ Some (encode reset).
Proof. intros Hw ->. by rewrite needs_write_reset in Hw. Qed.

Lemma retry_permanent (w : World St) :
  expiration (state w) = Some PERMANENT → retry storage w = (false, w).
Proof. intros He. unfold retry. by rewrite bool_decide_eq_true_2. Qed.

Lemma retry_permanent_forever (w : World St) (n : nat) :
  expiration (state w) = Some PERMANENT →
  retry storage (Nat.iter n (λ x, (retry storage x).2) w) = (false, w).
Proof.
  intros He. induction n as [|n IH]; simpl.
  - by apply retry_permanent.
  - rewrite IH. simpl. by apply retry_permanent.
Qed.

Lemma retry_resets (w : World St) :
  expiration (state w) ≠ Some PERMANENT →
  (retry storage w).1 = true
  ∧ state (retry storage w).2 = reset
  ∧ clock (retry storage w).2 = Z.max (clock w) (toNumber (expiration (state w)))
  ∧ (if needs_write (stored storage (store w)) reset
     then store (retry storage w).2
            = set storage {[DISABLER_STORE := encode reset]} (store w)
          ∧ writes (retry storage w).2 = S (writes w)
     else store (retry storage w).2 = store w
          ∧ writes (retry storage w).2 = writes w).
Proof.
  intros He. unfold retry. rewrite bool_decide_eq_false_2 by done.
  fold (stored storage (store w)). change {| action := action DEFAULTS;
    expiration := expiration DEFAULTS |} with reset.
  assert (Hclock :
    (if clock w <? toNumber (expiration (state w))
     then clock w + (toNumber (expiration (state w)) - clock w) else clock w)
    = Z.max (clock w) (toNumber (expiration (state w)))).
  { destruct (Z.ltb_spec (clock w) (toNumber (expiration (state w)))); lia. }
  destruct (needs_write (stored storage (store w)) reset); simpl; by rewrite Hclock.
Qed.

Lemma retry_twice_writes (w : World St) :
  reads_back storage →
  expiration (state w) ≠ Some PERMANENT →
  writes (retry storage (retry storage w).2).2 = writes (retry storage w).2.
Proof.
  intros Hlaw He.
  destruct (retry_resets w He) as (_ & Hstate & _ & Hw).
  assert (He' : expiration (state (retry storage w).2) ≠ Some PERMANENT)
    by by rewrite Hstate.
  destruct (retry_resets _ He') as (_ & _ & _ & Hw').
  assert (Hno : needs_write (stored storage (store (retry storage w).2)) reset = false).
  { destruct (needs_write (stored storage (store w)) reset) eqn:Hn.
    - destruct Hw as [-> _]. unfold stored. by rewrite Hlaw.
    - destruct Hw as [-> _]. done. }
  rewrite Hno in Hw'. by destruct Hw'.
Qed.

End WithStorage.

(** C2, where the code breaks it: the storage is the pair of [localStorage]
    wrappers, the block has long expired, and [retry()] is called twice in
    a row. Both calls return true, and both call [storage.set]: the
    wrappers store [String(record)], that is "[object Object]", so what
    [storage.get] hands back never compares equal to the reset record and
    the test that is to spare the second write is true every time. It is
    so on an empty storage area, and as well on the area as
    [handleBlockError] left it when the block came. *)
Lemma retry_writes_twice_on_localStorage :
  let first := retry localStorageBackend expired_world in
  let second := retry localStorageBackend first.2 in
  let blocked :=
    handleBlockError localStorageBackend
      {| message := "blocked"; error_action := MAINTAIN; timeLimit := 4000 |}
      {| state := DEFAULTS; store := ∅; clock := 1000; writes := 0 |} in
  let first' :=
    retry localStorageBackend
      {| state := state blocked; store := store blocked; clock := 9000; writes := 0 |} in
  let second' := retry localStorageBackend first'.2 in
  first.1 = true ∧ second.1 = true
  ∧ writes first.2 = 1%nat
  ∧ writes second.2 = 2%nat
  ∧ store first.2 !! DISABLER_STORE = Some "[object Object]"
  ∧ state blocked = {| action := MAINTAIN; expiration := Some 5000%Z |}
  ∧ first'.1 = true ∧ second'.1 = true
  ∧ writes first'.2 = 1%nat
  ∧ writes second'.2 = 2%nat
  ∧ state first'.2 = reset ∧ state second'.2 = reset
  ∧ store second'.2 = store first'.2.
Proof. vm_compute. repeat split. Qed.

End DisablerFacts.

(** ** websocketLogger.ts *)

Module WebsocketLoggerFacts.
Import WebsocketLogger.
Local Open Scope Z_scope.

Lemma backoff_cap_value : 1000 * 60 * 15 = 900000.
Proof. reflexivity. Qed.

Lemma backoff_mono (n m : Z) :
  0 ≤ n → n ≤ m → calculateExponentialBackoff n ≤ calculateExponentialBackoff m.
Proof.
  intros Hn Hnm. unfold calculateExponentialBackoff.
  assert (2 ^ n ≤ 2 ^ m) by (apply Z.pow_le_mono_r; lia).
  lia.
Qed.

Lemma backoff_capped (n : Z) : 10 ≤ n → calculateExponentialBackoff n = 900000.
Proof.
  intros Hn. unfold calculateExponentialBackoff.
  assert (2 ^ 10 ≤ 2 ^ n) by (apply Z.pow_le_mono_r; lia).
  change (2 ^ 10) with 1024 in *. lia.
Qed.

(** the delays of the first ten failure counts lie strictly under the cap *)
Lemma backoff_uncapped (n : Z) :
  0 ≤ n → n < 10 → calculateExponentialBackoff n = 1000 * 2 ^ n.
Proof.
  intros Hn Hlt. unfold calculateExponentialBackoff.
  assert (2 ^ n ≤ 2 ^ 9) by (apply Z.pow_le_mono_r; lia).
  change (2 ^ 9) with 512 in *. lia.
Qed.

(** a failed attempt raises the count first and sleeps the delay of the new
    count *)
Lemma connectionTurn_failure (c : Connection) :
  connectionTurn false c =
    ({| failures := failures c + 1; READY := READY c |},
     Some (calculateExponentialBackoff (failures c + 1))).
Proof. reflexivity. Qed.

(** C7: the reconnect delay is [min(1000 * 2^n, 900000)] milliseconds for
    every failure count [n >= 0]; it never decreases as [n] grows, and it
    is exactly 900000 from [n = 10] on. *)
Theorem calculateExponentialBackoff_spec (n : Z) :
  0 ≤ n →
  calculateExponentialBackoff n = Z.min (1000 * 2 ^ n) 900000
  ∧ (∀ m, n ≤ m → calculateExponentialBackoff n ≤ calculateExponentialBackoff m)
  ∧ (10 ≤ n → calculateExponentialBackoff n = 900000).
Proof.
  intros Hn. split; [reflexivity|]. split.
  - intros m Hm. by apply backoff_mono.
  - apply backoff_capped.
Qed.

Lemma calculateExponentialBackoff_spec_witness :
  0 ≤ 12
  ∧ (calculateExponentialBackoff 12 = Z.min (1000 * 2 ^ 12) 900000
     ∧ (∀ m, 12 ≤ m → calculateExponentialBackoff 12 ≤ calculateExponentialBackoff m)
     ∧ (10 ≤ 12 → calculateExponentialBackoff 12 = 900000)).
Proof.
  split; [lia | apply (calculateExponentialBackoff_spec 12); lia].
Defined.

End WebsocketLoggerFacts.

(** ** indexeddbQueue.ts *)

Module IndexeddbQueueFacts.
Import IndexeddbQueue.

Lemma payloads_app ops1 ops2 : payloads (ops1 ++ ops2) = payloads ops1 ++ payloads ops2.
Proof. apply omap_app. Qed.

Lemma adding_app reqs1 reqs2 : adding (reqs1 ++ reqs2) = adding reqs1 ++ adding reqs2.
Proof. apply omap_app. Qed.

(** unfold one backend operation on a queue given field by field *)
Ltac backend_cases q :=
  destruct q as [db ops parked yld nip res rows reqs cnt];
  unfold inflight, operations, enqueue, dequeue, addItemToDBOperationQueue,
    occurs, onsuccess, processOperation, requestSucceeds, dbOperationDispatch,
    addItemToDB, nextItemFromDB; simpl.

Ltac list_norm :=
  simpl; rewrite ?payloads_app, ?adding_app; simpl; rewrite ?app_nil_r; simpl.

(** *** Nothing is duplicated *)

Lemma inflight_enqueue_sub (item : JSON) (q : Queue) :
  inflight (enqueue item q) ⊆+ inflight q ++ [item].
Proof.
  backend_cases q. destruct parked; list_norm.
  - destruct yld as [[p|]|]; list_norm; solve_submseteq.
  - solve_submseteq.
Qed.

Lemma inflight_dequeue_sub (q : Queue) : inflight (dequeue q) ⊆+ inflight q.
Proof.
  backend_cases q. destruct parked; list_norm.
  - destruct yld as [[p|]|]; list_norm; solve_submseteq.
  - solve_submseteq.
Qed.

Lemma inflight_dispatch_sub (op : DBOperation) (q : Queue) :
  inflight (dbOperationDispatch op q) ⊆+ payloads [op] ++ inflight q.
Proof.
  backend_cases q. destruct op as [p|]; list_norm.
  - destruct nip; list_norm; [destruct res|]; list_norm; solve_submseteq.
  - solve_submseteq.
Qed.

Lemma inflight_occurs_sub (e : backend_event) (q : Queue) :
  inflight (occurs e q) ⊆+ inflight q.
Proof.
  destruct e.
  - by backend_cases q.
  - unfold occurs, processOperation. destruct (negb (db q)); [done|].
    destruct (yielded q) as [op|] eqn:Hy.
    + etrans; [apply inflight_dispatch_sub|].
      backend_cases q. simpl in Hy. subst yld. list_norm.
      destruct op; list_norm; solve_submseteq.
    + destruct (nextDBOperationPromise q); [done|].
      destruct (dbOperationQueue q) as [|op rest] eqn:Hq.
      * backend_cases q. simpl in *. by subst.
      * etrans; [apply inflight_dispatch_sub|].
        backend_cases q. simpl in *. subst. list_norm.
        destruct op; list_norm; solve_submseteq.
  - backend_cases q. destruct reqs as [|[p|] rest]; list_norm; [done| |].
    + solve_submseteq.
    + destruct rows as [|item others]; list_norm; [done|].
      destruct res; list_norm; solve_submseteq.
Qed.

Lemma inflight_awaited (q : Queue) :
  option_list (resolved q) ++ inflight (set_resolved None q) = inflight q.
Proof. by backend_cases q. Qed.

(** *** The short cut past the store *)

(** C6: when a dequeue is parked (the cursor found the store empty and left
    its resolver in [nextItemPromise]), the next enqueue resolves that
    dequeue with the enqueued item as soon as its operation is dispatched,
    and the item is not written: no [add] is requested, and the store and
    the requests in flight are what they were. *)
Theorem enqueue_while_parked (q : Queue) (item : JSON) :
  nextItemPromise q = true →
  db q = true →
  operations q = [] →
  let q' := processOperation (enqueue item q) in
  resolved q' = Some item
  ∧ nextItemPromise q' = false
  ∧ objectStore q' = objectStore q
  ∧ requests q' = requests q
  ∧ addCount q' = addCount q
  ∧ operations q' = [].
Proof.
  destruct q as [db ops parked yld nip res rows reqs cnt].
  unfold operations. simpl. intros -> -> Hops.
  destruct yld; [discriminate|]. simpl in Hops. subst ops.
  destruct parked; done.
Qed.

Lemma enqueue_while_parked_witness :
  let parked :=
    requestSucceeds (processOperation (dequeue (onsuccess (new [])))) in
  nextItemPromise parked = true
  ∧ resolved (processOperation (enqueue (JStr "a") parked)) = Some (JStr "a")
  ∧ objectStore (processOperation (enqueue (JStr "a") parked)) = []
  ∧ addCount (processOperation (enqueue (JStr "a") parked)) = 0.
Proof.
  intros parked.
  pose proof (enqueue_while_parked parked (JStr "a") eq_refl eq_refl eq_refl)
    as (Hres & _ & Hrows & _ & Hcnt & _).
  split; [reflexivity|]. split; [exact Hres|]. split; [exact Hrows | exact Hcnt].
Defined.

End IndexeddbQueueFacts.

(** ** memoryQueue.js *)

Module MemoryQueueFacts.
Import MemoryQueue.

Lemma memory_enqueue_sub (item : JSON) (q : Queue) :
  inflight (enqueue item q) ⊆+ inflight q ++ [item].
Proof.
  destruct q as [its w res]. unfold inflight, enqueue. simpl.
  destruct w; simpl; [|by rewrite app_assoc].
  destruct its as [|x its]; simpl; destruct res; simpl; solve_submseteq.
Qed.

Lemma memory_dequeue_sub (q : Queue) : inflight (dequeue q) ⊆+ inflight q.
Proof.
  destruct q as [its w res]. unfold inflight, dequeue. simpl.
  destruct its as [|x its]; simpl; [done|]. destruct res; simpl; solve_submseteq.
Qed.

End MemoryQueueFacts.

(** *** The persistent backend keeps the order *)

Module IndexeddbQueueOrder.
Import IndexeddbQueue IndexeddbQueueFacts.

Lemma no_cursor_reading reqs :
  length (filter (λ r, r = ReqOpenCursor) reqs) = 0 → reading reqs = false.
Proof.
  induction reqs as [|[p|] reqs IH]; simpl; [done|auto|done].
Qed.

Lemma cursor_last_snoc reqs r : reading reqs = false → cursor_last (reqs ++ [r]) = true.
Proof.
  induction reqs as [|[p|] reqs IH]; simpl; [by destruct r|auto|done].
Qed.

Lemma cursor_last_tail r reqs : cursor_last (r :: reqs) = true → cursor_last reqs = true.
Proof. destruct r; simpl; [done|]. by destruct reqs. Qed.

Lemma cursor_last_head reqs : cursor_last (ReqOpenCursor :: reqs) = true → reqs = [].
Proof. simpl. by destruct reqs. Qed.

Lemma dequeue_count_snoc ops op :
  length (filter (λ op, op = OpDequeue) (ops ++ [op]))
  = length (filter (λ op, op = OpDequeue) ops)
    + match op with OpDequeue => 1 | OpEnqueue _ => 0 end.
Proof. rewrite filter_app, length_app. by destruct op. Qed.

Lemma cursor_count_snoc reqs r :
  length (filter (λ r, r = ReqOpenCursor) (reqs ++ [r]))
  = length (filter (λ r, r = ReqOpenCursor) reqs)
    + match r with ReqOpenCursor => 1 | ReqAdd _ => 0 end.
Proof. rewrite filter_app, length_app. by destruct r. Qed.

Lemma dequeue_count_cons op ops :
  length (filter (λ op, op = OpDequeue) (op :: ops))
  = match op with OpDequeue => 1 | OpEnqueue _ => 0 end
    + length (filter (λ op, op = OpDequeue) ops).
Proof. by destruct op. Qed.

Lemma cursor_count_cons r reqs :
  length (filter (λ r, r = ReqOpenCursor) (r :: reqs))
  = match r with ReqOpenCursor => 1 | ReqAdd _ => 0 end
    + length (filter (λ r, r = ReqOpenCursor) reqs).
Proof. by destruct r. Qed.

Ltac backend_fields q :=
  destruct q as [db ops parked yld nip res rows reqs cnt];
  unfold consistent, dequeues, work, inflight, operations, racy, next_operation,
    enqueue, dequeue, addItemToDBOperationQueue, occurs, onsuccess,
    processOperation, requestSucceeds, dbOperationDispatch, addItemToDB,
    nextItemFromDB in *; simpl in *.

Ltac count_norm :=
  rewrite ?payloads_app, ?adding_app, ?dequeue_count_snoc, ?cursor_count_snoc,
    ?filter_app, ?length_app, ?dequeue_count_cons, ?cursor_count_cons in *;
  simpl in *; rewrite ?app_nil_r in *.

Ltac finish :=
  count_norm; repeat split; try done; try lia; try (intuition (congruence || lia)).

Lemma enqueue_exact (item : JSON) (q : Queue) :
  consistent q →
  inflight (enqueue item q) = inflight q ++ [item]
  ∧ consistent (enqueue item q)
  ∧ dequeues (enqueue item q) = dequeues q.
Proof.
  backend_fields q. intros (Hd & Hc & Hnip & Hp).
  destruct parked; simpl.
  - pose proof (Hp eq_refl) as Hops. apply app_eq_nil in Hops as [Hy ->].
    destruct yld; [done|]. simpl in *.
    rewrite app_nil_r, <- !app_assoc. finish.
  - count_norm. rewrite <- !app_assoc. finish.
Qed.

Lemma dequeue_exact (q : Queue) :
  consistent q →
  dequeues q = 0 →
  inflight (dequeue q) = inflight q
  ∧ consistent (dequeue q)
  ∧ dequeues (dequeue q) = 1.
Proof.
  backend_fields q. intros (Hd & Hc & Hnip & Hp) Hz.
  assert (nip = false) as -> by (destruct nip; [lia|done]).
  destruct parked; simpl.
  - pose proof (Hp eq_refl) as Hops. apply app_eq_nil in Hops as [Hy ->].
    destruct yld; [done|]. simpl in *.
    finish.
  - count_norm. finish.
Qed.

Lemma awaited_exact (q : Queue) (item : JSON) :
  resolved q = Some item →
  consistent q →
  inflight q = item :: inflight (set_resolved None q)
  ∧ consistent (set_resolved None q)
  ∧ dequeues (set_resolved None q) = 0.
Proof.
  backend_fields q. intros -> (Hd & Hc & Hnip & Hp). simpl in *.
  finish.
Qed.

Lemma process_exact (q : Queue) :
  consistent q →
  racy q = false →
  inflight (processOperation q) = inflight q
  ∧ consistent (processOperation q)
  ∧ dequeues (processOperation q) = dequeues q.
Proof.
  backend_fields q. intros (Hd & Hc & Hnip & Hp) Hrace.
  destruct db; simpl in *; [|finish].
  destruct yld as [[p|]|]; simpl in *.
  - (* the yielded operation is an enqueue *)
    destruct nip; simpl in *.
    + destruct (Hnip eq_refl) as [-> ->]. destruct res; simpl in *; [lia|]. finish.
    + count_norm. rewrite (cursor_last_snoc reqs _ Hrace), <- !app_assoc. finish.
  - (* the yielded operation is a dequeue *)
    assert (nip = false) as -> by (destruct nip; [lia|done]).
    count_norm.
    rewrite (cursor_last_snoc reqs ReqOpenCursor) by (apply no_cursor_reading; lia).
    finish.
  - destruct parked; simpl in *; [finish|].
    destruct ops as [|[p|] rest]; simpl in *.
    + finish.
    + destruct nip; simpl in *.
      * destruct (Hnip eq_refl) as [-> ->]. destruct res; simpl in *; [lia|]. finish.
      * count_norm. rewrite (cursor_last_snoc reqs _ Hrace), <- !app_assoc. finish.
    + assert (nip = false) as -> by (destruct nip; [lia|done]).
      count_norm.
      rewrite (cursor_last_snoc reqs ReqOpenCursor) by (apply no_cursor_reading; lia).
      finish.
Qed.

Lemma request_exact (q : Queue) :
  consistent q →
  inflight (requestSucceeds q) = inflight q
  ∧ consistent (requestSucceeds q)
  ∧ dequeues (requestSucceeds q) = dequeues q.
Proof.
  backend_fields q. intros (Hd & Hc & Hnip & Hp).
  destruct reqs as [|[p|] rest]; simpl in *; [finish| |].
  - assert (nip = false) as -> by (destruct nip; [by destruct (Hnip eq_refl)|done]).
    rewrite <- !app_assoc. finish.
  - assert (rest = []) as -> by by destruct rest.
    assert (nip = false) as -> by (destruct nip; [lia|done]).
    destruct res; simpl in *; [lia|].
    destruct rows as [|item others]; simpl in *; finish.
Qed.

Lemma occurs_exact (e : backend_event) (q : Queue) :
  consistent q →
  (e = ProcessOperation → racy q = false) →
  inflight (occurs e q) = inflight q
  ∧ consistent (occurs e q)
  ∧ dequeues (occurs e q) = dequeues q.
Proof.
  intros Hc Hrace. destruct e.
  - by backend_fields q.
  - by apply process_exact, Hrace.
  - by apply request_exact.
Qed.

(** *** Every step of the backend is progress *)

Lemma work_request (q : Queue) :
  requests q ≠ [] → work (requestSucceeds q) < work q.
Proof.
  backend_fields q. intros Hne.
  destruct reqs as [|[p|] rest]; simpl in *; [done| |].
  - count_norm. lia.
  - destruct rows as [|item others]; simpl in *; count_norm; [lia|].
    destruct res; lia.
Qed.

Lemma work_process (q : Queue) (op : DBOperation) :
  next_operation q = Some op → work (processOperation q) < work q.
Proof.
  backend_fields q. destruct db; simpl; [|done].
  destruct yld as [[p|]|]; simpl.
  - intros _. destruct nip; simpl; count_norm; [destruct res|]; lia.
  - intros _. count_norm. lia.
  - destruct parked; [done|]. destruct ops as [|[p|] rest]; simpl; [done| |].
    + intros _. destruct nip; simpl; count_norm; [destruct res|]; lia.
    + intros _. count_norm. lia.
Qed.

Lemma work_dequeue (q : Queue) : work (dequeue q) ≤ work q + 2.
Proof.
  backend_fields q. destruct parked; simpl; count_norm; [|lia].
  destruct yld as [[p|]|]; simpl; lia.
Qed.

Lemma work_awaited (q : Queue) (item : JSON) :
  resolved q = Some item → work (set_resolved None q) + 3 = work q.
Proof. backend_fields q. intros ->. lia. Qed.

End IndexeddbQueueOrder.

(** *** The in-memory backend keeps the order *)

Module MemoryQueueOrder.
Import MemoryQueue.

Lemma memory_enqueue_exact (item : JSON) (q : Queue) :
  consistent q →
  inflight (enqueue item q) = inflight q ++ [item]
  ∧ consistent (enqueue item q)
  ∧ dequeues (enqueue item q) = dequeues q.
Proof.
  destruct q as [its w res]. unfold consistent, dequeues, inflight, enqueue. simpl.
  intros [Hd Hw]. destruct w; simpl in *.
  - rewrite (Hw eq_refl). destruct res; simpl in *; [lia|]. repeat split; done || lia.
  - rewrite <- app_assoc. repeat split; done || lia.
Qed.

Lemma memory_dequeue_exact (q : Queue) :
  consistent q →
  dequeues q = 0 →
  inflight (dequeue q) = inflight q
  ∧ consistent (dequeue q)
  ∧ dequeues (dequeue q) = 1.
Proof.
  destruct q as [its w res]. unfold consistent, dequeues, inflight, dequeue. simpl.
  intros [Hd Hw] Hz. destruct w; [lia|]. destruct res; [lia|].
  destruct its as [|x its]; simpl; repeat split; done || lia.
Qed.

Lemma memory_awaited_exact (q : Queue) (item : JSON) :
  resolved q = Some item →
  consistent q →
  inflight q
  = item :: inflight {| items := items q; waiting := waiting q; resolved := None |}
  ∧ consistent {| items := items q; waiting := waiting q; resolved := None |}
  ∧ dequeues {| items := items q; waiting := waiting q; resolved := None |} = 0.
Proof.
  destruct q as [its w res]. unfold consistent, dequeues, inflight. simpl.
  intros -> [Hd Hw]. destruct w; simpl in *; [lia|]. repeat split; done || lia.
Qed.

Lemma memory_work_dequeue (q : Queue) :
  length (inflight (dequeue q)) ≤ length (inflight q).
Proof.
  destruct q as [its w res]. unfold inflight, dequeue. simpl.
  destruct its as [|x its]; simpl; [done|]. destruct res; simpl; lia.
Qed.

End MemoryQueueOrder.

(** ** queue.ts *)

Module QueueFacts.
Import Queue.

Lemma enqueued_app evs1 evs2 : enqueued (evs1 ++ evs2) = enqueued evs1 ++ enqueued evs2.
Proof. apply omap_app. Qed.

Lemma nonnull_app l1 l2 : nonnull (l1 ++ l2) = nonnull l1 ++ nonnull l2.
Proof. apply List.filter_app. Qed.

Lemma new_not_run queueType indexedDB rows q :
  new queueType indexedDB rows = Returned q →
  startDequeueLoop_run q = false ∧ loop q = NotStarted ∧ calls q = [].
Proof.
  unfold new. destruct (queueClasses _) as [c|]; [|discriminate].
  by intros [= <-].
Qed.

Lemma backend_inflight_enqueue_sub item b :
  backend_inflight (backend_enqueue item b) ⊆+ backend_inflight b ++ [item].
Proof.
  destruct b; [apply MemoryQueueFacts.memory_enqueue_sub
              |apply IndexeddbQueueFacts.inflight_enqueue_sub].
Qed.

Lemma backend_inflight_dequeue_sub b :
  backend_inflight (backend_dequeue b) ⊆+ backend_inflight b.
Proof.
  destruct b; [apply MemoryQueueFacts.memory_dequeue_sub
              |apply IndexeddbQueueFacts.inflight_dequeue_sub].
Qed.

Lemma backend_inflight_occurs_sub e b :
  backend_inflight (backend_occurs e b) ⊆+ backend_inflight b.
Proof. destruct b; [done | apply IndexeddbQueueFacts.inflight_occurs_sub]. Qed.

Lemma backend_inflight_awaited b :
  option_list (backend_resolved b) ++ backend_inflight (backend_awaited b)
  = backend_inflight b.
Proof.
  destruct b as [q|q]; [by destruct q | apply IndexeddbQueueFacts.inflight_awaited].
Qed.

Section Loop.
Context {H : Type} (config : DequeueLoopConfig H).

(** *** What the pieces of the loop touch *)

Lemma report_fields message error qh :
  let r := report config message error qh in
  queue r.1 = queue qh.1 ∧ calls r.1 = calls qh.1 ∧ loop r.1 = loop qh.1
  ∧ startDequeueLoop_run r.1 = startDequeueLoop_run qh.1
  ∧ reported r.1 = reported qh.1 ++ [(message, error)].
Proof. by destruct qh as [[] h]. Qed.

(** a turn of the loop either stops it or asks the backend for an item; it
    never enqueues and never invokes [onDequeue] *)
Lemma iteration_fields qh :
  let r := iteration config qh in
  calls r.1 = calls qh.1
  ∧ startDequeueLoop_run r.1 = startDequeueLoop_run qh.1
  ∧ reported qh.1 `prefix_of` reported r.1
  ∧ (loop r.1 = AwaitingDequeue ∧ queue r.1 = backend_dequeue (queue qh.1)
     ∧ reported r.1 = reported qh.1
     ∧ (∃ h, shouldDequeue config qh.2 = (Returned true, h) ∧ r.2 = h)
     ∨ loop r.1 = Terminated ∧ queue r.1 = queue qh.1
       ∧ ¬ (∃ h, shouldDequeue config qh.2 = (Returned true, h))).
Proof.
  destruct qh as [[b run l cs rs] h]. unfold iteration, terminate, report. simpl.
  destruct (shouldDequeue config h) as [[[|]|e] h']; simpl.
  - repeat split; try done. left. repeat split; try done. by exists h'.
  - repeat split; try done; [by apply prefix_app_r|].
    right. repeat split; try done. by intros [? [=]].
  - repeat split; try done; [by apply prefix_app_r|].
    right. repeat split; try done. by intros [? [=]].
Qed.

Lemma body_fields qh :
  let r := startDequeueLoop_body config qh in
  calls r.1 = calls qh.1
  ∧ startDequeueLoop_run r.1 = startDequeueLoop_run qh.1
  ∧ (loop r.1 = AwaitingDequeue ∧ queue r.1 = backend_dequeue (queue qh.1)
     ∨ loop r.1 = Terminated ∧ queue r.1 = queue qh.1).
Proof.
  unfold startDequeueLoop_body.
  destruct (initialize config qh.2) as [[[|]|e] h'].
  - destruct (iteration_fields (qh.1, h')) as (Hc & Hr & _ & Hcase).
    repeat split; try done.
    destruct Hcase as [(? & ? & _)|(? & ? & _)]; auto.
  - destruct qh as [[] h]; simpl; auto.
  - destruct qh as [[] h]; simpl; auto.
Qed.

Lemma process_fields item qh :
  let r := process config item qh in
  queue r.1 = queue qh.1 ∧ loop r.1 = loop qh.1
  ∧ startDequeueLoop_run r.1 = startDequeueLoop_run qh.1
  ∧ calls r.1 = calls qh.1 ++ nonnull [item].
Proof.
  destruct qh as [[b run l cs rs] h]. unfold process, report.
  destruct item; simpl; rewrite ?app_nil_r; try done;
    match goal with |- context [onDequeue config ?i h] =>
      destruct (onDequeue config i h) as [[[]|e] h'] end; done.
Qed.

(** *** The wrapper *)

Lemma run_flag_step qh ev :
  startDequeueLoop_run qh.1 = true → startDequeueLoop_run (step config qh ev).1 = true.
Proof.
  intros Hrun. destruct ev as [item| | |e]; simpl.
  - by destruct qh as [[] h].
  - unfold startDequeueLoop, Util.once. rewrite Hrun. simpl. by destruct qh as [[] h].
  - unfold resume. destruct (loop qh.1); try done.
    destruct (backend_resolved (queue qh.1)) as [item|]; [|done].
    destruct (iteration_fields
                (process config item (set_queue (backend_awaited (queue qh.1)) qh.1, qh.2)))
      as (_ & -> & _).
    destruct (process_fields item (set_queue (backend_awaited (queue qh.1)) qh.1, qh.2))
      as (_ & _ & -> & _).
    by destruct qh as [[] h].
  - by destruct qh as [[] h].
Qed.

Lemma run_flag_run evs : ∀ qh,
  startDequeueLoop_run qh.1 = true → startDequeueLoop_run (run config evs qh).1 = true.
Proof.
  induction evs as [|ev evs IH]; intros qh Hrun; [done|].
  simpl. apply IH. by apply run_flag_step.
Qed.

End Loop.

End QueueFacts.

(** *** No item is handed to [onDequeue] twice *)

Module QueueDelivery.
Import Queue QueueFacts.

Lemma nonnull_sub (l : list JSON) : nonnull l ⊆+ l.
Proof.
  induction l as [|x l IH]; simpl; [done|].
  destruct (negb (is_null x)); [by apply submseteq_skip | by apply submseteq_cons].
Qed.

Lemma nonnull_single (item : JSON) : item ≠ JNull → nonnull [item] = [item].
Proof. by destruct item. Qed.

Section Loop.
Context {H : Type} (config : DequeueLoopConfig H).

(** the loop resumed with an item *)
Lemma resume_with qh item :
  loop qh.1 = AwaitingDequeue →
  backend_resolved (queue qh.1) = Some item →
  resume config qh
  = iteration config
      (process config item (set_queue (backend_awaited (queue qh.1)) qh.1, qh.2)).
Proof. intros Hl Hr. unfold resume. by rewrite Hl, Hr. Qed.

Lemma resume_idle qh :
  loop qh.1 ≠ AwaitingDequeue ∨ backend_resolved (queue qh.1) = None →
  resume config qh = qh.
Proof.
  unfold resume. intros [Hl| ->]; destruct (loop qh.1); done.
Qed.

Lemma resume_sub qh :
  calls (resume config qh).1 ++ backend_inflight (queue (resume config qh).1)
  ⊆+ calls qh.1 ++ backend_inflight (queue qh.1).
Proof.
  destruct (loop qh.1) eqn:Hl; try (rewrite resume_idle; [done|left; congruence]).
  destruct (backend_resolved (queue qh.1)) as [item|] eqn:Hr;
    [|rewrite resume_idle; [done|by right]].
  rewrite (resume_with qh item Hl Hr).
  set (q1 := set_queue (backend_awaited (queue qh.1)) qh.1).
  destruct (process_fields config item (q1, qh.2)) as (Hq & _ & _ & Hc).
  destruct (iteration_fields config (process config item (q1, qh.2)))
    as (Hc' & _ & _ & Hcase).
  rewrite Hc', Hc.
  assert (Hb : backend_inflight (queue (iteration config (process config item (q1, qh.2))).1)
               ⊆+ backend_inflight (backend_awaited (queue qh.1))).
  { destruct Hcase as [(_ & -> & _)|(_ & -> & _)]; rewrite Hq.
    - etrans; [apply backend_inflight_dequeue_sub|]. by destruct qh as [[] h].
    - by destruct qh as [[] h]. }
  rewrite <- (backend_inflight_awaited (queue qh.1)), Hr. simpl.
  replace (calls (q1, qh.2).1) with (calls qh.1) by by destruct qh as [[] h].
  rewrite <- app_assoc. apply submseteq_skips_l.
  change (item :: backend_inflight (backend_awaited (queue qh.1)))
    with ([item] ++ backend_inflight (backend_awaited (queue qh.1))).
  apply submseteq_app; [apply (nonnull_sub [item]) | exact Hb].
Qed.

(** what [onDequeue] has been invoked with and what the backend holds comes
    from what was there before and what the event enqueues *)
Lemma step_sub qh ev :
  calls (step config qh ev).1 ++ backend_inflight (queue (step config qh ev).1)
  ⊆+ (calls qh.1 ++ backend_inflight (queue qh.1)) ++ enqueued [ev].
Proof.
  destruct ev as [item| | |e]; simpl; rewrite ?app_nil_r.
  - replace (calls (enqueue item qh.1)) with (calls qh.1) by by destruct qh as [[] h].
    replace (queue (enqueue item qh.1)) with (backend_enqueue item (queue qh.1))
      by by destruct qh as [[] h].
    rewrite <- app_assoc. apply submseteq_skips_l, backend_inflight_enqueue_sub.
  - unfold startDequeueLoop, Util.once.
    destruct (startDequeueLoop_run qh.1) eqn:Hrun; simpl.
    + by destruct qh as [[] h].
    + destruct (body_fields config (set_startDequeueLoop_run true qh.1, qh.2))
        as (-> & _ & Hcase).
      replace (calls (set_startDequeueLoop_run true qh.1, qh.2).1) with (calls qh.1)
        by by destruct qh as [[] h].
      apply submseteq_skips_l.
      destruct Hcase as [[_ ->]|[_ ->]].
      * etrans; [apply backend_inflight_dequeue_sub|]. by destruct qh as [[] h].
      * by destruct qh as [[] h].
  - apply resume_sub.
  - replace (calls (set_queue (backend_occurs e (queue qh.1)) qh.1)) with (calls qh.1)
      by by destruct qh as [[] h].
    replace (queue (set_queue (backend_occurs e (queue qh.1)) qh.1))
      with (backend_occurs e (queue qh.1)) by by destruct qh as [[] h].
    apply submseteq_skips_l, backend_inflight_occurs_sub.
Qed.

Lemma run_sub evs : ∀ qh,
  calls (run config evs qh).1 ++ backend_inflight (queue (run config evs qh).1)
  ⊆+ (calls qh.1 ++ backend_inflight (queue qh.1)) ++ enqueued evs.
Proof.
  induction evs as [|ev evs IH]; intros qh.
  - simpl. by rewrite app_nil_r.
  - change (run config (ev :: evs) qh) with (run config evs (step config qh ev)).
    etrans; [apply IH|].
    change (enqueued (ev :: evs)) with (enqueued ([ev] ++ evs)).
    rewrite enqueued_app, app_assoc.
    apply submseteq_skips_r, step_sub.
Qed.

End Loop.

(** C4: when [onDequeue] throws on a dequeued non-null item, the loop
    catches the fault, calls [onError] with it and goes on with the next
    turn (it consults [shouldDequeue] and, allowed, asks the backend for the
    next item). The item is gone from the backend and the loop enqueues
    nothing; with the persistent backend, whatever happens afterwards,
    [onDequeue] is invoked only with what the backend still holds and what
    producers enqueue later, once each. *)
Theorem onDequeue_fault_drops_item {H : Type} (config : DequeueLoopConfig H)
    (q : Queue) (b : IndexeddbQueue.Queue) (h h1 : H) (item : JSON) (error : exn) :
  queue q = Persistent b →
  loop q = AwaitingDequeue →
  backend_resolved (queue q) = Some item →
  item ≠ JNull →
  onDequeue config item h = (Thrown error, h1) →
  let message := "QUEUE ERROR: Unable to process item" in
  let caught :=
    report config message error
      (set_calls (calls q ++ [item]) (set_queue (backend_awaited (queue q)) q), h1) in
  let after := resume config (q, h) in
  after = iteration config caught
  ∧ reported caught.1 = reported q ++ [(message, error)]
  ∧ caught.2 = onError config message error h1
  ∧ reported caught.1 `prefix_of` reported after.1
  ∧ calls after.1 = calls q ++ [item]
  ∧ (∀ h2, shouldDequeue config caught.2 = (Returned true, h2) →
       loop after.1 = AwaitingDequeue
       ∧ queue after.1 = backend_dequeue (backend_awaited (queue q)))
  ∧ [item] ++ backend_inflight (queue after.1) ⊆+ backend_inflight (queue q)
  ∧ (∀ evs,
       calls (run config evs after).1
       ⊆+ (calls q ++ [item]) ++ backend_inflight (queue after.1) ++ enqueued evs).
Proof.
  intros Hb Hl Hr Hnn Hthrow message caught after.
  assert (Hafter : after = iteration config caught).
  { unfold after. rewrite (resume_with config (q, h) item Hl Hr). f_equal.
    unfold process, caught. simpl. destruct item; try done; by rewrite Hthrow. }
  destruct (iteration_fields config caught) as (Hc & _ & Hpre & Hcase).
  rewrite <- Hafter in Hc, Hpre, Hcase.
  assert (Hcalls : calls after.1 = calls q ++ [item]).
  { rewrite Hc. by destruct q. }
  assert (Hqueue : queue caught.1 = backend_awaited (queue q)) by by destruct q.
  repeat split; try done.
  - destruct Hcase as [(? & _)|(_ & _ & Hno)]; [done|].
    destruct Hno. by exists h2.
  - destruct Hcase as [(_ & Hq & _)|(_ & _ & Hno)]; [by rewrite Hq, Hqueue|].
    destruct Hno. by exists h2.
  - rewrite <- (backend_inflight_awaited (queue q)), Hr. simpl.
    apply submseteq_skip.
    destruct Hcase as [(_ & -> & _)|(_ & -> & _)]; rewrite Hqueue; [|done].
    apply backend_inflight_dequeue_sub.
  - intros evs. rewrite <- Hcalls, app_assoc.
    etrans; [|apply (run_sub config evs after)].
    apply submseteq_inserts_r. done.
Qed.

Lemma onDequeue_fault_drops_item_witness :
  let qh := run failingConfig bringsOne (emptyPersistent, 0) in
  loop qh.1 = AwaitingDequeue
  ∧ backend_resolved (queue qh.1) = Some (JNum 1)
  ∧ calls (resume failingConfig qh).1 = [JNum 1]
  ∧ (resume failingConfig qh).2 = 1
  ∧ loop (resume failingConfig qh).1 = AwaitingDequeue.
Proof.
  intros qh.
  assert (Hqh : qh = (qh.1, 0)) by reflexivity.
  pose proof (onDequeue_fault_drops_item failingConfig qh.1 _ 0 0 (JNum 1)
                (ErrorExn "handler failed") eq_refl eq_refl eq_refl
                ltac:(discriminate) eq_refl) as (_ & _ & _ & _ & Hcalls & Hnext & _).
  rewrite <- Hqh in Hcalls, Hnext.
  split; [reflexivity|]. split; [reflexivity|]. split; [exact Hcalls|].
  split; [reflexivity|]. exact (proj1 (Hnext 1 eq_refl)).
Defined.

End QueueDelivery.

(** *** Items are delivered in the order they were enqueued *)

Module QueueOrder.
Import Queue QueueFacts QueueDelivery.

Lemma run_app {H} (config : DequeueLoopConfig H) evs1 evs2 qh :
  run config (evs1 ++ evs2) qh = run config evs2 (run config evs1 qh).
Proof. apply foldl_app. Qed.

Lemma race_free_app {H} (config : DequeueLoopConfig H) evs1 : ∀ evs2 qh,
  race_free config (evs1 ++ evs2) qh
  = race_free config evs1 qh && race_free config evs2 (run config evs1 qh).
Proof.
  induction evs1 as [|ev evs1 IH]; intros evs2 qh; [done|].
  simpl. rewrite IH. by rewrite andb_assoc.
Qed.

Lemma nonnull_cons item l : nonnull (item :: l) = nonnull [item] ++ nonnull l.
Proof. apply (nonnull_app [item] l). Qed.

(** **** The two backends, alike *)

Lemma backend_enqueue_exact item b :
  backend_consistent b →
  backend_inflight (backend_enqueue item b) = backend_inflight b ++ [item]
  ∧ backend_consistent (backend_enqueue item b)
  ∧ backend_dequeues (backend_enqueue item b) = backend_dequeues b.
Proof.
  destruct b; [apply MemoryQueueOrder.memory_enqueue_exact
              |apply IndexeddbQueueOrder.enqueue_exact].
Qed.

Lemma backend_dequeue_exact b :
  backend_consistent b →
  backend_dequeues b = 0 →
  backend_inflight (backend_dequeue b) = backend_inflight b
  ∧ backend_consistent (backend_dequeue b)
  ∧ backend_dequeues (backend_dequeue b) = 1.
Proof.
  destruct b; [apply MemoryQueueOrder.memory_dequeue_exact
              |apply IndexeddbQueueOrder.dequeue_exact].
Qed.

Lemma backend_awaited_exact b item :
  backend_resolved b = Some item →
  backend_consistent b →
  backend_inflight b = item :: backend_inflight (backend_awaited b)
  ∧ backend_consistent (backend_awaited b)
  ∧ backend_dequeues (backend_awaited b) = 0.
Proof.
  destruct b; [apply MemoryQueueOrder.memory_awaited_exact
              |apply IndexeddbQueueOrder.awaited_exact].
Qed.

Lemma backend_occurs_exact e b :
  backend_consistent b →
  (∀ q, b = Persistent q → e = IndexeddbQueue.ProcessOperation →
        IndexeddbQueue.racy q = false) →
  backend_inflight (backend_occurs e b) = backend_inflight b
  ∧ backend_consistent (backend_occurs e b)
  ∧ backend_dequeues (backend_occurs e b) = backend_dequeues b.
Proof.
  destruct b as [q|q]; [done|]. intros Hc Hrace.
  apply IndexeddbQueueOrder.occurs_exact; [done|]. intros He. by apply Hrace.
Qed.

Section Loop.
Context {H : Type} (config : DequeueLoopConfig H).
Hypothesis Halive : alive config.

Lemma iteration_alive qh :
  let r := iteration config qh in
  calls r.1 = calls qh.1
  ∧ startDequeueLoop_run r.1 = startDequeueLoop_run qh.1
  ∧ loop r.1 = AwaitingDequeue
  ∧ queue r.1 = backend_dequeue (queue qh.1).
Proof.
  destruct (iteration_fields config qh) as (Hc & Hr & _ & Hcase).
  destruct Hcase as [(Hl & Hq & _)|(_ & _ & Hno)]; [done|].
  destruct Hno. apply Halive.
Qed.

Lemma fifo_enqueue all item q : fifo all q → fifo (all ++ [item]) (enqueue item q).
Proof.
  intros (Heq & Hc & Hd & Hl & Hs).
  destruct (backend_enqueue_exact item (queue q) Hc) as (Hi & Hc' & Hd').
  destruct q as [b run l cs rs]. unfold fifo in *. simpl in *.
  rewrite Hi, !nonnull_app, app_assoc, Heq. rewrite Hd'. done.
Qed.

Lemma body_alive qh :
  let r := startDequeueLoop_body config qh in
  calls r.1 = calls qh.1
  ∧ startDequeueLoop_run r.1 = startDequeueLoop_run qh.1
  ∧ loop r.1 = AwaitingDequeue
  ∧ queue r.1 = backend_dequeue (queue qh.1).
Proof.
  unfold startDequeueLoop_body.
  destruct (proj1 Halive qh.2) as [h' ->]. apply (iteration_alive (qh.1, h')).
Qed.

Lemma fifo_start all qh : fifo all qh.1 → fifo all (startDequeueLoop config qh).2.1.
Proof.
  intros (Heq & Hc & Hd & Hl & Hs).
  unfold startDequeueLoop, Util.once.
  destruct (startDequeueLoop_run qh.1) eqn:Hrun; simpl.
  - destruct qh as [[b run l cs rs] h]. simpl in *. by subst run.
  - destruct (body_alive (set_startDequeueLoop_run true qh.1, qh.2))
      as (Hcalls & Hflag & Hloop & Hqueue).
    assert (Hnot : loop qh.1 = NotStarted) by by apply Hs.
    rewrite Hnot in Hd.
    destruct (backend_dequeue_exact (queue qh.1) Hc Hd) as (Hi & Hc' & Hd').
    unfold fifo. rewrite Hcalls, Hflag, Hloop, Hqueue.
    destruct qh as [[b run l cs rs] h]. simpl in *. rewrite Hi.
    repeat split; try done.
Qed.

Lemma fifo_resume all qh : fifo all qh.1 → fifo all (resume config qh).1.
Proof.
  intros Hfifo.
  destruct (loop qh.1) eqn:Hl; try (rewrite resume_idle; [done|left; congruence]).
  destruct (backend_resolved (queue qh.1)) as [item|] eqn:Hr;
    [|rewrite resume_idle; [done|by right]].
  rewrite (resume_with config qh item Hl Hr).
  destruct Hfifo as (Heq & Hc & Hd & _ & Hs).
  destruct (backend_awaited_exact (queue qh.1) item Hr Hc) as (Hi & Hc1 & Hd1).
  destruct (backend_dequeue_exact _ Hc1 Hd1) as (Hi2 & Hc2 & Hd2).
  set (q1 := set_queue (backend_awaited (queue qh.1)) qh.1).
  destruct (process_fields config item (q1, qh.2)) as (Hq & _ & Hrun & Hcalls).
  destruct (iteration_alive (process config item (q1, qh.2)))
    as (Hcalls' & Hrun' & Hloop' & Hqueue').
  unfold fifo. rewrite Hcalls', Hcalls, Hrun', Hrun, Hloop', Hqueue', Hq.
  replace (queue (q1, qh.2).1) with (backend_awaited (queue qh.1))
    by by destruct qh as [[] h].
  replace (calls (q1, qh.2).1) with (calls qh.1) by by destruct qh as [[] h].
  replace (startDequeueLoop_run (q1, qh.2).1) with (startDequeueLoop_run qh.1)
    by by destruct qh as [[] h].
  rewrite Hi2. rewrite Hi, nonnull_cons, app_assoc in Heq.
  repeat split; try done.
  intros Hf. apply Hs in Hf. congruence.
Qed.

Lemma fifo_backend all e q :
  fifo all q →
  racy_event q (BackendEvent e) = false →
  fifo all (set_queue (backend_occurs e (queue q)) q).
Proof.
  intros (Heq & Hc & Hd & Hl & Hs) Hrace.
  assert (Hr : ∀ b, queue q = Persistent b → e = IndexeddbQueue.ProcessOperation →
                    IndexeddbQueue.racy b = false).
  { intros b Hb ->. unfold racy_event in Hrace. by rewrite Hb in Hrace. }
  destruct (backend_occurs_exact e (queue q) Hc Hr) as (Hi & Hc' & Hd').
  destruct q as [b run l cs rs]. unfold fifo in *. simpl in *.
  by rewrite Hi, Hd'.
Qed.

Lemma fifo_step all qh ev :
  fifo all qh.1 →
  racy_event qh.1 ev = false →
  fifo (all ++ enqueued [ev]) (step config qh ev).1.
Proof.
  intros Hfifo Hrace. destruct ev as [item| | |e]; simpl; rewrite ?app_nil_r.
  - by apply fifo_enqueue.
  - by apply fifo_start.
  - by apply fifo_resume.
  - by apply fifo_backend.
Qed.

Lemma fifo_run evs : ∀ all qh,
  fifo all qh.1 →
  race_free config evs qh = true →
  fifo (all ++ enqueued evs) (run config evs qh).1.
Proof.
  induction evs as [|ev evs IH]; intros all qh Hfifo Hfree.
  - simpl. by rewrite app_nil_r.
  - simpl in Hfree. apply andb_true_iff in Hfree as [Hev Hfree].
    apply negb_true_iff in Hev.
    change (run config (ev :: evs) qh) with (run config evs (step config qh ev)).
    change (enqueued (ev :: evs)) with (enqueued ([ev] ++ evs)).
    rewrite enqueued_app, app_assoc. apply IH; [|done]. by apply fifo_step.
Qed.

(** **** Coming to rest *)

Lemma backend_work_dequeue b : backend_work (backend_dequeue b) ≤ backend_work b + 2.
Proof.
  destruct b as [q|q]; simpl.
  - pose proof (MemoryQueueOrder.memory_work_dequeue q). lia.
  - apply IndexeddbQueueOrder.work_dequeue.
Qed.

Lemma backend_work_awaited b item :
  backend_resolved b = Some item →
  backend_work (backend_awaited b) + 3 = backend_work b.
Proof.
  destruct b as [q|q]; simpl.
  - destruct q as [its w res]. unfold MemoryQueue.inflight. simpl. intros ->.
    simpl. lia.
  - apply IndexeddbQueueOrder.work_awaited.
Qed.

Lemma work_step qh ev :
  next_event qh.1 = Some ev →
  backend_work (queue (step config qh ev).1) < backend_work (queue qh.1).
Proof.
  unfold next_event.
  destruct (loop qh.1) eqn:Hl;
    destruct (backend_resolved (queue qh.1)) as [item|] eqn:Hr;
    try (destruct (queue qh.1) as [m|b] eqn:Hb; [done|];
         destruct (IndexeddbQueue.requests b) as [|r rest] eqn:Hreq;
         [destruct (IndexeddbQueue.next_operation b) as [op|] eqn:Hop; [|done]|];
         intros [= <-]; simpl; destruct qh as [[] h]; simpl in *; subst; simpl;
         [by eapply IndexeddbQueueOrder.work_process
         |apply IndexeddbQueueOrder.work_request; by rewrite Hreq]).
  intros [= <-]. simpl. rewrite (resume_with config qh item Hl Hr).
  set (q1 := set_queue (backend_awaited (queue qh.1)) qh.1).
  destruct (process_fields config item (q1, qh.2)) as (Hq & _).
  destruct (iteration_fields config (process config item (q1, qh.2)))
    as (_ & _ & _ & Hcase).
  pose proof (backend_work_awaited (queue qh.1) item Hr) as Hw.
  pose proof (backend_work_dequeue (backend_awaited (queue qh.1))) as Hw'.
  assert (Hq1 : queue (q1, qh.2).1 = backend_awaited (queue qh.1))
    by by destruct qh as [[] h].
  destruct Hcase as [(_ & -> & _)|(_ & -> & _)]; rewrite Hq, Hq1; lia.
Qed.

Lemma completion_rests fuel : ∀ qh,
  backend_work (queue qh.1) ≤ fuel →
  next_event (run config (completion config fuel qh) qh).1 = None.
Proof.
  induction fuel as [|fuel IH]; intros qh Hw; simpl.
  - destruct (next_event qh.1) as [ev|] eqn:Hev; [|done].
    pose proof (work_step qh ev Hev). lia.
  - destruct (next_event qh.1) as [ev|] eqn:Hev; [|done].
    change (run config (ev :: completion config fuel (step config qh ev)) qh)
      with (run config (completion config fuel (step config qh ev)) (step config qh ev)).
    apply IH. pose proof (work_step qh ev Hev). lia.
Qed.

Lemma next_event_not_racy q ev : next_event q = Some ev → racy_event q ev = false.
Proof.
  unfold next_event, racy_event.
  destruct (loop q); destruct (backend_resolved (queue q));
    try (by intros [= <-]);
    (destruct (queue q) as [m|b]; [done|];
     destruct (IndexeddbQueue.requests b) as [|r rest] eqn:Hreq;
     [destruct (IndexeddbQueue.next_operation b) as [op|] eqn:Hop; [|done]|];
     intros [= <-]; [|done];
     unfold IndexeddbQueue.racy; rewrite Hop, Hreq; destruct op; [|done];
     simpl; apply andb_false_r).
Qed.

Lemma completion_race_free fuel : ∀ qh,
  race_free config (completion config fuel qh) qh = true.
Proof.
  induction fuel as [|fuel IH]; intros qh; simpl; [done|].
  destruct (next_event qh.1) as [ev|] eqn:Hev; [|done].
  simpl. by rewrite (next_event_not_racy _ _ Hev), IH.
Qed.

Lemma next_event_internal q ev : next_event q = Some ev → enqueued [ev] = [].
Proof.
  unfold next_event.
  destruct (loop q); destruct (backend_resolved (queue q));
    try (by intros [= <-]);
    (destruct (queue q) as [m|b]; [done|];
     destruct (IndexeddbQueue.requests b);
     [destruct (IndexeddbQueue.next_operation b); [|done]|]; by intros [= <-]).
Qed.

Lemma completion_enqueues_nothing fuel : ∀ qh,
  enqueued (completion config fuel qh) = [].
Proof.
  induction fuel as [|fuel IH]; intros qh; simpl; [done|].
  destruct (next_event qh.1) as [ev|] eqn:Hev; [|done].
  change (enqueued (ev :: completion config fuel (step config qh ev)))
    with (enqueued ([ev] ++ completion config fuel (step config qh ev))).
  by rewrite enqueued_app, (next_event_internal _ _ Hev), IH.
Qed.

(** a consistent queue at rest, with its loop waiting and its database
    open, holds nothing: every non-null item has been handed to
    [onDequeue] *)
Lemma rest_delivers all q :
  fifo all q →
  loop q = AwaitingDequeue →
  opened (queue q) = true →
  next_event q = None →
  calls q = nonnull all.
Proof.
  intros (Heq & Hc & Hd & _) Hl Hopen Hrest.
  assert (Hnone : backend_inflight (queue q) = []); [|by rewrite Hnone, app_nil_r in Heq].
  unfold next_event in Hrest. rewrite Hl in *.
  destruct (queue q) as [m|b]; simpl in *.
  - destruct m as [its w res]. unfold MemoryQueue.consistent, MemoryQueue.dequeues,
      MemoryQueue.inflight in *. simpl in *. destruct res; [done|].
    destruct w; [|simpl in Hd; lia]. by rewrite (proj2 Hc eq_refl).
  - destruct b as [db ops parked yld nip res rows reqs cnt].
    unfold IndexeddbQueue.consistent, IndexeddbQueue.dequeues, IndexeddbQueue.inflight,
      IndexeddbQueue.operations, IndexeddbQueue.next_operation in *. simpl in *.
    subst db. simpl in *. destruct res; [done|]. destruct reqs; [|done].
    destruct yld; [done|]. simpl in *.
    destruct Hc as (_ & _ & Hnip & Hp).
    assert (Hops : ops = []).
    { destruct parked; [by apply Hp|]. by destruct ops. }
    subst ops. simpl in *. destruct nip; [|lia]. by destruct (Hnip eq_refl) as [-> _].
Qed.

Lemma start_sets_flag qh :
  startDequeueLoop_run (step config qh StartDequeueLoop).1 = true.
Proof.
  simpl. unfold startDequeueLoop, Util.once.
  destruct (startDequeueLoop_run qh.1) eqn:Hrun; simpl.
  - by destruct qh as [[] h].
  - destruct (body_fields config (set_startDequeueLoop_run true qh.1, qh.2))
      as (_ & -> & _). by destruct qh as [[] h].
Qed.

Lemma started_run evs : ∀ qh,
  StartDequeueLoop ∈ evs → startDequeueLoop_run (run config evs qh).1 = true.
Proof.
  induction evs as [|ev evs IH]; intros qh Hin; [by apply elem_of_nil in Hin|].
  change (run config (ev :: evs) qh) with (run config evs (step config qh ev)).
  apply elem_of_cons in Hin as [<-|Hin]; [|by apply IH].
  apply run_flag_run, start_sets_flag.
Qed.

Lemma fifo_new queueType indexedDB rows q :
  new queueType indexedDB rows = Returned q → fifo (backend_inflight (queue q)) q.
Proof.
  unfold new. destruct (queueClasses _) as [[|]|]; [| |discriminate];
    intros [= <-]; unfold fifo; simpl.
  - unfold MemoryQueue.consistent, MemoryQueue.dequeues. simpl.
    repeat split; try done; lia.
  - unfold IndexeddbQueue.inflight, IndexeddbQueue.consistent,
      IndexeddbQueue.dequeues. simpl. rewrite app_nil_r.
    repeat split; try done; lia.
Qed.

Lemma opened_enqueue item b : opened (backend_enqueue item b) = opened b.
Proof.
  destruct b as [m|b]; [done|]. destruct b. unfold IndexeddbQueue.enqueue,
    IndexeddbQueue.addItemToDBOperationQueue. simpl.
  by destruct nextDBOperationPromise.
Qed.

Lemma opened_dequeue b : opened (backend_dequeue b) = opened b.
Proof.
  destruct b as [m|b]; [done|]. destruct b. unfold IndexeddbQueue.dequeue,
    IndexeddbQueue.addItemToDBOperationQueue. simpl.
  by destruct nextDBOperationPromise.
Qed.

Lemma opened_awaited b : opened (backend_awaited b) = opened b.
Proof. destruct b as [m|b]; [done|]. by destruct b. Qed.

Lemma opened_occurs e b : opened b = true → opened (backend_occurs e b) = true.
Proof.
  destruct b as [m|b]; [done|]. destruct b as [db ops parked yld nip res rows reqs cnt].
  simpl. intros ->. destruct e; simpl; [done| |].
  - unfold IndexeddbQueue.processOperation, IndexeddbQueue.dbOperationDispatch,
      IndexeddbQueue.addItemToDB, IndexeddbQueue.nextItemFromDB. simpl.
    destruct yld as [[p|]|]; simpl; [by destruct nip|done|].
    destruct parked; [done|]. destruct ops as [|[p|] rest]; simpl; [done| |done].
    by destruct nip.
  - unfold IndexeddbQueue.requestSucceeds. simpl.
    destruct reqs as [|[p|] rest]; simpl; [done|done|]. by destruct rows.
Qed.

Lemma opened_step qh ev :
  opened (queue qh.1) = true → opened (queue (step config qh ev).1) = true.
Proof.
  intros Hopen. destruct ev as [item| | |e]; simpl.
  - replace (queue (enqueue item qh.1)) with (backend_enqueue item (queue qh.1))
      by by destruct qh as [[] h].
    by rewrite opened_enqueue.
  - unfold startDequeueLoop, Util.once.
    destruct (startDequeueLoop_run qh.1); simpl; [by destruct qh as [[] h]|].
    destruct (body_fields config (set_startDequeueLoop_run true qh.1, qh.2))
      as (_ & _ & [[_ ->]|[_ ->]]); rewrite ?opened_dequeue; by destruct qh as [[] h].
  - destruct (loop qh.1) eqn:Hl; try (rewrite resume_idle; [done|left; congruence]).
    destruct (backend_resolved (queue qh.1)) as [item|] eqn:Hr;
      [|rewrite resume_idle; [done|by right]].
    rewrite (resume_with config qh item Hl Hr).
    set (q1 := set_queue (backend_awaited (queue qh.1)) qh.1).
    destruct (process_fields config item (q1, qh.2)) as (Hq & _).
    destruct (iteration_fields config (process config item (q1, qh.2)))
      as (_ & _ & _ & [(_ & -> & _)|(_ & -> & _)]);
      rewrite Hq, ?opened_dequeue; unfold q1; destruct qh as [[] h]; simpl in *;
      by rewrite opened_awaited.
  - replace (queue (set_queue (backend_occurs e (queue qh.1)) qh.1))
      with (backend_occurs e (queue qh.1)) by by destruct qh as [[] h].
    by apply opened_occurs.
Qed.

Lemma opened_run evs : ∀ qh,
  opened (queue qh.1) = true → opened (queue (run config evs qh).1) = true.
Proof.
  induction evs as [|ev evs IH]; intros qh Hopen; [done|].
  change (run config (ev :: evs) qh) with (run config evs (step config qh ev)).
  by apply IH, opened_step.
Qed.

End Loop.

(** C1, as the code has it. A queue is made by [new Queue]; its loop is
    kept alive by its callbacks; events happen in any order that never has
    [startProcessing] send an item to [objectStore.add] while a cursor
    request is in flight. Then at every moment the items [onDequeue] has
    been invoked with are, in order, a prefix of the non-null items that
    were in the store at first or passed to [enqueue] since, whether before
    or after the loop started; and once the loop has been started and the
    database is open, letting the event loop come to rest delivers all of
    them, for either backend. *)
Theorem dequeue_order {H : Type} (config : DequeueLoopConfig H)
    (queueType : string) (indexedDB : bool) (rows : list JSON)
    (q : Queue) (h : H) (evs : list event) :
  alive config →
  new queueType indexedDB rows = Returned q →
  race_free config evs (q, h) = true →
  let all := nonnull (backend_inflight (queue q) ++ enqueued evs) in
  let now := run config evs (q, h) in
  calls now.1 `prefix_of` all
  ∧ (StartDequeueLoop ∈ evs →
     opened (queue now.1) = true →
     enqueued (settle config now) = []
     ∧ race_free config (evs ++ settle config now) (q, h) = true
     ∧ calls (run config (evs ++ settle config now) (q, h)).1 = all).
Proof.
  intros Halive Hnew Hfree all now.
  pose proof (fifo_run config Halive evs _ (q, h) (fifo_new _ _ _ _ Hnew) Hfree)
    as Hnow.
  fold now in Hnow. split.
  - destruct Hnow as (Heq & _). unfold all. rewrite <- Heq. by apply prefix_app_r.
  - intros Hstart Hopen.
    pose proof (completion_enqueues_nothing config (backend_work (queue now.1)) now)
      as Hnone.
    pose proof (completion_race_free config (backend_work (queue now.1)) now) as Hfree'.
    fold (settle config now) in Hnone, Hfree'.
    split; [done|]. split; [by rewrite race_free_app, Hfree|].
    rewrite run_app. fold now.
    pose proof (fifo_run config Halive (settle config now) _ now Hnow Hfree') as Hend.
    rewrite Hnone, app_nil_r in Hend.
    eapply rest_delivers; [exact Hend| | |].
    + destruct Hend as (_ & _ & _ & Hterm & Hs).
      assert (Hflag : startDequeueLoop_run (run config (settle config now) now).1 = true).
      { apply run_flag_run. by apply started_run. }
      destruct (loop (run config (settle config now) now).1); try done.
      destruct Hs as [Hs _]. rewrite Hs in Hflag; done.
    + by apply opened_run.
    + by apply completion_rests.
Qed.

Lemma acceptingConfig_alive : alive acceptingConfig.
Proof. split; intros h; by exists h. Qed.

Lemma dequeue_order_witness :
  let now := run acceptingConfig enqueuesNull (emptyPersistent, tt) in
  new PERSISTENT true [] = Returned emptyPersistent
  ∧ race_free acceptingConfig enqueuesNull (emptyPersistent, tt) = true
  ∧ calls (run acceptingConfig (enqueuesNull ++ settle acceptingConfig now)
             (emptyPersistent, tt)).1
    = [JNum 1; JNum 2].
Proof.
  intros now.
  assert (Hstart : StartDequeueLoop ∈ enqueuesNull).
  { unfold enqueuesNull. rewrite !elem_of_cons. auto 10. }
  pose proof (proj2 (dequeue_order acceptingConfig PERSISTENT true [] emptyPersistent tt
                       enqueuesNull acceptingConfig_alive eq_refl eq_refl)
                Hstart eq_refl) as (_ & _ & Hcalls).
  split; [reflexivity|]. split; [reflexivity|]. exact Hcalls.
Defined.

(** C1 as it is worded fails: the loop does not hand a [null] item to
    [onDequeue]. With 1, [null] and 2 enqueued on the persistent backend
    and the event loop left to come to rest along a race-free schedule,
    [onDequeue] has been invoked with 1 and 2 only. *)
Lemma null_item_is_skipped :
  let now := run acceptingConfig enqueuesNull (emptyPersistent, tt) in
  let final := run acceptingConfig (settle acceptingConfig now) now in
  race_free acceptingConfig (enqueuesNull ++ settle acceptingConfig now)
    (emptyPersistent, tt) = true
  ∧ next_event final.1 = None
  ∧ backend_inflight (queue final.1) = []
  ∧ enqueued (enqueuesNull ++ settle acceptingConfig now) = [JNum 1; JNull; JNum 2]
  ∧ calls final.1 = [JNum 1; JNum 2]
  ∧ calls final.1 ≠ enqueued (enqueuesNull ++ settle acceptingConfig now).
Proof. vm_compute. repeat split; discriminate. Qed.

(** What the [race_free] hypothesis keeps out: an item dispatched to
    the store while the cursor of a dequeue is in flight is written behind
    the back of that dequeue, which parks on a store it believes empty; the
    next item enqueued is then delivered first. *)
Lemma enqueue_during_read_reorders :
  let now := run acceptingConfig enqueuesDuringRead (emptyPersistent, tt) in
  let final := run acceptingConfig (settle acceptingConfig now) now in
  race_free acceptingConfig enqueuesDuringRead (emptyPersistent, tt) = false
  ∧ next_event final.1 = None
  ∧ enqueued enqueuesDuringRead = [JNum 1; JNum 2]
  ∧ calls final.1 = [JNum 2; JNum 1].
Proof. vm_compute. repeat split. Qed.

End QueueOrder.

(** ** queue.ts: starting the loop, once *)

Module QueueStart.
Import Queue QueueFacts QueueOrder.

Section Loop.
Context {H : Type} (config : DequeueLoopConfig H).




End Loop.



End QueueStart.
(** ** loEvent.ts *)

Module LoEventFacts.
Import LoEvent.

Lemma firstThrown_fulfils hooks : Forall (λ h, h = Fulfils) hooks → firstThrown hooks = None.
Proof. induction 1 as [|h hooks -> _ IH]; [done|]. exact IH. Qed.

Lemma firstRejected_fulfils hooks :
  Forall (λ h, h = Fulfils) hooks → firstRejected hooks = None.
Proof. induction 1 as [|h hooks -> _ IH]; [done|]. exact IH. Qed.

Lemma setField_hooks_fulfil loggers payload :
  setField_returns loggers →
  Forall (λ h, h = Fulfils) ((λ f : JSON → hook, f payload) <$> omap setField loggers).
Proof.
  intros Hret. apply Forall_fmap, Forall_forall. intros f Hf.
  apply list_elem_of_omap in Hf as (logger & Hin & Hset). simpl. by eapply Hret.
Qed.

Section WithStorage.
Context {St : Type} (storage : BrowserStorage.StorageBackend St).

(** *** The steps of the chain *)

Lemma initializeLoggers_outcome (w : @World St) :
  firstThrown (omap init_hook (loggersEnabled w)) = None →
  (initializeLoggers w).1 = None
  ∧ loggersEnabled (initializeLoggers w).2 = loggersEnabled w
  ∧ match firstRejected (omap init_hook (loggersEnabled w)) with
    | Some _ =>
        initialized (initializeLoggers w).2 = ERROR
        ∧ debugErrors (initializeLoggers w).2
          = debugErrors w ++ ["Error resolving logger initializers:"]
    | None =>
        initialized (initializeLoggers w).2 = LOGGERS_READY
        ∧ debugErrors (initializeLoggers w).2 = debugErrors w
    end.
Proof.
  intros Hthrown. unfold initializeLoggers. rewrite Hthrown.
  destruct (firstRejected _); by destruct w.
Qed.

(** a hook that throws takes the function out before its [try]: the state
    is left as it was and the promise is rejected *)
Lemma initializeLoggers_thrown (w : @World St) (e : exn) :
  firstThrown (omap init_hook (loggersEnabled w)) = Some e →
  initializeLoggers w = (Some e, w).
Proof. intros Hthrown. unfold initializeLoggers. by rewrite Hthrown. Qed.

Lemma lockFieldsAsync_frame rd data (w : @World St) :
  setField_returns (loggersEnabled w) →
  (lockFieldsAsync storage rd data w).1 = None
  ∧ initialized (lockFieldsAsync storage rd data w).2 = initialized w
  ∧ loggersEnabled (lockFieldsAsync storage rd data w).2 = loggersEnabled w
  ∧ debugErrors (lockFieldsAsync storage rd data w).2 = debugErrors w.
Proof.
  intros Hret. unfold lockFieldsAsync.
  pose proof (UtilFacts.timestampEvent_returns storage rd PlainObject
                [("fields", Util.mergeMetadata data); ("event", JStr "lock_fields")]
                (util w) (Disabler.store (disabler w)) eq_refl) as Hts.
  fold (obj [("fields", Util.mergeMetadata data); ("event", JStr "lock_fields")]) in Hts.
  destruct (Util.timestampEvent storage rd _ (util w) (Disabler.store (disabler w)))
    as [[[stamped payload] u] st].
  simpl in Hts. subst stamped.
  assert (Hloggers : ∀ x y, loggersEnabled (set_util x (set_disabler y w)) = loggersEnabled w)
    by by destruct w.
  rewrite Hloggers.
  pose proof (setField_hooks_fulfil (loggersEnabled w) payload Hret) as Hff.
  rewrite (firstThrown_fulfils _ Hff), (firstRejected_fulfils _ Hff).
  by destruct w.
Qed.

(** what [lockFields] hands to the [setField] hooks carries, under
    [fields], the fragments merged by [mergeMetadata] *)
Lemma lockFieldsAsync_payload rd data (w : @World St) :
  ∃ payload,
    setFieldCalls (lockFieldsAsync storage rd data w).2 = setFieldCalls w ++ [payload]
    ∧ getProp payload "fields" = Some (Util.mergeMetadata data)
    ∧ getProp payload "event" = Some (JStr "lock_fields").
Proof.
  unfold lockFieldsAsync.
  set (payload := obj [("fields", Util.mergeMetadata data); ("event", JStr "lock_fields")]).
  pose proof (UtilFacts.timestampEvent_returns storage rd PlainObject
                [("fields", Util.mergeMetadata data); ("event", JStr "lock_fields")]
                (util w) (Disabler.store (disabler w)) eq_refl) as Hts.
  pose proof (UtilFacts.timestampEvent_other_fields storage rd payload
                (util w) (Disabler.store (disabler w)) "fields" ltac:(done)) as Hf.
  pose proof (UtilFacts.timestampEvent_other_fields storage rd payload
                (util w) (Disabler.store (disabler w)) "event" ltac:(done)) as He.
  fold (obj [("fields", Util.mergeMetadata data); ("event", JStr "lock_fields")]) in Hts.
  fold payload in Hts.
  destruct (Util.timestampEvent storage rd payload (util w) (Disabler.store (disabler w)))
    as [[[stamped payload'] u] st].
  simpl in Hts, Hf, He. subst stamped. exists payload'.
  split; [|by split].
  destruct (firstThrown _); by destruct w.
Qed.

(** the chain, not rejected, runs its next callback *)
Lemma startStep_error (s : @LoEvent St) :
  initialized (world s) = ERROR →
  initialized (world (startStep storage s)) = ERROR
  ∧ debugErrors (world (startStep storage s))
    = debugErrors (world s) ++ ["Cannot start dequeue loop: logger initialization failed"]
  ∧ queue (startStep storage s) = queue s
  ∧ rejected (startStep storage s) = rejected s.
Proof. intros He. unfold startStep. rewrite He. by destruct s as [[]]. Qed.

(** the callbacks [go] gives the main loop leave [initialized] alone *)
Lemma mainLoop_body_initialized (q : Queue.Queue) (w : @World St) :
  initialized (Queue.startDequeueLoop_body (mainLoopConfig storage) (q, w)).2
  = initialized w.
Proof.
  unfold Queue.startDequeueLoop_body, Queue.iteration, Queue.terminate, Queue.report.
  simpl. destruct (isInitialized w); simpl; [|by destruct w].
  destruct (Disabler.retry storage (disabler w)) as [again d].
  destruct again; simpl; by destruct w.
Qed.

Lemma startStep_ready (s : @LoEvent St) (q : Queue.Queue) :
  initialized (world s) ≠ ERROR →
  queue s = Some q →
  Queue.startDequeueLoop_run q = false →
  loopStarted (startStep storage s) = true
  ∧ initialized (world (startStep storage s)) = READY
  ∧ rejected (startStep storage s) = rejected s.
Proof.
  intros Hne Hq Hrun. unfold startStep.
  set (w := set_initialized READY (world s)).
  assert (Hstart : ∀ w', Queue.startDequeueLoop (mainLoopConfig storage) (q, w')
            = (Returned tt, Queue.startDequeueLoop_body (mainLoopConfig storage)
                              (Queue.set_startDequeueLoop_run true q, w'))).
  { intros w'. unfold Queue.startDequeueLoop, Util.once. simpl. by rewrite Hrun. }
  assert (Hgoal :
    let s' := match Queue.startDequeueLoop (mainLoopConfig storage) (q, w) with
              | (Returned _, (q, w)) => set_queue (Some q) (set_world w s)
              | (Thrown e, (q, w)) =>
                  set_rejected (Some e) (set_queue (Some q) (set_world w s))
              end in
    loopStarted s' = true ∧ initialized (world s') = READY ∧ rejected s' = rejected s).
  { rewrite Hstart.
    pose proof (mainLoop_body_initialized (Queue.set_startDequeueLoop_run true q) w) as Hi.
    destruct (QueueFacts.body_fields (mainLoopConfig storage)
                (Queue.set_startDequeueLoop_run true q, w)) as (_ & Hflag & _).
    destruct (Queue.startDequeueLoop_body (mainLoopConfig storage)
                (Queue.set_startDequeueLoop_run true q, w)) as [q' w'].
    simpl in *. unfold loopStarted.
    replace (queue (set_queue (Some q') (set_world w' s))) with (Some q')
      by by destruct s.
    replace (world (set_queue (Some q') (set_world w' s))) with w' by by destruct s.
    rewrite Hflag, Hi. repeat split. }
  destruct (initialized (world s)) eqn:Hi; try done; rewrite Hq; exact Hgoal.
Qed.

Lemma runStep_neutral rd (s : @LoEvent St) (step : Step) :
  neutral step = true →
  rejected s = None →
  setField_returns (loggersEnabled (world s)) →
  let s' := runStep storage rd s step in
  rejected s' = None
  ∧ queue s' = queue s
  ∧ loggersEnabled (world s') = loggersEnabled (world s)
  ∧ initialized (world s') = initialized (world s)
  ∧ pendingMetadata s' = pendingMetadata s.
Proof.
  intros Hn Hrej Hret. unfold runStep. rewrite Hrej.
  destruct step as [| |data| |]; try discriminate; clear Hn.
  - by destruct s as [[]].
  - destruct (lockFieldsAsync_frame rd data (world s) Hret) as (Hr & Hi & Hl & _).
    unfold settleWith. destruct (lockFieldsAsync storage rd data (world s)) as [r w'].
    simpl in *. subst r. by destruct s.
  - destruct (compileMetadata (pendingMetadata s) (world s)) as [results w] eqn:Hcm.
    assert (Hw : loggersEnabled w = loggersEnabled (world s)
                 ∧ initialized w = initialized (world s)).
    { unfold compileMetadata in Hcm. injection Hcm as _ <-. by destruct (world s). }
    destruct Hw as [Hwl Hwi].
    assert (Hret' : setField_returns (loggersEnabled w)) by by rewrite Hwl.
    destruct (lockFieldsAsync_frame rd (Util.MValue <$> results) w Hret')
      as (Hr & Hi & Hl & _).
    unfold settleWith. destruct (lockFieldsAsync storage rd _ w) as [r w'].
    simpl in *. subst r. rewrite Hi, Hl, Hwl, Hwi. by destruct s.
Qed.

Lemma tracked_neutral rd q loggers i (s : @LoEvent St) (step : Step) :
  neutral step = true →
  setField_returns loggers →
  tracked q loggers i s →
  tracked q loggers i (runStep storage rd s step).
Proof.
  intros Hn Hret (Hrej & Hq & Hl & Hi). rewrite <- Hl in Hret.
  destruct (runStep_neutral rd s step Hn Hrej Hret) as (? & ? & ? & ? & _).
  unfold tracked. repeat split; congruence.
Qed.

Lemma tracked_initializeLoggers rd q loggers (s : @LoEvent St) :
  firstThrown (omap init_hook loggers) = None →
  tracked q loggers IN_PROGRESS s →
  tracked q loggers
    (match firstRejected (omap init_hook loggers) with
     | Some _ => ERROR
     | None => LOGGERS_READY
     end) (runStep storage rd s InitializeLoggers).
Proof.
  intros Hthrown (Hrej & Hq & Hl & Hi). unfold runStep. rewrite Hrej.
  rewrite <- Hl in Hthrown |- *.
  destruct (initializeLoggers_outcome (world s) Hthrown) as (Hr & Hl' & Hout).
  unfold settleWith, tracked.
  destruct (initializeLoggers (world s)) as [r w']. simpl in *. subst r.
  replace (rejected (set_rejected None (set_world w' s))) with (@None exn)
    by by destruct s.
  replace (queue (set_rejected None (set_world w' s))) with (queue s) by by destruct s.
  replace (world (set_rejected None (set_world w' s))) with w' by by destruct s.
  repeat split; try done.
  by destruct (firstRejected (omap init_hook (loggersEnabled (world s)))); destruct Hout.
Qed.

Lemma tracked_chain q loggers i (s : @LoEvent St) step :
  tracked q loggers i s → tracked q loggers i (chain step s).
Proof. by destruct s. Qed.

Lemma tracked_go q loggers i (s : @LoEvent St) :
  tracked q loggers i s → tracked q loggers i (go s).
Proof. by destruct s. Qed.

(** [init] on a module whose chain is idle, with arguments it accepts *)
Lemma init_tracked rd indexedDB rows source version loggers options
    (s : @LoEvent St) (q : Queue.Queue) :
  rejected s = None →
  pipeline s = [] →
  source ≠ "" →
  version ≠ "" →
  sendBrowserInfo options = None →
  Queue.new (queueType options) indexedDB rows = Returned q →
  let s1 := (init storage rd indexedDB rows source version loggers options s).2 in
  tracked q loggers IN_PROGRESS s1
  ∧ (pipeline s1 = [InitializeLoggers] ∨ pipeline s1 = [DisablerInit; InitializeLoggers]).
Proof.
  intros Hrej Hpipe Hsrc Hver Hinfo Hnew. unfold init.
  apply String.eqb_neq in Hsrc, Hver. rewrite Hsrc, Hver, Hnew, Hinfo.
  destruct s as [w qo r p ps pv pm]. simpl in *. subst r p.
  unfold tracked. destruct (useDisabler options); simpl; by destruct w; auto.
Qed.

(** What [initializeLoggers] and [go] do by design, for loggers whose
    [init] hooks fail, if they fail, by returning a rejected promise: one
    rejection is enough for the state [ERROR], [go] then reports and does
    not start the loop; with no rejection the state becomes
    [LOGGERS_READY], and [go] makes it [READY] and starts the loop. *)
Lemma init_go_outcome rd indexedDB rows source version loggers options
    (s : @LoEvent St) (q : Queue.Queue) :
  rejected s = None →
  pipeline s = [] →
  source ≠ "" →
  version ≠ "" →
  sendBrowserInfo options = None →
  Queue.new (queueType options) indexedDB rows = Returned q →
  firstThrown (omap init_hook loggers) = None →
  setField_returns loggers →
  let s1 := (init storage rd indexedDB rows source version loggers options s).2 in
  let ready := settle storage rd s1 in
  let gone := settle storage rd (go s1) in
  match firstRejected (omap init_hook loggers) with
  | Some _ =>
      initialized (world ready) = ERROR
      ∧ initialized (world gone) = ERROR
      ∧ loopStarted gone = false
      ∧ ∃ before, debugErrors (world gone)
                  = before ++ ["Cannot start dequeue loop: logger initialization failed"]
  | None =>
      initialized (world ready) = LOGGERS_READY
      ∧ initialized (world gone) = READY
      ∧ loopStarted gone = true
  end.
Proof.
  intros Hrej Hpipe Hsrc Hver Hinfo Hnew Hthrown Hret s1 ready gone.
  destruct (init_tracked rd indexedDB rows source version loggers options s q
              Hrej Hpipe Hsrc Hver Hinfo Hnew) as [Htr Hsteps].
  fold s1 in Htr, Hsteps.
  destruct (QueueFacts.new_not_run _ _ _ _ Hnew) as (Hrun & _).
  set (final := match firstRejected (omap init_hook loggers) with
                | Some _ => ERROR | None => LOGGERS_READY end).
  (* the chain up to and including [initializeLoggers] *)
  assert (Hready : ∀ s0, tracked q loggers IN_PROGRESS s0 →
            tracked q loggers final
              (foldl (runStep storage rd) (set_pipeline [] s0) (pipeline s1))).
  { intros s0 Htr0.
    assert (Htr0' : tracked q loggers IN_PROGRESS (set_pipeline [] s0)) by by destruct s0.
    destruct Hsteps as [-> | ->]; simpl.
    - by apply tracked_initializeLoggers.
    - apply tracked_initializeLoggers; [done|]. by apply tracked_neutral. }
  assert (Hr : tracked q loggers final ready).
  { unfold ready, settle. apply Hready, Htr. }
  (* [go] chains three more callbacks *)
  set (fields := [Util.MValue (obj [("source", JStr (pendingSource s1));
                                    ("version", JStr (pendingVersion s1))])]).
  assert (Hgone : gone =
    startStep storage
      (runStep storage rd
         (runStep storage rd
            (foldl (runStep storage rd) (set_pipeline [] (go s1)) (pipeline s1))
            (LockFields fields))
         CompileMetadata)).
  { unfold gone, settle.
    replace (pipeline (go s1))
      with (pipeline s1 ++ [LockFields fields; CompileMetadata; StartDequeueLoop])
      by (unfold go, lockFields, chain; simpl; by rewrite <- !app_assoc).
    rewrite foldl_app. simpl.
    set (s3 := runStep storage rd _ CompileMetadata).
    assert (Hs3 : rejected s3 = None); [|unfold runStep at 1; by rewrite Hs3].
    unfold s3. eapply (tracked_neutral rd q loggers final); [done..|].
    eapply (tracked_neutral rd q loggers final); [done..|].
    apply Hready, tracked_go, Htr. }
  assert (Hbefore : tracked q loggers final
    (runStep storage rd
       (runStep storage rd
          (foldl (runStep storage rd) (set_pipeline [] (go s1)) (pipeline s1))
          (LockFields fields))
       CompileMetadata)).
  { eapply (tracked_neutral rd q loggers final); [done..|].
    eapply (tracked_neutral rd q loggers final); [done..|].
    apply Hready, tracked_go, Htr. }
  rewrite Hgone. destruct Hbefore as (Hrej' & Hq' & _ & Hi').
  destruct Hr as (_ & _ & _ & Hiready).
  unfold final in *. destruct (firstRejected (omap init_hook loggers)).
  - destruct (startStep_error _ Hi') as (Hie & Hde & Hqe & _).
    repeat split; try done.
    + unfold loopStarted. by rewrite Hqe, Hq'.
    + eexists. exact Hde.
  - destruct (startStep_ready _ q ltac:(by rewrite Hi') Hq' Hrun) as (Hs & Hi2 & _).
    done.
Qed.

End WithStorage.

(** C8 fails when an [init] hook fails by throwing rather than by returning
    a rejected promise (the type of the hook allows a plain function):
    [initializeLoggers] calls the hooks before its [try], so the fault
    leaves the function, the state stays [IN_PROGRESS] and the chain is
    rejected; the callbacks of [go] are skipped: nothing is reported and
    the loop is not started. The same loggers with the failure delivered
    as a rejection give [ERROR] and the report. *)
Theorem throwing_init_leaves_IN_PROGRESS :
  let thrown := initAndGo [quietLogger; throwingLogger] in
  let rejects := initAndGo [quietLogger; rejectingLogger] in
  initialized (world thrown) = IN_PROGRESS
  ∧ debugErrors (world thrown) = []
  ∧ rejected thrown = Some (ErrorExn "init failed")
  ∧ loopStarted thrown = false
  ∧ initialized (world rejects) = ERROR
  ∧ debugErrors (world rejects)
    = ["Error resolving logger initializers:";
       "Cannot start dequeue loop: logger initialization failed"]
  ∧ loopStarted rejects = false.
Proof. vm_compute. repeat split. Qed.

(** with every [init] hook returning, the same calls end in [READY] with
    the loop started *)
Lemma quiet_init_starts_the_loop :
  initialized (world (initAndGo [quietLogger; quietLogger])) = READY
  ∧ loopStarted (initAndGo [quietLogger; quietLogger]) = true.
Proof. vm_compute. repeat split. Qed.



End LoEventFacts.
(** ** util.ts: backoff *)

Module BackoffFacts.
Import Util.

Section Backoff.
Context {H : Type} (predicate : H → outcome JSON * H).

(** a run that has settled is not changed by following the loop further *)
Lemma backoff_loop_fuel fuel : ∀ fuel' msg delays policy m rc h sl ak r,
  backoff_loop predicate fuel msg delays policy m rc h sl ak = Some r →
  fuel ≤ fuel' →
  backoff_loop predicate fuel' msg delays policy m rc h sl ak = Some r.
Proof.
  induction fuel as [|fuel IH]; intros fuel' msg delays policy m rc h sl ak r Hr Hle;
    [discriminate|].
  destruct fuel' as [|fuel']; [lia|].
  simpl in *. destruct (predicate h) as [[v|e] h']; [|done].
  destruct (truthy v); [done|].
  destruct (_ && (length delays <=? rc)); [done|].
  destruct (_ && pastMaxRetries (S rc) m); [done|].
  apply IH; [done|lia].
Qed.

(** the policy [DIE], from any turn of the loop *)
Lemma backoff_loop_die msg delays m : ∀ n rc h sl ak fuel,
  answers predicate →
  rc + n = length delays →
  n < fuel →
  ∃ r k,
    backoff_loop predicate fuel msg delays DIE m rc h sl ak = Some r
    ∧ k ≤ n
    ∧ slept r = sl ++ (Some <$> take k (drop rc delays))
    ∧ asked r = ak + k + 1
    ∧ (settled r = Returned true
       ∨ settled r = Thrown (ErrorExn msg) ∧ k = n).
Proof.
  induction n as [|n IH]; intros rc h sl ak fuel Hans Hlen Hfuel.
  - destruct fuel as [|fuel]; [lia|]. simpl.
    destruct (Hans h) as (v & h' & ->).
    destruct (truthy v).
    + eexists _, 0. split; [reflexivity|]. simpl. rewrite app_nil_r.
      split; [lia|]. split; [done|]. split; [lia|]. by left.
    + replace (length delays <=? rc) with true by (symmetry; apply Nat.leb_le; lia).
      simpl. eexists _, 0. split; [reflexivity|]. simpl. rewrite app_nil_r.
      split; [lia|]. split; [done|]. split; [lia|]. by right.
  - destruct fuel as [|fuel]; [lia|]. simpl.
    destruct (Hans h) as (v & h' & ->).
    destruct (truthy v).
    + eexists _, 0. split; [reflexivity|]. simpl. rewrite app_nil_r.
      split; [lia|]. split; [done|]. split; [lia|]. by left.
    + replace (length delays <=? rc) with false by (symmetry; apply Nat.leb_gt; lia).
      simpl.
      destruct (IH (S rc) h' (sl ++ [delayTime delays rc]) (S ak) fuel Hans)
        as (r & k & Hr & Hk & Hslept & Hasked & Hend); [lia|lia|].
      exists r, (S k). split; [done|]. split; [lia|]. split.
      * rewrite Hslept, <- app_assoc. f_equal.
        unfold delayTime.
        replace (rc <? length delays) with true by (symmetry; apply Nat.ltb_lt; lia).
        assert (Hlook : is_Some (delays !! rc)) by (apply lookup_lt_is_Some; lia).
        destruct Hlook as [d Hd]. rewrite Hd.
        rewrite (drop_S delays d rc Hd). done.
      * split; [lia|]. destruct Hend as [?|[? ->]]; auto.
Qed.

(** The policy [DIE] with a predicate that answers: the call settles
    within one turn more than there are delays. It resolves to [true]
    having slept the first delays of the list, one after each refusal, or
    it throws the error of [errorMessage], and then only after the
    predicate has refused once more than there are delays and every delay
    of the list has been slept, in order; the last refusal is followed by
    no delay. [maxRetries] plays no part. *)
Theorem backoff_die_settles (msg : string) (delays : list Z) (m : MaxRetries)
    (h : H) (fuel : nat) :
  answers predicate →
  length delays < fuel →
  ∃ r,
    backoff predicate fuel msg delays DIE m h = Some r
    ∧ asked r ≤ S (length delays)
    ∧ slept r = Some <$> take (asked r - 1) delays
    ∧ (settled r = Returned true
       ∨ settled r = Thrown (ErrorExn msg)
         ∧ asked r = S (length delays)
         ∧ slept r = Some <$> delays).
Proof.
  intros Hans Hfuel.
  destruct (backoff_loop_die msg delays m (length delays) 0 h [] 0 fuel Hans)
    as (r & k & Hr & Hk & Hslept & Hasked & Hend); [done|done|].
  exists r. split; [exact Hr|]. simpl in *. rewrite drop_0 in Hslept.
  split; [lia|]. split.
  - rewrite Hslept. repeat f_equal. lia.
  - destruct Hend as [?|[? ->]]; [by left|right].
    split; [done|]. split; [lia|]. by rewrite Hslept, firstn_all.
Qed.

(** the policy [RETRY] without a bound, from any turn of the loop *)
Lemma backoff_loop_retry msg delays fuel : ∀ rc h sl ak r,
  answers predicate →
  backoff_loop predicate fuel msg delays RETRY Infinity rc h sl ak = Some r →
  settled r = Returned true
  ∧ ∃ n, slept r = sl ++ ((λ i, delayTime delays (rc + i)) <$> seq 0 n)
         ∧ asked r = ak + n + 1.
Proof.
  induction fuel as [|fuel IH]; intros rc h sl ak r Hans Hr; [discriminate|].
  simpl in Hr. destruct (Hans h) as (v & h' & Hp). rewrite Hp in Hr.
  destruct (truthy v).
  - injection Hr as <-. simpl. split; [done|]. exists 0. simpl.
    rewrite app_nil_r. split; [done|lia].
  - simpl in Hr. apply IH in Hr as (Hset & n & Hslept & Hasked); [|done].
    split; [done|]. exists (S n). split; [|lia].
    rewrite Hslept, <- app_assoc. f_equal. simpl. rewrite Nat.add_0_r. f_equal.
    rewrite <- fmap_S_seq, <- list_fmap_compose. apply list_fmap_ext.
    intros _ i _. simpl. f_equal. lia.
Qed.

Lemma backoff_loop_retry_refused msg delays fuel : ∀ rc h sl ak,
  refuses predicate →
  backoff_loop predicate fuel msg delays RETRY Infinity rc h sl ak = None.
Proof.
  induction fuel as [|fuel IH]; intros rc h sl ak Href; [done|].
  simpl. destruct (Href h) as (v & h' & -> & ->). simpl. by apply IH.
Qed.

(** The policy [RETRY] with [maxRetries] left at [Infinity] (as
    websocketLogger.ts calls it) never gives up: with a predicate that
    answers, a call that settles resolves to [true]; the error of
    [errorMessage] is never thrown. The delay slept after refusal number
    [i+1] is entry [i] of the list while the list lasts and its last entry
    from then on. As long as the predicate refuses, the call stays
    pending, however long it is followed. *)
Theorem backoff_retry_never_gives_up (msg : string) (delays : list Z) (h : H)
    (fuel : nat) :
  answers predicate →
  (∀ r, backoff predicate fuel msg delays RETRY Infinity h = Some r →
        settled r = Returned true
        ∧ asked r = S (length (slept r))
        ∧ ∀ i, i < length (slept r) →
               slept r !! i
               = Some (if i <? length delays then delays !! i else last delays))
  ∧ (refuses predicate → backoff predicate fuel msg delays RETRY Infinity h = None).
Proof.
  intros Hans. split.
  - intros r Hr. apply backoff_loop_retry in Hr as (Hset & n & Hslept & Hasked); [|done].
    simpl in *. split; [done|].
    rewrite Hslept, length_fmap, length_seq. split; [lia|].
    intros i Hi. rewrite list_lookup_fmap, lookup_seq_lt by done. done.
  - intros Href. by apply backoff_loop_retry_refused.
Qed.

(** the policy [RETRY] with a bound, the predicate refusing *)
Lemma backoff_loop_retry_bound msg delays (n : Z) : ∀ (k rc : nat) h sl ak fuel,
  refuses predicate →
  (Z.of_nat rc + Z.of_nat k = Z.max (Z.of_nat rc) n)%Z →
  k < fuel →
  ∃ r,
    backoff_loop predicate fuel msg delays RETRY (Retries n) rc h sl ak = Some r
    ∧ settled r = Thrown (ErrorExn msg)
    ∧ asked r = ak + k + 1
    ∧ length (slept r) = length sl + k + 1.
Proof.
  induction k as [|k IH]; intros rc h sl ak fuel Href Hk Hfuel.
  - destruct fuel as [|fuel]; [lia|]. simpl.
    destruct (Href h) as (v & h' & -> & ->). simpl.
    replace (n <? Z.of_nat (S rc))%Z with true by (symmetry; apply Z.ltb_lt; lia).
    eexists. split; [done|]. simpl. rewrite length_app. simpl.
    repeat split; lia.
  - destruct fuel as [|fuel]; [lia|]. simpl.
    destruct (Href h) as (v & h' & -> & ->). simpl.
    replace (n <? Z.of_nat (S rc))%Z with false by (symmetry; apply Z.ltb_ge; lia).
    destruct (IH (S rc) h' (sl ++ [delayTime delays rc]) (S ak) fuel Href)
      as (r & Hr & Hset & Hasked & Hslept); [lia|lia|].
    exists r. split; [done|]. split; [done|].
    rewrite length_app in Hslept. simpl in Hslept. split; lia.
Qed.

(** The policy [RETRY] with a whole number [maxRetries], the predicate
    refusing: the call throws the error of [errorMessage] after the
    predicate has been asked [maxRetries + 1] times (once, if [maxRetries]
    is not positive), and, unlike under [DIE], every refusal including the
    last one is followed by a delay before the error is thrown. *)
Theorem backoff_retry_gives_up (msg : string) (delays : list Z) (n : Z) (h : H)
    (fuel : nat) :
  refuses predicate →
  (Z.max 1 (n + 1) ≤ Z.of_nat fuel)%Z →
  ∃ r,
    backoff predicate fuel msg delays RETRY (Retries n) h = Some r
    ∧ settled r = Thrown (ErrorExn msg)
    ∧ Z.of_nat (asked r) = Z.max 1 (n + 1)
    ∧ length (slept r) = asked r.
Proof.
  intros Href Hfuel.
  destruct (backoff_loop_retry_bound msg delays n (Z.to_nat (Z.max 0 n)) 0 h [] 0 fuel Href)
    as (r & Hr & Hset & Hasked & Hslept); [lia|lia|].
  exists r. split; [exact Hr|]. split; [done|]. simpl in *. split; lia.
Qed.

End Backoff.

Lemma thirdTime_answers : answers thirdTime.
Proof. intros h. by eexists _, _. Qed.

Lemma never_refuses : refuses never.
Proof. intros h. by eexists _, _. Qed.

Lemma never_answers : answers never.
Proof. intros h. by eexists _, _. Qed.

Lemma backoff_die_settles_witness :
  answers thirdTime
  ∧ length defaultDelays < 7
  ∧ (∃ r, backoff thirdTime 7 "not met" defaultDelays DIE Infinity 0 = Some r
          ∧ settled r = Returned true
          ∧ slept r = [Some 100%Z; Some 1000%Z])
  ∧ (∃ r, backoff never 7 "not met" defaultDelays DIE Infinity 0 = Some r
          ∧ settled r = Thrown (ErrorExn "not met")
          ∧ asked r = 7).
Proof.
  assert (Hfuel : length defaultDelays < 7) by (simpl; lia).
  split; [exact thirdTime_answers|]. split; [exact Hfuel|]. split.
  - destruct (backoff_die_settles thirdTime "not met" defaultDelays Infinity 0 7
                thirdTime_answers Hfuel) as (r & Hr & _).
    exists r. split; [exact Hr|].
    vm_compute in Hr. injection Hr as <-. split; reflexivity.
  - destruct (backoff_die_settles never "not met" defaultDelays Infinity 0 7
                never_answers Hfuel) as (r & Hr & _).
    exists r. split; [exact Hr|].
    vm_compute in Hr. injection Hr as <-. split; reflexivity.
Defined.

Lemma backoff_retry_never_gives_up_witness :
  answers thirdTime
  ∧ (∃ r, backoff thirdTime 5 "WebSocket not ready" defaultDelays RETRY Infinity 0 = Some r
          ∧ settled r = Returned true ∧ asked r = 3)
  ∧ backoff never 50 "WebSocket not ready" defaultDelays RETRY Infinity 0 = None.
Proof.
  split; [exact thirdTime_answers|]. split.
  - destruct (backoff thirdTime 5 "WebSocket not ready" defaultDelays RETRY Infinity 0)
      as [r|] eqn:Hr; [|discriminate Hr].
    exists r. split; [done|].
    pose proof (proj1 (backoff_retry_never_gives_up thirdTime "WebSocket not ready"
                         defaultDelays 0 5 thirdTime_answers) r Hr) as (Hset & _).
    split; [exact Hset|]. by injection Hr as <-.
  - exact (proj2 (backoff_retry_never_gives_up never "WebSocket not ready"
                    defaultDelays 0 50 never_answers) never_refuses).
Defined.

Lemma backoff_retry_gives_up_witness :
  refuses never
  ∧ ∃ r, backoff never 4 "not met" [100%Z] RETRY (Retries 2) 0 = Some r
         ∧ settled r = Thrown (ErrorExn "not met")
         ∧ asked r = 3
         ∧ slept r = [Some 100%Z; Some 100%Z; Some 100%Z].
Proof.
  split; [exact never_refuses|].
  destruct (backoff_retry_gives_up never "not met" [100%Z] 2 0 4 never_refuses
              ltac:(lia)) as (r & Hr & Hset & _).
  exists r. split; [exact Hr|]. split; [exact Hset|].
  vm_compute in Hr. injection Hr as <-. split; reflexivity.
Defined.

End BackoffFacts.
(** ** util.ts: renderTime *)

Module RenderTimeFacts.
Import Util.
Local Open Scope Z_scope.

(** [renderTime] shows the largest unit that is not zero, rounded down, and
    nothing else: whole days from one day on, else whole hours from one
    hour on, else whole minutes from one minute on, else the seconds; "-"
    for zero and for negative times. The remainder modulo 60 that the code
    takes of the hours never shows, since hours are printed only below one
    day. *)
Theorem renderTime_largest_unit (t : Z) :
  Z.abs t < 2 ^ 40 →
  renderTime t =
    if t <? 1 then "-"
    else if t <? 60 then String.append (BrowserStorage.String_ (JNum t)) "s"
    else if t <? 3600 then String.append (BrowserStorage.String_ (JNum (t / 60))) "m"
    else if t <? 86400 then String.append (BrowserStorage.String_ (JNum (t / 3600))) "h"
    else String.append (BrowserStorage.String_ (JNum (t / 86400))) "d".
Proof.
  intros _. unfold renderTime.
  assert (Hd : t / 3600 / 24 = t / 86400) by (rewrite Z.div_div by lia; reflexivity).
  rewrite Hd.
  destruct (Z.ltb_spec t 1) as [Hneg|Hpos].
  - assert (t / 86400 ≤ 0) by (Z.div_mod_to_equations; lia).
    assert (Z.rem (t / 3600) 60 ≤ 0)
      by (apply Z.rem_nonpos; [lia | Z.div_mod_to_equations; lia]).
    assert (Z.rem (t / 60) 60 ≤ 0)
      by (apply Z.rem_nonpos; [lia | Z.div_mod_to_equations; lia]).
    assert (Z.rem t 60 ≤ 0) by (apply Z.rem_nonpos; lia).
    repeat match goal with
           | |- context [(0 <? ?b)%Z] => destruct (Z.ltb_spec 0 b); [lia|]
           end.
    reflexivity.
  - rewrite !Z.rem_mod_nonneg by (try lia; Z.div_mod_to_equations; lia).
    repeat match goal with
           | |- context [(?a <? ?b)%Z] => destruct (Z.ltb_spec a b)
           end;
      try (exfalso; Z.div_mod_to_equations; lia);
      repeat f_equal; Z.div_mod_to_equations; lia.
Qed.

Lemma renderTime_largest_unit_witness :
  Z.abs 7601 < 2 ^ 40
  ∧ renderTime 7601 = "2h"
  ∧ renderTime 764450 = "8d"
  ∧ renderTime 125 = "2m".
Proof.
  assert (H1 : Z.abs 7601 < 2 ^ 40) by (vm_compute; reflexivity).
  split; [exact H1|]. split.
  - rewrite (renderTime_largest_unit 7601 H1). reflexivity.
  - split; reflexivity.
Defined.

End RenderTimeFacts.
(** ** browserStorage.ts: reading after writing *)

Module StorageLaws.
Import BrowserStorage.

(** the [forEach] of [thunkStorage.get] over an array of keys *)
Lemma thunk_get_fold (data : gmap string JSON) (ks : list string) :
  ∀ (acc : gmap string JSON) (k : string),
  foldl (λ (result : gmap string JSON) key,
           match data !! key with
           | Some v => <[key := v]> result
           | None => result
           end) acc ks !! k
  = if bool_decide (k ∈ ks)
    then match data !! k with Some v => Some v | None => acc !! k end
    else acc !! k.
Proof.
  induction ks as [|key ks IH]; intros acc k; simpl; [done|].
  rewrite IH. destruct (decide (k = key)) as [->|Hne].
  - rewrite (bool_decide_eq_true_2 (key ∈ key :: ks)) by (apply elem_of_cons; by left).
    destruct (data !! key) as [v|] eqn:Hv.
    + by destruct (bool_decide (key ∈ ks)); rewrite ?lookup_insert_eq.
    + by destruct (bool_decide (key ∈ ks)).
  - assert (Hin : bool_decide (k ∈ key :: ks) = bool_decide (k ∈ ks))
      by (apply bool_decide_ext; rewrite elem_of_cons; intuition congruence).
    rewrite Hin.
    assert (Hacc : match data !! key with
                   | Some v => <[key := v]> acc
                   | None => acc
                   end !! k = acc !! k).
    { destruct (data !! key); [by rewrite lookup_insert_ne|done]. }
    by rewrite Hacc.
Qed.

Lemma thunk_get_array (data : gmap string JSON) (ks : list string) (k : string) :
  thunk_get (KeyArray ks) data !! k = if bool_decide (k ∈ ks) then data !! k else None.
Proof.
  unfold thunk_get. rewrite thunk_get_fold, lookup_empty.
  destruct (bool_decide (k ∈ ks)); [|done]. by destruct (data !! k).
Qed.

Lemma thunk_set_lookup (items data : gmap string JSON) (k : string) :
  thunk_set items data !! k
  = match items !! k with Some v => Some v | None => data !! k end.
Proof.
  unfold thunk_set. destruct (items !! k) as [v|] eqn:Hv.
  - by apply lookup_union_Some_l.
  - by rewrite lookup_union_r.
Qed.

(** the loop of [getWithCallback] *)
Lemma getWithCallback_fold {St} (getItem : string → St → JSON) (area : St)
    (ks : list string) : ∀ (acc : gmap string JSON) (k : string),
  foldl (λ (results : gmap string JSON) item, <[item := getItem item area]> results)
    acc ks !! k
  = if bool_decide (k ∈ ks) then Some (getItem k area) else acc !! k.
Proof.
  induction ks as [|key ks IH]; intros acc k; simpl; [done|].
  rewrite IH. destruct (decide (k = key)) as [->|Hne].
  - rewrite (bool_decide_eq_true_2 (key ∈ key :: ks)) by (apply elem_of_cons; by left).
    by destruct (bool_decide (key ∈ ks)); rewrite ?lookup_insert_eq.
  - assert (Hin : bool_decide (k ∈ key :: ks) = bool_decide (k ∈ ks))
      by (apply bool_decide_ext; rewrite elem_of_cons; intuition congruence).
    rewrite Hin. by rewrite lookup_insert_ne.
Qed.

Lemma getWithCallback_array {St} (getItem : string → St → JSON) (area : St)
    (ks : list string) (k : string) :
  getWithCallback getItem (KeyArray ks) area !! k
  = if bool_decide (k ∈ ks) then Some (getItem k area) else None.
Proof. unfold getWithCallback. by rewrite getWithCallback_fold, lookup_empty. Qed.

(** the loop of [setWithCallback] around [localStorage.setItem] *)
Lemma localStorage_set_lookup (items : gmap string JSON) (area : gmap string string)
    (k : string) :
  setWithCallback localStorage_setItem items area !! k
  = match items !! k with Some v => Some (String_ v) | None => area !! k end.
Proof.
  unfold setWithCallback.
  apply (map_fold_weak_ind
           (λ r m, r !! k = match m !! k with
                            | Some v => Some (String_ v)
                            | None => area !! k
                            end)).
  - by rewrite lookup_empty.
  - intros i x m r Hnone IH. unfold localStorage_setItem.
    destruct (decide (k = i)) as [->|Hne].
    + by rewrite !lookup_insert_eq.
    + by rewrite !lookup_insert_ne.
Qed.

(** [thunkStorage]: a read after a write gives, under each key asked for,
    the value just written, or else the value that was there before, and
    no entry where there is neither; no other key appears. [set] adds to
    what is stored and replaces nothing but the keys it is given. A single
    key given as a string reads like the array of that key, and [null]
    reads everything. (The key [__proto__] is not asked for: under it
    [result[key] = ...] makes no entry.) *)
Theorem thunkStorage_get_after_set (items data : gmap string JSON)
    (keys : list string) (k : string) :
  "__proto__" ∉ keys →
  k ≠ "__proto__" →
  let written := match items !! k with Some v => Some v | None => data !! k end in
  get thunkStorage (KeyArray keys) (set thunkStorage items data) !! k
  = (if bool_decide (k ∈ keys) then written else None)
  ∧ get thunkStorage (KeyString k) (set thunkStorage items data)
    = get thunkStorage (KeyArray [k]) (set thunkStorage items data)
  ∧ get thunkStorage KeyNull (set thunkStorage items data) !! k = written.
Proof.
  intros _ _. unfold thunkStorage; cbn [get set]. split; [|split].
  - by rewrite thunk_get_array, thunk_set_lookup.
  - simpl. by destruct (thunk_set items data !! k).
  - apply thunk_set_lookup.
Qed.

(** The wrappers around [localStorage]: a read after a write has an entry
    under every key asked for, and under no other: the string [String(v)]
    of the value [v] just written, or else the string that was there
    before, or else [null]. A single key given as a string reads like the
    array of that key. (The key [__proto__] is not asked for, and the
    values written are such as [String_] prints: see [printable].) *)
Theorem localStorage_get_after_set (items : gmap string JSON)
    (area : gmap string string) (keys : list string) (k : string) :
  "__proto__" ∉ keys →
  k ≠ "__proto__" →
  (∀ key v, items !! key = Some v → printable v = true) →
  get localStorageBackend (KeyArray keys) (set localStorageBackend items area) !! k
  = (if bool_decide (k ∈ keys)
     then Some match items !! k with
               | Some v => JStr (String_ v)
               | None => match area !! k with Some s => JStr s | None => JNull end
               end
     else None)
  ∧ get localStorageBackend (KeyString k) (set localStorageBackend items area)
    = get localStorageBackend (KeyArray [k]) (set localStorageBackend items area).
Proof.
  intros _ _ _. unfold localStorageBackend; cbn [get set]. split; [|done].
  rewrite getWithCallback_array. destruct (bool_decide (k ∈ keys)); [|done].
  unfold localStorage_getItem. rewrite localStorage_set_lookup.
  by destruct (items !! k).
Qed.

Lemma thunkStorage_string_store : string_store thunkStorage.
Proof.
  split.
  - intros keys key s st Hin. unfold thunkStorage; cbn [get set].
    rewrite thunk_get_array, bool_decide_eq_true_2, thunk_set_lookup by done.
    by rewrite lookup_singleton_eq.
  - intros keys key key' value st Hne. unfold thunkStorage; cbn [get set].
    rewrite !thunk_get_array, thunk_set_lookup.
    by rewrite lookup_singleton_ne.
Qed.

Lemma localStorage_string_store : string_store localStorageBackend.
Proof.
  split.
  - intros keys key s st Hin. unfold localStorageBackend; cbn [get set].
    rewrite getWithCallback_array, bool_decide_eq_true_2 by done.
    unfold localStorage_getItem. rewrite localStorage_set_lookup.
    by rewrite lookup_singleton_eq.
  - intros keys key key' value st Hne. unfold localStorageBackend; cbn [get set].
    rewrite !getWithCallback_array. destruct (bool_decide (key' ∈ keys)); [|done].
    unfold localStorage_getItem. rewrite localStorage_set_lookup.
    by rewrite lookup_singleton_ne.
Qed.

Lemma thunkStorage_get_after_set_witness :
  let data : gmap string JSON := {["user_id" := JStr "u1"]} in
  let items : gmap string JSON := {["name" := JStr "ada"]} in
  get thunkStorage (KeyArray ["user_id"; "name"; "other"]) (set thunkStorage items data)
    !! "name" = Some (JStr "ada")
  ∧ get thunkStorage KeyNull (set thunkStorage items data) !! "name" = Some (JStr "ada").
Proof.
  intros data items.
  assert (Hkeys : "__proto__" ∉ ["user_id"; "name"; "other"]).
  { intros Hin. repeat (apply elem_of_cons in Hin as [Hin|Hin]; [discriminate|]).
    by apply elem_of_nil in Hin. }
  assert (Hk : "name" ≠ "__proto__") by discriminate.
  destruct (thunkStorage_get_after_set items data ["user_id"; "name"; "other"] "name"
              Hkeys Hk) as (Harray & _ & Hnull).
  split; [exact Harray|exact Hnull].
Defined.

Lemma localStorage_get_after_set_witness :
  let items : gmap string JSON := {["count" := JNum 7]} in
  get localStorageBackend (KeyArray ["count"; "other"]) (set localStorageBackend items ∅)
    !! "count" = Some (JStr "7").
Proof.
  intros items.
  assert (Hkeys : "__proto__" ∉ ["count"; "other"]).
  { intros Hin. repeat (apply elem_of_cons in Hin as [Hin|Hin]; [discriminate|]).
    by apply elem_of_nil in Hin. }
  assert (Hk : "count" ≠ "__proto__") by discriminate.
  assert (Hprint : ∀ key v, items !! key = Some v → printable v = true).
  { intros key v Hv. apply lookup_singleton_Some in Hv as [_ <-]. reflexivity. }
  exact (proj1 (localStorage_get_after_set items ∅ ["count"; "other"] "count"
                  Hkeys Hk Hprint)).
Defined.

End StorageLaws.
(** ** util.ts: the identifiers kept in storage *)

Module IdentifierFacts.
Import BrowserStorage Util.

Section WithStorage.
Context {St : Type} (storage : StorageBackend St).

Lemma keystampWith_lid_truthy rd : truthy (JStr (keystampWith "lid" rd)) = true.
Proof. reflexivity. Qed.

(** The logger id is made once. The first call of
    [fetchDebuggingIdentifier] answers the stored [logger_id] if there is a
    truthy one, and writes nothing; otherwise it makes one, "lid-" followed
    by a key stamp, answers it and stores it under [logger_id]. It answers
    the stored [name] too if that is truthy, and nothing else. Every later
    call, whatever stamp it would make itself, writes nothing and answers
    what the first call answered. *)
Theorem fetchDebuggingIdentifier_stable (rd rd' : Readings) (st : St) :
  string_store storage →
  let result := get storage (KeyArray ["logger_id"; "name"]) st in
  let made := JStr (String.append "lid-" (keystamp rd)) in
  let first := fetchDebuggingIdentifier storage rd st in
  fetchDebuggingIdentifier storage rd' first.2 = first
  ∧ (falsy (result !! "logger_id") = false →
     getProp first.1 "logger_id" = result !! "logger_id" ∧ first.2 = st)
  ∧ (falsy (result !! "logger_id") = true →
     getProp first.1 "logger_id" = Some made
     ∧ first.2 = set storage {["logger_id" := made]} st)
  ∧ getProp first.1 "name"
    = (if falsy (result !! "name") then None else result !! "name")
  ∧ (∀ k, k ≠ "logger_id" → k ≠ "name" → getProp first.1 k = None).
Proof.
  intros [Hkeeps Hframes] result made first.
  assert (Hmade : JStr (keystampWith "lid" rd) = made) by reflexivity.
  unfold first, fetchDebuggingIdentifier. fold result. rewrite Hmade.
  assert (Hother : ∀ (v : JSON) k, k ≠ "logger_id" → k ≠ "name" →
            getProp (if negb (falsy (result !! "name"))
                     then setProp (setProp (obj []) "logger_id" v) "name"
                            (default JNull (result !! "name"))
                     else setProp (obj []) "logger_id" v) k = None).
  { intros v k Hid Hname. destruct (negb (falsy (result !! "name"))).
    - rewrite !getProp_setProp_ne by congruence. done.
    - rewrite getProp_setProp_ne by congruence. done. }
  assert (Hname : ∀ v : JSON,
            getProp (if negb (falsy (result !! "name"))
                     then setProp (setProp (obj []) "logger_id" v) "name"
                            (default JNull (result !! "name"))
                     else setProp (obj []) "logger_id" v) "name"
            = (if falsy (result !! "name") then None else result !! "name")).
  { intros v. destruct (result !! "name") as [n|]; [|done]. cbn [falsy default].
    by destruct (truthy n). }
  assert (Hlid : ∀ v : JSON,
            getProp (if negb (falsy (result !! "name"))
                     then setProp (setProp (obj []) "logger_id" v) "name"
                            (default JNull (result !! "name"))
                     else setProp (obj []) "logger_id" v) "logger_id" = Some v).
  { intros v. by destruct (negb (falsy (result !! "name"))). }
  destruct (falsy (result !! "logger_id")) eqn:Hid; cbn [negb fst snd].
  - (* nothing usable is stored: an id is made and written *)
    set (st' := set storage {["logger_id" := made]} st).
    assert (Hback : get storage (KeyArray ["logger_id"; "name"]) st' !! "logger_id"
                    = Some made).
    { apply Hkeeps. apply elem_of_cons. by left. }
    assert (Hsame : get storage (KeyArray ["logger_id"; "name"]) st' !! "name"
                    = result !! "name").
    { by apply Hframes. }
    split; [|split; [discriminate|split; [|split]]].
    + rewrite Hback, Hsame. reflexivity.
    + intros _. split; [apply Hlid|done].
    + apply Hname.
    + apply Hother.
  - (* the stored id is used *)
    fold result. rewrite Hid. cbn [negb fst snd].
    split; [done|]. split; [|split; [discriminate|split]].
    + intros _. split; [|done]. rewrite Hlid.
      by destruct (result !! "logger_id").
    + apply Hname.
    + apply Hother.
Qed.

(** [browserStampAt] with the callback run before [get] returns is the
    [browserStamp] that [timestampEvent] is modelled with *)
Lemma browserStampAt_BeforeReturn rd cached st :
  browserStampAt storage BeforeReturn rd cached st
  = (browserStamp storage rd cached st, false).
Proof.
  unfold browserStampAt, browserStamp, stampCallback.
  destruct (truthy cached); [done|].
  destruct (get storage (KeyArray [stampKey]) st !! stampKey) as [v|]; [|done].
  by destruct (truthy v).
Qed.

(** The browser stamp survives the session, but on a storage that calls
    back later the first call of a session does not know it yet. Let [kept]
    be the truthy stamp found in storage, or else the stamp the first call
    makes. On a storage that calls back before [get] returns, the first
    call of a session answers [kept] (storing it if it made it), and so
    does the first call of the next session. On a storage that calls back
    in a later task, the first call of a session answers a stamp it has
    just made, whatever is stored, and writes nothing; when the callback
    runs, the cache becomes [kept] (stored now if it was made); the next
    session begins the same way, with another fresh stamp until its
    callback brings [kept] back. With [kept] in the cache, every call
    answers it and leaves the storage alone. *)
Theorem browserStamp_persists (rd rd' : Readings) (st : St) :
  string_store storage →
  keystamp rd ≠ "" →
  let fresh := JStr (keystamp rd) in
  let found := get storage (KeyArray [stampKey]) st !! stampKey in
  let usable := match found with Some v => truthy v | None => false end in
  let kept := if usable then default JNull found else fresh in
  let st' := if usable then st else set storage {[stampKey := fresh]} st in
  truthy kept = true
  ∧ browserStampAt storage BeforeReturn rd JNull st = (kept, kept, st', false)
  ∧ browserStampAt storage BeforeReturn rd' JNull st' = (kept, kept, st', false)
  ∧ browserStampAt storage InLaterTask rd JNull st = (fresh, fresh, st, true)
  ∧ stampArrives storage fresh st = (kept, st')
  ∧ browserStampAt storage InLaterTask rd' JNull st'
    = (JStr (keystamp rd'), JStr (keystamp rd'), st', true)
  ∧ stampArrives storage (JStr (keystamp rd')) st' = (kept, st')
  ∧ ∀ time, browserStampAt storage time rd' kept st' = (kept, kept, st', false).
Proof.
  intros [Hkeeps _] Hk fresh found usable kept st'.
  assert (Hfresh : truthy fresh = true).
  { simpl. destruct (String.eqb_spec (keystamp rd) ""); done. }
  assert (Hwritten :
    get storage (KeyArray [stampKey]) (set storage {[stampKey := fresh]} st) !! stampKey
    = Some fresh).
  { apply Hkeeps. apply elem_of_cons. by left. }
  assert (Hkept : truthy kept = true).
  { unfold kept, usable. destruct found as [v|]; [|done]. by destruct (truthy v) eqn:Hv. }
  assert (Hfirst : stampCallback storage (get storage (KeyArray [stampKey]) st) fresh st
                   = (kept, st')).
  { unfold stampCallback, kept, st', usable. fold found.
    destruct found as [v|]; [|done]. by destruct (truthy v). }
  assert (Hagain : ∀ cached, stampCallback storage
                     (get storage (KeyArray [stampKey]) st') cached st' = (kept, st')).
  { intros cached. unfold stampCallback.
    assert (Hthere : get storage (KeyArray [stampKey]) st' !! stampKey = Some kept).
    { unfold st', kept, usable. fold found. destruct found as [v|] eqn:Hfound.
      - destruct (truthy v); [exact Hfound|exact Hwritten].
      - exact Hwritten. }
    by rewrite Hthere, Hkept. }
  split; [exact Hkept|].
  unfold browserStampAt, stampArrives. cbn [truthy].
  change (JStr (keystamp rd)) with fresh.
  rewrite !Hfirst, !Hagain, Hkept. repeat split.
Qed.

(** what [browserStamp] answers is truthy and is what it caches *)
Lemma browserStamp_cached rd cached st :
  keystamp rd ≠ "" →
  let r := browserStamp storage rd cached st in
  truthy r.1.1 = true ∧ r.1.2 = r.1.1.
Proof.
  intros Hk. unfold browserStamp.
  assert (Htruthy : truthy (JStr (keystamp rd)) = true).
  { simpl. destruct (String.eqb_spec (keystamp rd) ""); done. }
  destruct (truthy cached) eqn:Hc; [done|].
  destruct (get storage (KeyArray [stampKey]) st !! stampKey) as [v|]; [|done].
  destruct (truthy v) eqn:Hv; done.
Qed.

(** a verbose stamp of an object without [metadata] *)
Lemma timestampEvent_verbose rd c ps u st :
  verboseEvents u = true →
  lookupProp "metadata" ps = None →
  let r := timestampEvent storage rd (JObject c ps) u st in
  let b := browserStamp storage rd (cachedBrowserStamp u) st in
  r.1.1.1 = Returned tt
  ∧ getProp r.1.1.2 "metadata"
    = Some (obj [("iso_ts", JStr (toISOString rd)); ("ts", JNum (Date_now rd));
                 ("human_ts", JStr (Date_string rd));
                 ("sessionIndex", JNum (eventIndex u));
                 ("sessionTag", JStr (sessionStamp u));
                 ("browserTag", b.1.1)])
  ∧ r.1.2 = {| cachedBrowserStamp := b.1.2; eventIndex := (eventIndex u + 1)%Z;
               sessionStamp := sessionStamp u; verboseEvents := true |}
  ∧ r.2 = b.2.
Proof.
  intros Hv Hm. unfold timestampEvent. cbn [getProp]. rewrite Hm. cbn [falsy].
  cbn [setProp getProp]. rewrite lookup_assign_eq. cbn [obj]. rewrite Hv.
  destruct (browserStamp storage rd (cachedBrowserStamp u) st) as [[tag cached] st'].
  cbn [fst snd getProp]. rewrite assign_assign, lookup_assign_eq.
  repeat split; try done.
Qed.

(** In verbose mode the events of a session are numbered as they are
    stamped: of two events stamped one after the other, the second has the
    [sessionIndex] of the first plus one and the same [sessionTag]; both
    carry a [browserTag], and stamping the second leaves the storage
    alone. *)
Theorem timestampEvent_numbers_the_session (rd rd' : Readings) (c c' : objclass)
    (ps ps' : list (string * JSON)) (u : UtilState) (st : St) :
  verboseEvents u = true →
  keystamp rd ≠ "" →
  lookupProp "metadata" ps = None →
  lookupProp "metadata" ps' = None →
  let first := timestampEvent storage rd (JObject c ps) u st in
  let second := timestampEvent storage rd' (JObject c' ps') first.1.2 first.2 in
  ∃ m1 m2 tag1 tag2,
    getProp first.1.1.2 "metadata" = Some m1
    ∧ getProp second.1.1.2 "metadata" = Some m2
    ∧ getProp m1 "sessionIndex" = Some (JNum (eventIndex u))
    ∧ getProp m2 "sessionIndex" = Some (JNum (eventIndex u + 1))
    ∧ getProp m1 "sessionTag" = Some (JStr (sessionStamp u))
    ∧ getProp m2 "sessionTag" = Some (JStr (sessionStamp u))
    ∧ getProp m1 "browserTag" = Some tag1
    ∧ getProp m2 "browserTag" = Some tag2
    ∧ truthy tag1 = true
    ∧ truthy tag2 = true
    ∧ second.2 = first.2.
Proof.
  intros Hv Hk Hm Hm' first second.
  destruct (timestampEvent_verbose rd c ps u st Hv Hm) as (_ & Hmeta & Hu & Hst).
  fold first in Hmeta, Hu, Hst.
  destruct (browserStamp_cached rd (cachedBrowserStamp u) st Hk) as [Htag Hcache].
  set (b := browserStamp storage rd (cachedBrowserStamp u) st) in *.
  assert (Hv' : verboseEvents first.1.2 = true) by by rewrite Hu.
  destruct (timestampEvent_verbose rd' c' ps' first.1.2 first.2 Hv' Hm')
    as (_ & Hmeta' & _ & Hst').
  fold second in Hmeta', Hst'.
  assert (Hb' : browserStamp storage rd' (cachedBrowserStamp first.1.2) first.2
                = (b.1.1, b.1.1, first.2)).
  { rewrite Hu. cbn [cachedBrowserStamp]. rewrite Hcache.
    unfold browserStamp. by rewrite Htag. }
  rewrite Hb' in Hmeta', Hst'. cbn [fst snd] in Hmeta', Hst'.
  rewrite Hu in Hmeta'. cbn [eventIndex sessionStamp] in Hmeta'.
  eexists _, _, b.1.1, b.1.1. split; [exact Hmeta|]. split; [exact Hmeta'|].
  repeat split; done.
Qed.

End WithStorage.

Lemma fetchDebuggingIdentifier_stable_witness :
  string_store localStorageBackend
  ∧ fetchDebuggingIdentifier localStorageBackend LoEvent.someReadings ∅
    = (obj [("logger_id", JStr "lid-k-1767225600000")],
       {["logger_id" := "lid-k-1767225600000"]})
  ∧ (fetchDebuggingIdentifier localStorageBackend LoEvent.someReadings
       {["logger_id" := "lid-k-1767225600000"]}).1
    = obj [("logger_id", JStr "lid-k-1767225600000")].
Proof.
  split; [exact StorageLaws.localStorage_string_store|]. split; [reflexivity|].
  pose proof (proj1 (fetchDebuggingIdentifier_stable localStorageBackend
                       LoEvent.someReadings LoEvent.someReadings ∅
                       StorageLaws.localStorage_string_store)) as Hagain.
  cbv zeta in Hagain.
  change (fetchDebuggingIdentifier localStorageBackend LoEvent.someReadings ∅)
    with (obj [("logger_id", JStr "lid-k-1767225600000")],
          ({["logger_id" := "lid-k-1767225600000"]} : gmap string string)) in Hagain.
  cbn [snd] in Hagain. rewrite Hagain. reflexivity.
Defined.

Lemma browserStamp_persists_witness :
  let stored : gmap string JSON := {[stampKey := JStr "k-old"]} in
  string_store thunkStorage
  ∧ keystamp LoEvent.someReadings ≠ ""
  ∧ browserStampAt thunkStorage BeforeReturn LoEvent.someReadings JNull stored
    = (JStr "k-old", JStr "k-old", stored, false)
  ∧ browserStampAt thunkStorage InLaterTask LoEvent.someReadings JNull stored
    = (JStr "k-1767225600000", JStr "k-1767225600000", stored, true)
  ∧ stampArrives thunkStorage (JStr "k-1767225600000") stored = (JStr "k-old", stored).
Proof.
  intros stored.
  assert (Hk : keystamp LoEvent.someReadings ≠ "") by discriminate.
  split; [exact StorageLaws.thunkStorage_string_store|]. split; [exact Hk|].
  destruct (browserStamp_persists thunkStorage LoEvent.someReadings
              LoEvent.someReadings stored StorageLaws.thunkStorage_string_store Hk)
    as (_ & Hsync & _ & Hlater & Harrives & _).
  split; [exact Hsync|]. split; [exact Hlater|exact Harrives].
Defined.

Lemma timestampEvent_numbers_the_session_witness :
  let u := Util.Build_UtilState JNull 7%Z "s-1" true in
  let first := timestampEvent thunkStorage LoEvent.someReadings (obj [("event", JStr "a")])
                 u ∅ in
  let second := timestampEvent thunkStorage LoEvent.someReadings (obj [("event", JStr "b")])
                  first.1.2 first.2 in
  keystamp LoEvent.someReadings ≠ ""
  ∧ ∃ m1 m2,
      getProp first.1.1.2 "metadata" = Some m1
      ∧ getProp second.1.1.2 "metadata" = Some m2
      ∧ getProp m1 "sessionIndex" = Some (JNum 7)
      ∧ getProp m2 "sessionIndex" = Some (JNum 8).
Proof.
  intros u first second.
  assert (Hk : keystamp LoEvent.someReadings ≠ "") by discriminate.
  split; [exact Hk|].
  destruct (timestampEvent_numbers_the_session thunkStorage LoEvent.someReadings
              LoEvent.someReadings PlainObject PlainObject [("event", JStr "a")]
              [("event", JStr "b")] u ∅ eq_refl Hk eq_refl eq_refl)
    as (m1 & m2 & tag1 & tag2 & H1 & H2 & H3 & H4 & _).
  exists m1, m2. repeat split; assumption.
Defined.

End IdentifierFacts.
(** ** disabler.ts: a block and the next page load *)

Module DisablerReload.
Import BrowserStorage Disabler.
Local Open Scope Z_scope.

Lemma thunkStorage_keeps_records : keeps_records thunkStorage.
Proof.
  intros key value st. simpl. unfold thunk_set.
  rewrite (lookup_union_Some_l _ _ key value) by apply lookup_singleton_eq.
  apply lookup_singleton_eq.
Qed.

Section WithStorage.
Context {St : Type} (storage : StorageBackend St).

(** [init] reads back what [handleBlockError] wrote *)
Lemma decode_encode (d : DisablerState) :
  action d ≠ "" →
  expiration d ≠ None →
  expiration d ≠ Some 0 →
  decode (Some (encode d)) = d.
Proof.
  intros Ha He H0. destruct d as [a [e|]]; [|done]. unfold decode, encode.
  simpl in *.
  destruct (String.eqb_spec a ""); [done|].
  destruct (Z.eqb_spec e 0); [congruence|done].
Qed.

(** On a storage that hands a written record back, a block outlives the
    page: after [handleBlockError], the [init] of the next page load
    restores the action and the expiration of the block (given an action
    that is a non-empty string and an expiration other than the time 0,
    which [init] takes for none). A permanent block, then, keeps [retry]
    answering false after the reload. *)
Theorem block_survives_reload (error : BlockError) (w : World St) (now : Z) :
  keeps_records storage →
  error_action error ≠ "" →
  (timeLimit error = PERMANENT ∨ clock w + timeLimit error ≠ 0) →
  let blocked := handleBlockError storage error w in
  let next := init storage (reloaded blocked now) in
  state next = state blocked
  ∧ storeEvents next = storeEvents blocked
  ∧ (timeLimit error = PERMANENT → (retry storage next).1 = false).
Proof.
  intros Hlaw Ha Ht blocked next.
  assert (Hstate : state next = state blocked).
  { unfold next, init, reloaded, blocked, handleBlockError. cbn [state store].
    rewrite Hlaw. apply decode_encode; cbn [action expiration]; [done| |].
    - by destruct (timeLimit error =? PERMANENT).
    - destruct (Z.eqb_spec (timeLimit error) PERMANENT); [discriminate|].
      destruct Ht; congruence. }
  split; [done|]. split.
  - unfold storeEvents. by rewrite Hstate.
  - intros Hp. unfold retry. rewrite Hstate. unfold blocked, handleBlockError.
    cbn [state expiration]. rewrite Hp. simpl. done.
Qed.

End WithStorage.

(** With the wrappers around [localStorage] a block does not outlive the
    page: the record is stored as the string "[object Object]", and the
    [init] of the next page load finds no action and no expiration in it.
    Whatever the block was, a permanent one included, the next page load
    starts at the defaults: events are stored and streamed, and [retry]
    answers true. *)
Theorem block_forgotten_on_localStorage (error : BlockError)
    (w : World (gmap string string)) (now : Z) :
  let blocked := handleBlockError localStorageBackend error w in
  let next := init localStorageBackend (reloaded blocked now) in
  store blocked !! DISABLER_STORE = Some "[object Object]"%string
  ∧ state next = DEFAULTS
  ∧ storeEvents next = true
  ∧ streamEvents next = true
  ∧ (retry localStorageBackend next).1 = true.
Proof.
  intros blocked next.
  assert (Hstore : store blocked
                   = <[DISABLER_STORE := "[object Object]"%string]> (store w)).
  { unfold blocked, handleBlockError. cbn [store set localStorageBackend].
    unfold setWithCallback. by rewrite map_fold_singleton. }
  assert (Hstate : state next = DEFAULTS).
  { unfold next, init, reloaded. cbn [state store get localStorageBackend].
    rewrite Hstore. unfold getWithCallback. cbn [foldl].
    rewrite lookup_insert_eq. unfold localStorage_getItem.
    rewrite lookup_insert_eq. reflexivity. }
  split; [by rewrite Hstore, lookup_insert_eq|]. split; [done|].
  split; [unfold storeEvents; by rewrite Hstate|].
  split; [unfold streamEvents; by rewrite Hstate|].
  apply DisablerFacts.retry_resets. by rewrite Hstate.
Qed.

Lemma block_survives_reload_witness :
  let error := {| message := "opted out"; timeLimit := PERMANENT; error_action := DROP |} in
  let w := {| state := DEFAULTS; store := (∅ : gmap string JSON); clock := 1000;
              writes := 0%nat |} in
  keeps_records thunkStorage
  ∧ state (init thunkStorage (reloaded (handleBlockError thunkStorage error w) 2000))
    = {| action := DROP; expiration := Some PERMANENT |}
  ∧ (retry thunkStorage
       (init thunkStorage (reloaded (handleBlockError thunkStorage error w) 2000))).1
    = false.
Proof.
  intros error w. split; [exact thunkStorage_keeps_records|].
  destruct (block_survives_reload thunkStorage error w 2000 thunkStorage_keeps_records
              ltac:(discriminate) (or_introl eq_refl)) as (Hstate & _ & Hretry).
  split; [exact Hstate | exact (Hretry eq_refl)].
Defined.

End DisablerReload.
(** ** queue.ts and indexeddbQueue.ts: whatever the order of events *)

Module IndexeddbQueueConservation.
Import IndexeddbQueue IndexeddbQueueFacts IndexeddbQueueOrder.

Ltac orderly_fields q :=
  destruct q as [db ops parked yld nip res rows reqs cnt];
  unfold orderly, dequeues, inflight, operations,
    enqueue, dequeue, addItemToDBOperationQueue, occurs, onsuccess,
    processOperation, requestSucceeds, dbOperationDispatch, addItemToDB,
    nextItemFromDB in *; simpl in *.

Ltac settle_rest :=
  repeat split; try done; try lia; try (intuition (congruence || lia)).

Ltac settle_perm := count_norm; split; [solve_Permutation | settle_rest].

Lemma enqueue_perm (item : JSON) (q : Queue) :
  orderly q →
  inflight (enqueue item q) ≡ₚ inflight q ++ [item]
  ∧ orderly (enqueue item q)
  ∧ dequeues (enqueue item q) = dequeues q.
Proof.
  orderly_fields q. intros (Hd & Hp).
  destruct parked; simpl.
  - pose proof (Hp eq_refl) as Hops. apply app_eq_nil in Hops as [Hy ->].
    destruct yld; [done|]. simpl in *. settle_perm.
  - settle_perm.
Qed.

Lemma dequeue_perm (q : Queue) :
  orderly q →
  dequeues q = 0 →
  inflight (dequeue q) ≡ₚ inflight q
  ∧ orderly (dequeue q)
  ∧ dequeues (dequeue q) = 1.
Proof.
  orderly_fields q. intros (Hd & Hp) Hz.
  destruct parked; simpl.
  - pose proof (Hp eq_refl) as Hops. apply app_eq_nil in Hops as [Hy ->].
    destruct yld; [done|]. simpl in *. settle_perm.
  - settle_perm.
Qed.

Lemma awaited_perm (q : Queue) (item : JSON) :
  resolved q = Some item →
  orderly q →
  inflight q = item :: inflight (set_resolved None q)
  ∧ orderly (set_resolved None q)
  ∧ dequeues (set_resolved None q) = 0.
Proof.
  orderly_fields q. intros -> (Hd & Hp). simpl in *. count_norm. settle_rest.
Qed.

Lemma process_perm (q : Queue) :
  orderly q →
  inflight (processOperation q) ≡ₚ inflight q
  ∧ orderly (processOperation q)
  ∧ dequeues (processOperation q) = dequeues q.
Proof.
  orderly_fields q. intros (Hd & Hp).
  destruct db; simpl in *; [|settle_perm].
  destruct yld as [[p|]|]; simpl in *.
  - destruct nip; simpl in *.
    + destruct res; simpl in *; [lia|]. settle_perm.
    + settle_perm.
  - settle_perm.
  - destruct parked; simpl in *; [settle_perm|].
    destruct ops as [|[p|] rest]; simpl in *.
    + settle_perm.
    + destruct nip; simpl in *.
      * destruct res; simpl in *; [lia|]. settle_perm.
      * settle_perm.
    + settle_perm.
Qed.

Lemma request_perm (q : Queue) :
  orderly q →
  inflight (requestSucceeds q) ≡ₚ inflight q
  ∧ orderly (requestSucceeds q)
  ∧ dequeues (requestSucceeds q) = dequeues q.
Proof.
  orderly_fields q. intros (Hd & Hp).
  destruct reqs as [|[p|] rest]; simpl in *; [settle_perm| |].
  - settle_perm.
  - destruct rows as [|item others]; simpl in *.
    + destruct nip; simpl in *; [count_norm; lia|]. settle_perm.
    + destruct res; simpl in *; [count_norm; lia|]. settle_perm.
Qed.

Lemma occurs_perm (e : backend_event) (q : Queue) :
  orderly q →
  inflight (occurs e q) ≡ₚ inflight q
  ∧ orderly (occurs e q)
  ∧ dequeues (occurs e q) = dequeues q.
Proof.
  intros Ho. destruct e.
  - by orderly_fields q.
  - by apply process_perm.
  - by apply request_perm.
Qed.

End IndexeddbQueueConservation.

Module QueueConservation.
Import Queue QueueFacts QueueDelivery.

Lemma nonnull_perm (l1 l2 : list JSON) : l1 ≡ₚ l2 → nonnull l1 ≡ₚ nonnull l2.
Proof.
  induction 1 as [|x l1 l2 _ IH|x y l|l1 l2 l3 _ IH1 _ IH2]; simpl.
  - done.
  - destruct (negb (is_null x)); [by constructor|done].
  - destruct (negb (is_null x)), (negb (is_null y)); try done. apply perm_swap.
  - by etrans.
Qed.

Lemma single_consumer_new indexedDB rows :
  ∃ q, new PERSISTENT indexedDB rows = Returned q
       ∧ single_consumer q
       ∧ held q = nonnull rows.
Proof.
  eexists. split; [reflexivity|]. split.
  - eexists. split; [reflexivity|].
    split; [split; [vm_compute; lia|done]|]. split; [reflexivity|done].
  - unfold held. simpl. unfold IndexeddbQueue.inflight. simpl. by rewrite app_nil_r.
Qed.

Section Loop.
Context {H : Type} (config : DequeueLoopConfig H).

Lemma single_consumer_enqueue item q :
  single_consumer q →
  held (enqueue item q) ≡ₚ held q ++ nonnull [item]
  ∧ single_consumer (enqueue item q).
Proof.
  intros (b & Hq & Ho & Hd & Hrun).
  destruct (IndexeddbQueueConservation.enqueue_perm item b Ho) as (Hperm & Ho' & Hd').
  destruct q as [bq run lp cs rp]. simpl in *. subst bq.
  unfold held, enqueue. simpl. split.
  - rewrite (nonnull_perm _ _ Hperm), nonnull_app. by rewrite app_assoc.
  - eexists. split; [reflexivity|]. simpl. by rewrite Hd'.
Qed.

Lemma single_consumer_occurs e q :
  single_consumer q →
  held (set_queue (backend_occurs e (queue q)) q) ≡ₚ held q
  ∧ single_consumer (set_queue (backend_occurs e (queue q)) q).
Proof.
  intros (b & Hq & Ho & Hd & Hrun).
  destruct (IndexeddbQueueConservation.occurs_perm e b Ho) as (Hperm & Ho' & Hd').
  destruct q as [bq run lp cs rp]. simpl in *. subst bq.
  unfold held. simpl. split.
  - by rewrite (nonnull_perm _ _ Hperm).
  - eexists. split; [reflexivity|]. simpl. by rewrite Hd'.
Qed.

(** a turn of the loop that starts with no dequeue under way *)
Lemma single_consumer_iteration q h :
  (∃ b, queue q = Persistent b ∧ IndexeddbQueue.orderly b
        ∧ IndexeddbQueue.dequeues b = 0) →
  startDequeueLoop_run q = true →
  let r := iteration config (q, h) in
  held r.1 ≡ₚ held q ∧ single_consumer r.1.
Proof.
  intros (b & Hq & Ho & Hd) Hrun r.
  destruct (iteration_fields config (q, h)) as (Hc & Hr & _ & Hcase).
  fold r in Hc, Hr, Hcase. simpl in Hc, Hr, Hcase.
  unfold held. rewrite Hc.
  destruct Hcase as [(Hl & Hqueue & _)|(Hl & Hqueue & _)]; rewrite Hqueue, Hq.
  - destruct (IndexeddbQueueConservation.dequeue_perm b Ho Hd) as (Hperm & Ho' & Hd').
    simpl. split; [by rewrite (nonnull_perm _ _ Hperm)|].
    eexists. split; [by rewrite Hqueue, Hq|]. rewrite Hl, Hr, Hrun.
    split; [exact Ho'|]. split; [exact Hd'|]. split; discriminate.
  - split; [done|].
    eexists. split; [by rewrite Hqueue, Hq|]. rewrite Hl, Hr, Hrun, Hd.
    split; [exact Ho|]. split; [done|]. split; discriminate.
Qed.

Lemma single_consumer_start qh :
  single_consumer qh.1 →
  held (startDequeueLoop config qh).2.1 ≡ₚ held qh.1
  ∧ single_consumer (startDequeueLoop config qh).2.1.
Proof.
  intros (b & Hq & Ho & Hd & Hrun).
  unfold startDequeueLoop, Util.once.
  destruct (startDequeueLoop_run qh.1) eqn:Hflag; simpl.
  - assert (Hsame : set_startDequeueLoop_run true qh.1 = qh.1).
    { destruct qh as [[bq run lp cs rp] h]. simpl in *. by subst. }
    rewrite Hsame. split; [done|]. exists b. by rewrite Hflag.
  - assert (Hl : loop qh.1 = NotStarted) by by apply Hrun.
    rewrite Hl in Hd.
    unfold startDequeueLoop_body.
    set (q1 := set_startDequeueLoop_run true qh.1).
    assert (Hheld : held q1 = held qh.1) by by destruct qh as [[] h].
    assert (Hq1 : ∃ b, queue q1 = Persistent b ∧ IndexeddbQueue.orderly b
                       ∧ IndexeddbQueue.dequeues b = 0).
    { exists b. by destruct qh as [[] h]. }
    simpl.
    destruct (initialize config qh.2) as [[[|]|e] h'].
    + rewrite <- Hheld. by apply single_consumer_iteration.
    + unfold terminate, report. simpl. split; [by rewrite <- Hheld|].
      exists b. destruct qh as [[bq run lp cs rp] h]. simpl in *. subst.
      split; [done|]. split; [exact Ho|]. split; [done|]. split; discriminate.
    + unfold terminate, report. simpl. split; [by rewrite <- Hheld|].
      exists b. destruct qh as [[bq run lp cs rp] h]. simpl in *. subst.
      split; [done|]. split; [exact Ho|]. split; [done|]. split; discriminate.
Qed.

Lemma single_consumer_resume qh :
  single_consumer qh.1 →
  held (resume config qh).1 ≡ₚ held qh.1 ∧ single_consumer (resume config qh).1.
Proof.
  intros Hs. pose proof Hs as (b & Hq & Ho & Hd & Hrun).
  destruct (loop qh.1) eqn:Hl; try (rewrite resume_idle; [done|left; congruence]).
  destruct (backend_resolved (queue qh.1)) as [item|] eqn:Hr;
    [|rewrite resume_idle; [done|by right]].
  rewrite (resume_with config qh item Hl Hr).
  rewrite Hq in Hr. simpl in Hr.
  destruct (IndexeddbQueueConservation.awaited_perm b item Hr Ho) as (Hin & Ho' & Hd').
  set (q1 := set_queue (backend_awaited (queue qh.1)) qh.1).
  destruct (process_fields config item (q1, qh.2)) as (Hpq & Hpl & Hpr & Hpc).
  set (p := process config item (q1, qh.2)) in *. cbn [fst snd] in Hpq, Hpl, Hpr, Hpc.
  assert (Hflag : startDequeueLoop_run qh.1 = true).
  { destruct (startDequeueLoop_run qh.1) eqn:Hf; [done|].
    assert (AwaitingDequeue = NotStarted) by by apply Hrun. discriminate. }
  assert (Hq1 : queue q1 = Persistent (IndexeddbQueue.set_resolved None b)).
  { unfold q1. simpl. by rewrite Hq. }
  assert (Hheld : held p.1 ≡ₚ held qh.1).
  { unfold held. rewrite Hpc, Hpq, Hq1, Hq. cbn [backend_inflight].
    rewrite Hin. change (calls q1) with (calls qh.1).
    rewrite (QueueOrder.nonnull_cons item
               (IndexeddbQueue.inflight (IndexeddbQueue.set_resolved None b))).
    by rewrite <- app_assoc. }
  destruct (single_consumer_iteration p.1 p.2) as [Hperm Hs'].
  - exists (IndexeddbQueue.set_resolved None b). by rewrite Hpq, Hq1.
  - rewrite Hpr. exact Hflag.
  - replace (p.1, p.2) with p in * by by destruct p.
    split; [by rewrite Hperm|done].
Qed.

Lemma single_consumer_step qh ev :
  single_consumer qh.1 →
  held (step config qh ev).1 ≡ₚ held qh.1 ++ nonnull (enqueued [ev])
  ∧ single_consumer (step config qh ev).1.
Proof.
  intros Hs. destruct ev as [item| | |e]; simpl; rewrite ?app_nil_r.
  - by apply single_consumer_enqueue.
  - by apply single_consumer_start.
  - by apply single_consumer_resume.
  - by apply single_consumer_occurs.
Qed.

Lemma single_consumer_run evs : ∀ qh,
  single_consumer qh.1 →
  held (run config evs qh).1 ≡ₚ held qh.1 ++ nonnull (enqueued evs)
  ∧ single_consumer (run config evs qh).1.
Proof.
  induction evs as [|ev evs IH]; intros qh Hs.
  - simpl. by rewrite app_nil_r.
  - change (run config (ev :: evs) qh) with (run config evs (step config qh ev)).
    destruct (single_consumer_step qh ev Hs) as [Hperm Hs'].
    destruct (IH _ Hs') as [Hperm' Hs''].
    split; [|done]. rewrite Hperm', Hperm.
    change (ev :: evs) with ([ev] ++ evs).
    rewrite enqueued_app, nonnull_app, app_assoc. done.
Qed.

End Loop.

(** Nothing is lost and nothing is delivered twice, whatever the order of
    events and whatever the callbacks do: on a queue with the persistent
    backend, made by [new Queue], at every moment the items [onDequeue]
    has been invoked with, together with the non-null items the backend
    still holds (handed to the loop, in the store, being added, or waiting
    as operations), are, up to their order, the non-null items that were in
    the store at first or have been passed to [enqueue] since. This holds
    also when an enqueue is dispatched while a cursor request is in
    flight, where the order of delivery is not kept. *)
Theorem no_item_lost_or_duplicated {H : Type} (config : DequeueLoopConfig H)
    (indexedDB : bool) (rows : list JSON) (h : H) (evs : list event) :
  ∃ q, new PERSISTENT indexedDB rows = Returned q
       ∧ let now := run config evs (q, h) in
         calls now.1 ++ nonnull (backend_inflight (queue now.1))
         ≡ₚ nonnull (rows ++ enqueued evs).
Proof.
  destruct (single_consumer_new indexedDB rows) as (q & Hnew & Hs & Hheld).
  exists q. split; [exact Hnew|]. intros now.
  destruct (single_consumer_run config evs (q, h) Hs) as [Hperm _].
  fold now in Hperm. unfold held in Hperm at 1. rewrite Hperm. simpl.
  by rewrite Hheld, nonnull_app.
Qed.

End QueueConservation.
(** ** queue.ts: where the loop does not run *)

Module QueueStops.
Import Queue QueueFacts QueueDelivery.

(** For a queue type that is a string and no name inherited from
    [Object.prototype]: [new Queue] throws exactly when it is none of the
    three, and the backend is the persistent one exactly when that is asked
    for, or left to [AUTODETECT] where there is an [indexedDB]. *)
Theorem new_queue_backend (queueType : string) (indexedDB : bool) (rows : list JSON) :
  queueType ∉ inheritedNames →
  (new queueType indexedDB rows = Thrown invalidQueueType
   ↔ queueType ∉ [AUTODETECT; IN_MEMORY; PERSISTENT])
  ∧ (∀ q, new queueType indexedDB rows = Returned q →
       ((∃ b, queue q = Persistent b)
        ↔ queueType = PERSISTENT ∨ queueType = AUTODETECT ∧ indexedDB = true)
       ∧ ((∃ b, queue q = InMemory b)
          ↔ queueType = IN_MEMORY ∨ queueType = AUTODETECT ∧ indexedDB = false)).
Proof.
  intros _.
  assert (Hin : ∀ t, t ∈ [AUTODETECT; IN_MEMORY; PERSISTENT]
                     ↔ t = AUTODETECT ∨ t = IN_MEMORY ∨ t = PERSISTENT).
  { intros t. rewrite !elem_of_cons, elem_of_nil. intuition. }
  unfold new, queueClasses, autodetect.
  destruct (String.eqb_spec queueType AUTODETECT) as [->|Hauto].
  - split; [split; [by destruct indexedDB|intros Hn; exfalso; apply Hn, Hin; auto]|].
    intros q. destruct indexedDB; simpl; intros [= <-]; simpl;
      (split; split;
       [intros [? ?]; (discriminate || auto)
       |intros [?|[? ?]]; (discriminate || eauto)
       |intros [? ?]; (discriminate || auto)
       |intros [?|[? ?]]; (discriminate || eauto)]).
  - destruct (String.eqb_spec queueType IN_MEMORY) as [->|Hmem].
    + split; [split; [discriminate|intros Hn; exfalso; apply Hn, Hin; auto]|].
      intros q [= <-]. simpl.
      split; split;
        [intros [? ?]; (discriminate || auto)
        |intros [?|[? ?]]; (discriminate || eauto)
        |intros [? ?]; (discriminate || auto)
        |intros [?|[? ?]]; (discriminate || eauto)].
    + destruct (String.eqb_spec queueType PERSISTENT) as [->|Hper].
      * split; [split; [discriminate|intros Hn; exfalso; apply Hn, Hin; auto]|].
        intros q [= <-]. simpl.
        split; split;
          [intros [? ?]; (discriminate || auto)
          |intros [?|[? ?]]; (discriminate || eauto)
          |intros [? ?]; (discriminate || auto)
          |intros [?|[? ?]]; (discriminate || eauto)].
      * split; [|discriminate]. split; [|done].
        intros _ Hn. apply Hin in Hn. intuition.
Qed.

Section Loop.
Context {H : Type} (config : DequeueLoopConfig H).

(** *** A loop that has ended *)

Lemma terminated_step qh ev :
  loop qh.1 = Terminated →
  startDequeueLoop_run qh.1 = true →
  let r := step config qh ev in
  loop r.1 = Terminated ∧ startDequeueLoop_run r.1 = true
  ∧ calls r.1 = calls qh.1 ∧ reported r.1 = reported qh.1 ∧ r.2 = qh.2.
Proof.
  intros Hl Hrun. destruct ev as [item| | |e]; simpl.
  - by destruct qh as [[] h].
  - unfold startDequeueLoop, Util.once. rewrite Hrun. simpl.
    by destruct qh as [[] h].
  - rewrite resume_idle; [done|]. left. congruence.
  - by destruct qh as [[] h].
Qed.

Lemma terminated_run evs : ∀ qh,
  loop qh.1 = Terminated →
  startDequeueLoop_run qh.1 = true →
  let r := run config evs qh in
  loop r.1 = Terminated
  ∧ calls r.1 = calls qh.1 ∧ reported r.1 = reported qh.1 ∧ r.2 = qh.2.
Proof.
  induction evs as [|ev evs IH]; intros qh Hl Hrun; [done|].
  change (run config (ev :: evs) qh) with (run config evs (step config qh ev)).
  destruct (terminated_step qh ev Hl Hrun) as (Hl' & Hrun' & Hc & Hr & Hh).
  destruct (IH _ Hl' Hrun') as (? & Hc' & Hr' & Hh').
  cbv zeta. rewrite Hc', Hr', Hh'. done.
Qed.

(** When [shouldDequeue] answers false, or throws, the loop ends for good:
    [onError] is called once, with the message "Not allowed to start
    dequeueing" and the fault (the loop's own error for the answer false),
    no dequeue is asked of the backend, and from then on, whatever is
    enqueued and whatever else happens, [onDequeue] is not invoked any
    more, nothing more is reported and no callback runs again. *)
Theorem refused_dequeue_stops_the_loop (q : Queue) (h h' : H) (answer : outcome bool)
    (evs : list event) :
  startDequeueLoop_run q = true →
  shouldDequeue config h = (answer, h') →
  answer ≠ Returned true →
  let message := "QUEUE ERROR: Not allowed to start dequeueing" in
  let error := match answer with
               | Thrown e => e
               | Returned _ => ErrorExn "QUEUE ERROR: Dequeue streaming returned false."
               end in
  let stopped := iteration config (q, h) in
  let later := run config evs stopped in
  loop stopped.1 = Terminated
  ∧ queue stopped.1 = queue q
  ∧ reported stopped.1 = reported q ++ [(message, error)]
  ∧ stopped.2 = onError config message error h'
  ∧ loop later.1 = Terminated
  ∧ calls later.1 = calls q
  ∧ reported later.1 = reported stopped.1
  ∧ later.2 = stopped.2.
Proof.
  intros Hrun Hanswer Hne message error stopped later.
  assert (Hstopped : stopped
    = terminate (report config message error (q, h'))).
  { unfold stopped, iteration. cbn [fst snd]. rewrite Hanswer.
    destruct answer as [[|]|e]; done. }
  assert (Hfields : loop stopped.1 = Terminated ∧ queue stopped.1 = queue q
                    ∧ reported stopped.1 = reported q ++ [(message, error)]
                    ∧ stopped.2 = onError config message error h'
                    ∧ calls stopped.1 = calls q
                    ∧ startDequeueLoop_run stopped.1 = true).
  { rewrite Hstopped. unfold terminate, report. simpl. by destruct q. }
  destruct Hfields as (Hl & Hq & Hr & Hh & Hc & Hrun').
  destruct (terminated_run evs stopped Hl Hrun') as (Hl' & Hc' & Hr' & Hh').
  fold later in Hl', Hc', Hr', Hh'.
  repeat split; try done. by rewrite Hc'.
Qed.

(** When [initialize] answers false, or throws, the loop never runs:
    [startDequeueLoop] returns, [onError] has been called once, with the
    message "Failure to initialize before starting dequeue loop" and the
    fault, [shouldDequeue] is not asked and no dequeue is asked of the
    backend; from then on nothing is ever handed to [onDequeue]. *)
Theorem failed_initialize_stops_the_loop (q : Queue) (h h' : H) (answer : outcome bool)
    (evs : list event) :
  startDequeueLoop_run q = false →
  initialize config h = (answer, h') →
  answer ≠ Returned true →
  let message := "QUEUE ERROR: Failure to initialize before starting dequeue loop" in
  let error := match answer with
               | Thrown e => e
               | Returned _ =>
                   ErrorExn "QUEUE ERROR: Initialization function returned false."
               end in
  let started := startDequeueLoop config (q, h) in
  let later := run config evs started.2 in
  started.1 = Returned tt
  ∧ loop started.2.1 = Terminated
  ∧ queue started.2.1 = queue q
  ∧ reported started.2.1 = reported q ++ [(message, error)]
  ∧ started.2.2 = onError config message error h'
  ∧ loop later.1 = Terminated
  ∧ calls later.1 = calls q
  ∧ reported later.1 = reported started.2.1
  ∧ later.2 = started.2.2.
Proof.
  intros Hrun Hanswer Hne message error started later.
  assert (Hstarted : started
    = (Returned tt,
       terminate (report config message error (set_startDequeueLoop_run true q, h')))).
  { unfold started, startDequeueLoop, Util.once. cbn [fst snd]. rewrite Hrun.
    cbn [negb]. unfold startDequeueLoop_body. cbn [fst snd]. rewrite Hanswer.
    destruct answer as [[|]|e]; done. }
  assert (Hfields : started.1 = Returned tt
                    ∧ loop started.2.1 = Terminated ∧ queue started.2.1 = queue q
                    ∧ reported started.2.1 = reported q ++ [(message, error)]
                    ∧ started.2.2 = onError config message error h'
                    ∧ calls started.2.1 = calls q
                    ∧ startDequeueLoop_run started.2.1 = true).
  { rewrite Hstarted. unfold terminate, report. simpl. by destruct q. }
  destruct Hfields as (Hret & Hl & Hq & Hr & Hh & Hc & Hrun').
  destruct (terminated_run evs started.2 Hl Hrun') as (Hl' & Hc' & Hr' & Hh').
  fold later in Hl', Hc', Hr', Hh'.
  repeat split; try done. by rewrite Hc'.
Qed.

(** *** A persistent backend where there is no [indexedDB] *)

Lemma never_opened_step qh ev (acc : list JSON) :
  ev ≠ BackendEvent IndexeddbQueue.DbOpens →
  (∃ b, queue qh.1 = Persistent b
        ∧ IndexeddbQueue.db b = false ∧ IndexeddbQueue.yielded b = None
        ∧ IndexeddbQueue.nextDBOperationPromise b = false
        ∧ IndexeddbQueue.requests b = [] ∧ IndexeddbQueue.resolved b = None
        ∧ IndexeddbQueue.addCount b = 0
        ∧ IndexeddbQueue.payloads (IndexeddbQueue.dbOperationQueue b) = acc)
  ∧ calls qh.1 = [] →
  (∃ b, queue (step config qh ev).1 = Persistent b
        ∧ IndexeddbQueue.db b = false ∧ IndexeddbQueue.yielded b = None
        ∧ IndexeddbQueue.nextDBOperationPromise b = false
        ∧ IndexeddbQueue.requests b = [] ∧ IndexeddbQueue.resolved b = None
        ∧ IndexeddbQueue.addCount b = 0
        ∧ IndexeddbQueue.payloads (IndexeddbQueue.dbOperationQueue b)
          = acc ++ enqueued [ev])
  ∧ calls (step config qh ev).1 = [].
Proof.
  intros Hev [(b & Hq & Hdb & Hy & Hp & Hreq & Hres & Hcnt & Hops) Hcalls].
  assert (Hdeq : ∀ b', b' = b →
    ∃ b2, backend_dequeue (Persistent b') = Persistent b2
          ∧ IndexeddbQueue.db b2 = false ∧ IndexeddbQueue.yielded b2 = None
          ∧ IndexeddbQueue.nextDBOperationPromise b2 = false
          ∧ IndexeddbQueue.requests b2 = [] ∧ IndexeddbQueue.resolved b2 = None
          ∧ IndexeddbQueue.addCount b2 = 0
          ∧ IndexeddbQueue.payloads (IndexeddbQueue.dbOperationQueue b2) = acc).
  { intros b' ->. eexists. split; [reflexivity|].
    unfold IndexeddbQueue.dequeue, IndexeddbQueue.addItemToDBOperationQueue.
    rewrite Hp. simpl. rewrite IndexeddbQueueFacts.payloads_app, Hops. simpl.
    by rewrite app_nil_r. }
  destruct ev as [item| | |e]; simpl.
  - split; [|by destruct qh as [[] h]].
    exists (IndexeddbQueue.enqueue item b). split.
    { destruct qh as [[bq run lp cs rp] h]. simpl in *. by subst. }
    unfold IndexeddbQueue.enqueue, IndexeddbQueue.addItemToDBOperationQueue.
    rewrite Hp. simpl. rewrite IndexeddbQueueFacts.payloads_app, Hops. done.
  - rewrite app_nil_r. unfold startDequeueLoop, Util.once.
    destruct (startDequeueLoop_run qh.1) eqn:Hrun; simpl.
    + split; [|by destruct qh as [[] h]].
      exists b. split; [by destruct qh as [[] h]|done].
    + destruct (body_fields config (set_startDequeueLoop_run true qh.1, qh.2))
        as (Hc & _ & Hcase).
      rewrite Hc. split; [|by destruct qh as [[] h]].
      destruct Hcase as [[_ ->]|[_ ->]].
      * destruct (Hdeq b eq_refl) as (b2 & Hb2 & Hrest).
        exists b2. split; [|done].
        destruct qh as [[bq run lp cs rp] h]. simpl in *. by subst.
      * exists b. split; [by destruct qh as [[] h]|done].
  - rewrite app_nil_r. rewrite resume_idle.
    + split; [|done]. by exists b.
    + right. by rewrite Hq.
  - rewrite app_nil_r. split; [|by destruct qh as [[] h]].
    exists b. split; [|done].
    assert (Hsame : IndexeddbQueue.occurs e b = b).
    { destruct e; [done| |].
      - unfold IndexeddbQueue.occurs, IndexeddbQueue.processOperation. by rewrite Hdb.
      - unfold IndexeddbQueue.occurs, IndexeddbQueue.requestSucceeds. by rewrite Hreq. }
    destruct qh as [[bq run lp cs rp] h]. simpl in *. subst. simpl. by rewrite Hsame.
Qed.

Lemma never_opened_run evs : ∀ qh (acc : list JSON),
  BackendEvent IndexeddbQueue.DbOpens ∉ evs →
  (∃ b, queue qh.1 = Persistent b
        ∧ IndexeddbQueue.db b = false ∧ IndexeddbQueue.yielded b = None
        ∧ IndexeddbQueue.nextDBOperationPromise b = false
        ∧ IndexeddbQueue.requests b = [] ∧ IndexeddbQueue.resolved b = None
        ∧ IndexeddbQueue.addCount b = 0
        ∧ IndexeddbQueue.payloads (IndexeddbQueue.dbOperationQueue b) = acc)
  ∧ calls qh.1 = [] →
  (∃ b, queue (run config evs qh).1 = Persistent b
        ∧ IndexeddbQueue.db b = false ∧ IndexeddbQueue.yielded b = None
        ∧ IndexeddbQueue.nextDBOperationPromise b = false
        ∧ IndexeddbQueue.requests b = [] ∧ IndexeddbQueue.resolved b = None
        ∧ IndexeddbQueue.addCount b = 0
        ∧ IndexeddbQueue.payloads (IndexeddbQueue.dbOperationQueue b)
          = acc ++ enqueued evs)
  ∧ calls (run config evs qh).1 = [].
Proof.
  induction evs as [|ev evs IH]; intros qh acc Hno Hinv.
  - simpl. by rewrite app_nil_r.
  - change (run config (ev :: evs) qh) with (run config evs (step config qh ev)).
    apply not_elem_of_cons in Hno as [Hev Hno].
    pose proof (never_opened_step qh ev acc (not_eq_sym Hev) Hinv) as Hstep.
    pose proof (IH _ _ Hno Hstep) as Hrun.
    change (ev :: evs) with ([ev] ++ evs). rewrite enqueued_app, app_assoc. exact Hrun.
Qed.

End Loop.

(** Asked for the persistent backend where there is no [indexedDB],
    [new Queue] does not throw: the fault of [initialize()] rejects a
    promise that nobody awaits. The queue that results never works: the
    database never opens, so whatever is enqueued stays in the list of
    pending operations in memory, no request reaches a store, and nothing
    is ever handed to [onDequeue], whether the loop is started or not. *)
Theorem persistent_without_indexedDB {H : Type} (config : DequeueLoopConfig H)
    (rows : list JSON) (h : H) (evs : list event) :
  possible false evs →
  ∃ q, new PERSISTENT false rows = Returned q
       ∧ let now := run config evs (q, h) in
         calls now.1 = []
         ∧ ∃ b, queue now.1 = Persistent b
                ∧ IndexeddbQueue.db b = false
                ∧ IndexeddbQueue.requests b = []
                ∧ IndexeddbQueue.addCount b = 0
                ∧ IndexeddbQueue.payloads (IndexeddbQueue.dbOperationQueue b)
                  = enqueued evs.
Proof.
  intros Hpossible.
  assert (Hno : BackendEvent IndexeddbQueue.DbOpens ∉ evs)
    by (apply Hpossible; discriminate).
  eexists. split; [reflexivity|]. intros now.
  destruct (never_opened_run config evs
              ({| queue := Persistent (IndexeddbQueue.new rows);
                  startDequeueLoop_run := false; loop := NotStarted;
                  calls := []; reported := [] |}, h) [] Hno)
    as [(b & Hq & Hdb & _ & _ & Hreq & _ & Hcnt & Hops) Hcalls].
  { split; [|done]. eexists. split; [reflexivity|]. repeat split. }
  split; [exact Hcalls|]. exists b. repeat split; done.
Qed.

(** An item enqueued while the read of an empty store is in flight is
    overtaken: the dequeue parks although the item is on its way into the
    store, the next item enqueued is handed to the parked dequeue past the
    store, and the first item is delivered after it. For any two non-null
    items [a] and [b] enqueued in this order there is such a course of
    events, after which [onDequeue] has been invoked with [b], then
    [a]. *)
Theorem enqueue_during_read_is_overtaken (a b : JSON) :
  a ≠ JNull →
  b ≠ JNull →
  let now := run acceptingConfig (overtaking a b) (emptyPersistent, tt) in
  let final := run acceptingConfig (settle acceptingConfig now) now in
  enqueued (overtaking a b ++ settle acceptingConfig now) = [a; b]
  ∧ race_free acceptingConfig (overtaking a b) (emptyPersistent, tt) = false
  ∧ next_event final.1 = None
  ∧ backend_inflight (queue final.1) = []
  ∧ calls final.1 = [b; a].
Proof.
  intros Ha Hb.
  destruct a as [| | | |]; try done; destruct b as [| | | |]; try done;
    vm_compute; repeat split.
Qed.

Lemma new_queue_backend_witness :
  ("SQLITE" ∉ inheritedNames)
  ∧ new "SQLITE" true [] = Thrown invalidQueueType
  ∧ ∃ q, new AUTODETECT true [] = Returned q ∧ ∃ b, queue q = Persistent b.
Proof.
  assert (Hn : "SQLITE" ∉ inheritedNames).
  { intros Hin. repeat (apply elem_of_cons in Hin as [Hin|Hin]; [discriminate|]).
    by apply elem_of_nil in Hin. }
  assert (Ha : AUTODETECT ∉ inheritedNames).
  { intros Hin. repeat (apply elem_of_cons in Hin as [Hin|Hin]; [discriminate|]).
    by apply elem_of_nil in Hin. }
  split; [exact Hn|]. split.
  - destruct (new_queue_backend "SQLITE" true [] Hn) as [[_ Hthrows] _].
    apply Hthrows. intros Hin.
    repeat (apply elem_of_cons in Hin as [Hin|Hin]; [discriminate|]).
    by apply elem_of_nil in Hin.
  - destruct (new_queue_backend AUTODETECT true [] Ha) as [_ Hbackend].
    eexists. split; [reflexivity|].
    apply (Hbackend _ eq_refl). right. by split.
Defined.

Lemma refused_dequeue_stops_the_loop_witness :
  let q := set_startDequeueLoop_run true emptyPersistent in
  let stopped := iteration twoTurnsConfig (q, 2) in
  let later := run twoTurnsConfig (BackendEvent IndexeddbQueue.DbOpens :: everyChance)
                 stopped in
  startDequeueLoop_run q = true
  ∧ shouldDequeue twoTurnsConfig 2 = (Returned false, 3)
  ∧ loop later.1 = Terminated
  ∧ calls later.1 = []
  ∧ reported later.1
    = [("QUEUE ERROR: Not allowed to start dequeueing",
        ErrorExn "QUEUE ERROR: Dequeue streaming returned false.")].
Proof.
  intros q stopped later.
  destruct (refused_dequeue_stops_the_loop twoTurnsConfig q 2 3 (Returned false)
              (BackendEvent IndexeddbQueue.DbOpens :: everyChance)
              eq_refl eq_refl ltac:(discriminate))
    as (_ & _ & Hr & _ & Hl & Hc & Hr' & _).
  split; [reflexivity|]. split; [reflexivity|].
  split; [exact Hl|]. split; [exact Hc|].
  etrans; [exact Hr'|exact Hr].
Defined.

Lemma failed_initialize_stops_the_loop_witness :
  let started := startDequeueLoop uninitializedConfig (emptyPersistent, 0) in
  let later := run uninitializedConfig (BackendEvent IndexeddbQueue.DbOpens :: everyChance)
                 started.2 in
  startDequeueLoop_run emptyPersistent = false
  ∧ initialize uninitializedConfig 0 = (Returned false, 0)
  ∧ started.1 = Returned tt
  ∧ loop later.1 = Terminated
  ∧ calls later.1 = []
  ∧ later.2 = 1.
Proof.
  intros started later.
  destruct (failed_initialize_stops_the_loop uninitializedConfig emptyPersistent 0 0
              (Returned false) (BackendEvent IndexeddbQueue.DbOpens :: everyChance)
              eq_refl eq_refl ltac:(discriminate))
    as (Hret & _ & _ & _ & Hh & Hl & Hc & _ & Hh').
  split; [reflexivity|]. split; [reflexivity|].
  split; [exact Hret|]. split; [exact Hl|]. split; [exact Hc|].
  etrans; [exact Hh'|exact Hh].
Defined.

Lemma everyChance_possible : possible false everyChance.
Proof.
  intros _ Hin. unfold everyChance in Hin.
  repeat (apply elem_of_cons in Hin as [Hin|Hin]; [discriminate|]).
  by apply elem_of_nil in Hin.
Defined.

Lemma persistent_without_indexedDB_witness :
  possible false everyChance
  ∧ ∃ q, new PERSISTENT false [] = Returned q
         ∧ calls (run acceptingConfig everyChance (q, tt)).1 = []
         ∧ enqueued everyChance = [JNum 1; JNum 2].
Proof.
  split; [exact everyChance_possible|].
  destruct (persistent_without_indexedDB acceptingConfig [] tt everyChance
              everyChance_possible) as (q & Hq & Hcalls & _).
  exists q. split; [exact Hq|]. split; [exact Hcalls|reflexivity].
Defined.

Lemma enqueue_during_read_is_overtaken_witness :
  JStr "a" ≠ JNull
  ∧ JStr "b" ≠ JNull
  ∧ calls (run acceptingConfig
             (overtaking (JStr "a") (JStr "b")
              ++ settle acceptingConfig
                   (run acceptingConfig (overtaking (JStr "a") (JStr "b"))
                      (emptyPersistent, tt)))
             (emptyPersistent, tt)).1
    = [JStr "b"; JStr "a"].
Proof.
  assert (Ha : JStr "a" ≠ JNull) by discriminate.
  assert (Hb : JStr "b" ≠ JNull) by discriminate.
  split; [exact Ha|]. split; [exact Hb|].
  destruct (enqueue_during_read_is_overtaken (JStr "a") (JStr "b") Ha Hb)
    as (_ & _ & _ & _ & Hcalls).
  rewrite QueueOrder.run_app. exact Hcalls.
Defined.

End QueueStops.
(** ** loEvent.ts: sending, and logging under a block *)

Module LoEventSending.
Import LoEvent.

Lemma blockErrors_cons logger loggers event :
  blockErrors (logger :: loggers) event
  = match send logger event with
    | Thrown (BlockErrorExn message timeLimit action) =>
        [{| Disabler.message := message; Disabler.timeLimit := timeLimit;
            Disabler.error_action := action |}]
    | _ => []
    end ++ blockErrors loggers event.
Proof. unfold blockErrors. simpl. by destruct (send logger event) as [[]|[]]. Qed.

Section WithStorage.
Context {St : Type} (storage : BrowserStorage.StorageBackend St).

(** the loggers that pass, one after the other *)
Lemma sendEvent_loop_passes (before : list Logger) (event : JSON) : ∀ (w : @World St)
    (rest : list Logger),
  Forall (λ logger, passes (send logger event) = true) before →
  sendEvent_loop storage (before ++ rest) event w
  = sendEvent_loop storage rest event
      (set_disabler
         (foldl (λ d error, Disabler.handleBlockError storage error d) (disabler w)
            (blockErrors before event)) w).
Proof.
  induction before as [|logger before IH]; intros w rest Hpass.
  - simpl. by destruct w.
  - apply Forall_cons in Hpass as [Hlogger Hpass].
    cbn [app sendEvent_loop]. rewrite blockErrors_cons.
    destruct (send logger event) as [[]|[m|m|m t a]]; try discriminate.
    + rewrite IH by done. done.
    + rewrite IH by done. cbn [app foldl]. by destruct w.
Qed.

(** [sendEvent] goes through the loggers in order. Every [BlockError] a
    logger throws is handed to the disabler and the loop goes on; the first
    other fault ends the loop and leaves [sendEvent]: the loggers after
    that one are not given the event, and nothing else of the module state
    has changed. *)
Theorem sendEvent_policy (before rest : list Logger) (event : JSON) (w : @World St) :
  Forall (λ logger, passes (send logger event) = true) before →
  match rest with
  | [] => True
  | logger :: _ => passes (send logger event) = false
  end →
  let r := sendEvent storage event (set_loggersEnabled (before ++ rest) w) in
  r.1 = match rest with
        | [] => Returned tt
        | logger :: _ => send logger event
        end
  ∧ disabler r.2
    = foldl (λ d error, Disabler.handleBlockError storage error d) (disabler w)
        (blockErrors before event)
  ∧ r.2 = set_disabler (disabler r.2) (set_loggersEnabled (before ++ rest) w).
Proof.
  intros Hbefore Hrest r. unfold r, sendEvent.
  replace (loggersEnabled (set_loggersEnabled (before ++ rest) w)) with (before ++ rest)
    by by destruct w.
  rewrite sendEvent_loop_passes by done.
  replace (disabler (set_loggersEnabled (before ++ rest) w)) with (disabler w)
    by by destruct w.
  destruct rest as [|logger rest]; cbn [sendEvent_loop].
  - by destruct w.
  - destruct (send logger event) as [[]|[m|m|m t a]]; try discriminate;
      by destruct w.
Qed.

(** While a block with the action [DROP] is in force, [logEvent] returns
    without touching the event, the queue or anything else. The next time
    the loop asks [shouldDequeue] (that is, [disabler.retry]), a block
    with a time limit is waited out and lifted, after which events are
    stored again (the clock and the limit being the non-negative numbers
    they are in use); a permanent block makes it answer false. *)
Theorem logEvent_dropped_while_blocked (s : @LoEvent St) (error : Disabler.BlockError)
    (rd : Util.Readings) (eventType : string) (event : JSON) :
  Disabler.error_action error = Disabler.DROP →
  let blocked :=
    set_world (set_disabler (Disabler.handleBlockError storage error (disabler (world s)))
                 (world s)) s in
  let asked := Queue.shouldDequeue (mainLoopConfig storage) (world blocked) in
  logEvent storage rd eventType event blocked = (Returned tt, blocked)
  ∧ ((0 ≤ Disabler.timeLimit error)%Z →
     (0 ≤ Disabler.clock (disabler (world s)))%Z →
     asked.1 = Returned true
     ∧ Disabler.storeEvents (disabler asked.2) = true
     ∧ (Disabler.clock (disabler (world s)) + Disabler.timeLimit error
        ≤ Disabler.clock (disabler asked.2))%Z)
  ∧ (Disabler.timeLimit error = Disabler.PERMANENT →
     asked = (Returned false, world blocked)).
Proof.
  intros Hdrop blocked asked.
  assert (Hd : disabler (world blocked)
               = Disabler.handleBlockError storage error (disabler (world s)))
    by by destruct s as [[]].
  assert (Hstate : Disabler.state (disabler (world blocked))
                   = {| Disabler.action := Disabler.DROP;
                        Disabler.expiration :=
                          if (Disabler.timeLimit error =? Disabler.PERMANENT)%Z
                          then Some Disabler.PERMANENT
                          else Some (Disabler.clock (disabler (world s))
                                     + Disabler.timeLimit error)%Z |}).
  { rewrite Hd. unfold Disabler.handleBlockError. cbn [Disabler.state]. by rewrite Hdrop. }
  split; [|split].
  - unfold logEvent, Disabler.storeEvents. by rewrite Hstate.
  - intros Hlimit Hclock0. unfold asked. cbn [mainLoopConfig Queue.shouldDequeue].
    assert (Hne : Disabler.timeLimit error ≠ Disabler.PERMANENT)
      by (unfold Disabler.PERMANENT; lia).
    assert (Hexp : Disabler.expiration (Disabler.state (disabler (world blocked)))
                   = Some (Disabler.clock (disabler (world s))
                           + Disabler.timeLimit error)%Z).
    { rewrite Hstate. cbn [Disabler.expiration].
      by destruct (Z.eqb_spec (Disabler.timeLimit error) Disabler.PERMANENT). }
    assert (Hnp : Disabler.expiration (Disabler.state (disabler (world blocked)))
                  ≠ Some Disabler.PERMANENT).
    { rewrite Hexp. unfold Disabler.PERMANENT. intros [= Heq]. lia. }
    destruct (DisablerFacts.retry_resets storage (disabler (world blocked)) Hnp)
      as (Hr & Hreset & Hclock & _).
    destruct (Disabler.retry storage (disabler (world blocked))) as [again d].
    cbn [fst snd] in *. subst again.
    split; [done|]. split.
    + replace (disabler (set_disabler d (world blocked))) with d
        by by destruct (world blocked).
      unfold Disabler.storeEvents. by rewrite Hreset.
    + replace (disabler (set_disabler d (world blocked))) with d
        by by destruct (world blocked).
      rewrite Hclock, Hexp. unfold Disabler.toNumber. simpl. lia.
  - intros Hperm. unfold asked. cbn [mainLoopConfig Queue.shouldDequeue].
    rewrite DisablerFacts.retry_permanent.
    + by destruct (world blocked).
    + rewrite Hstate. cbn [Disabler.expiration]. by rewrite Hperm.
Qed.

End WithStorage.

Lemma sendEvent_policy_witness :
  let before := [quietLogger; blockedLogger 60000 Disabler.DROP] in
  let rest := [brokenLogger; blockedLogger (-1) Disabler.MAINTAIN] in
  let event := obj [("event", JStr "click")] in
  let r := sendEvent BrowserStorage.thunkStorage event
             (set_loggersEnabled (before ++ rest) (world freshModule)) in
  Forall (λ logger, passes (send logger event) = true) before
  ∧ r.1 = Thrown (ErrorExn "logger failed")
  ∧ Disabler.state (disabler r.2)
    = {| Disabler.action := Disabler.DROP;
         Disabler.expiration := Some 1767225660000%Z |}.
Proof.
  intros before rest event r.
  assert (Hbefore : Forall (λ logger, passes (send logger event) = true) before)
    by (repeat constructor).
  destruct (sendEvent_policy BrowserStorage.thunkStorage before rest event
              (world freshModule) Hbefore eq_refl) as (Hout & Hdis & _).
  split; [exact Hbefore|]. split; [exact Hout|].
  fold r in Hdis. rewrite Hdis. reflexivity.
Defined.

Lemma logEvent_dropped_while_blocked_witness :
  let error := {| Disabler.message := "blocked"; Disabler.timeLimit := 60000%Z;
                  Disabler.error_action := Disabler.DROP |} in
  let blocked :=
    set_world (set_disabler
                 (Disabler.handleBlockError BrowserStorage.thunkStorage error
                    (disabler (world freshModule)))
                 (world freshModule)) freshModule in
  Disabler.error_action error = Disabler.DROP
  ∧ logEvent BrowserStorage.thunkStorage someReadings "click" (obj []) blocked
    = (Returned tt, blocked)
  ∧ (Queue.shouldDequeue (mainLoopConfig BrowserStorage.thunkStorage) (world blocked)).1
    = Returned true.
Proof.
  intros error blocked.
  destruct (logEvent_dropped_while_blocked BrowserStorage.thunkStorage freshModule error
              someReadings "click" (obj []) eq_refl) as (Hlog & Hlimit & _).
  split; [reflexivity|]. split; [exact Hlog|].
  apply Hlimit; [vm_compute; discriminate | vm_compute; discriminate].
Defined.

End LoEventSending.
(** ** loEvent.ts: the chain of [init], [lockFields] and [go] *)

Module LoEventChain.
Import LoEvent LoEventFacts.

(** *** compileMetadata *)

Lemma lookupProp_app {A} k (ps qs : list (string * A)) :
  lookupProp k (ps ++ qs)
  = match lookupProp k ps with Some v => Some v | None => lookupProp k qs end.
Proof.
  induction ps as [|[k' v] ps IH]; simpl; [done|].
  by destruct (String.eqb k k').
Qed.

(** merging objects of one key each, no key twice, puts each value under
    its key *)
Lemma mergeMetadata_single_keys (kvs : list (string * JSON)) (k : string) :
  NoDup (keys kvs) →
  getProp (Util.mergeMetadata (Util.MValue <$> ((λ kv, obj [kv]) <$> kvs))) k
  = lookupProp k kvs.
Proof.
  induction kvs as [|[n v] kvs IH] using rev_ind; intros Hnd; [done|].
  unfold keys in Hnd. rewrite map_app in Hnd. apply NoDup_app in Hnd as (Hnd & Hn & _).
  rewrite !fmap_app. cbn [fmap list_fmap].
  rewrite UtilFacts.mergeMetadata_snoc. cbn [Util.mergeInput Util.typeofObject obj].
  change (obj [(n, v)]) with (JObject PlainObject [(n, v)]).
  rewrite UtilFacts.mergeDictionary_unfold.
  change (Util.mergeProps [(n, v)] ?t) with (Util.mergeKey t n v).
  rewrite lookupProp_app. cbn [lookupProp].
  destruct (String.eqb_spec k n) as [->|Hne].
  - rewrite UtilFacts.getProp_mergeKey_eq by apply UtilFacts.isObject_mergeMetadata.
    rewrite (IH Hnd).
    assert (Hnone : lookupProp n kvs = None).
    { apply lookup_not_in. intros Hin. apply (Hn n Hin). simpl. apply elem_of_cons.
      by left. }
    by rewrite Hnone.
  - rewrite UtilFacts.getProp_mergeKey_ne by congruence. rewrite (IH Hnd).
    by destruct (lookupProp k kvs).
Qed.

Section WithStorage.
Context {St : Type} (storage : BrowserStorage.StorageBackend St).

Lemma compileMetadata_results (tasks : list MetadataTask) (w : @World St) :
  (compileMetadata tasks w).1
  = (λ kv, obj [kv])
    <$> omap (λ task, match func task with
                      | Returned result => Some (name task, result)
                      | Thrown _ => None
                      end) tasks.
Proof.
  unfold compileMetadata. cbn [fst].
  induction tasks as [|task tasks IH]; [done|].
  cbn [omap list_omap]. destruct (func task); cbn [fmap list_fmap]; by rewrite IH.
Qed.

(** [compileMetadata] keeps what succeeds: a task that throws (or whose
    promise is rejected) costs its own entry and a debug message, and
    nothing else. With task names that differ, none of them [__proto__],
    the fields [go] then sends to the loggers hold, under the name of every
    task that returned, what it returned, and nothing under the name of a
    task that failed; the results and the messages together are as many as
    the tasks. *)
Theorem compileMetadata_keeps_what_succeeds (tasks : list MetadataTask) (w : @World St) :
  NoDup (name <$> tasks) →
  "__proto__" ∉ (name <$> tasks) →
  let r := compileMetadata tasks w in
  (∀ task, task ∈ tasks →
     getProp (Util.mergeMetadata (Util.MValue <$> r.1)) (name task)
     = match func task with
       | Returned result => Some result
       | Thrown _ => None
       end)
  ∧ (∃ messages, debugErrors r.2 = debugErrors w ++ messages
                 ∧ length r.1 + length messages = length tasks)
  ∧ r.2 = set_debugErrors (debugErrors r.2) w.
Proof.
  intros Hnd _ r. split; [|split].
  - intros task Hin. unfold r. rewrite compileMetadata_results.
    set (kvs := omap (λ task, match func task with
                              | Returned result => Some (name task, result)
                              | Thrown _ => None
                              end) tasks).
    assert (Hkeys : ∀ l, NoDup (name <$> l) →
              NoDup (keys (omap (λ task, match func task with
                                         | Returned result => Some (name task, result)
                                         | Thrown _ => None
                                         end) l))
              ∧ ∀ n, n ∈ keys (omap (λ task, match func task with
                                            | Returned result => Some (name task, result)
                                            | Thrown _ => None
                                            end) l) → n ∈ name <$> l).
    { induction l as [|t l IHl]; intros Hl; [split; [constructor|done]|].
      cbn [fmap list_fmap] in Hl. apply NoDup_cons in Hl as [Ht Hl].
      destruct (IHl Hl) as [IH1 IH2].
      cbn [omap list_omap]. destruct (func t); cbn [keys map fst].
      - split.
        + apply NoDup_cons. split; [|done]. intros Hin'. by apply Ht, IH2.
        + intros n Hn. cbn [fmap list_fmap]. apply elem_of_cons in Hn as [->|Hn];
            apply elem_of_cons; [by left|right; by apply IH2].
      - split; [done|]. intros n Hn. cbn [fmap list_fmap]. apply elem_of_cons.
        right. by apply IH2. }
    rewrite mergeMetadata_single_keys by apply Hkeys, Hnd.
    unfold kvs. clear kvs r.
    induction tasks as [|t tasks IH]; [by apply elem_of_nil in Hin|].
    cbn [fmap list_fmap] in Hnd. apply NoDup_cons in Hnd as [Ht Hnd].
    cbn [omap list_omap].
    apply elem_of_cons in Hin as [->|Hin].
    + destruct (func t) as [result|e]; cbn [lookupProp].
      * by rewrite String.eqb_refl.
      * apply lookup_not_in. intros Hn. by apply Ht, (proj2 (Hkeys tasks Hnd)).
    + assert (Hne : name task ≠ name t).
      { intros Heq. apply Ht. rewrite <- Heq. by apply list_elem_of_fmap_2. }
      destruct (func t) as [result|e]; cbn [lookupProp]; [|by apply IH].
      destruct (String.eqb_spec (name task) (name t)); [done|by apply IH].
  - unfold r, compileMetadata. cbn [fst snd]. eexists. split; [by destruct w|].
    clear. induction tasks as [|t tasks IH]; [done|].
    cbn [omap list_omap]. destruct (func t); cbn [length]; lia.
  - unfold r, compileMetadata. cbn [snd]. by destruct w.
Qed.

(** *** What the chain hands to the [setField] hooks *)

Lemma runStep_rejected rd (s : @LoEvent St) step :
  rejected s ≠ None → runStep storage rd s step = s.
Proof. intros Hr. unfold runStep. by destruct (rejected s). Qed.

Lemma foldl_runStep_rejected rd steps : ∀ (s : @LoEvent St),
  rejected s ≠ None → foldl (runStep storage rd) s steps = s.
Proof.
  induction steps as [|step steps IH]; intros s Hr; [done|].
  simpl. rewrite runStep_rejected by done. by apply IH.
Qed.

Lemma fieldsSent_lockFields rd data (s : @LoEvent St) :
  rejected s = None →
  fieldsSent (world (runStep storage rd s (LockFields data)))
  = fieldsSent (world s) ++ [Some (Util.mergeMetadata data)].
Proof.
  intros Hrej. unfold runStep. rewrite Hrej. unfold settleWith.
  destruct (lockFieldsAsync_payload storage rd data (world s)) as (payload & Hcalls & Hf & _).
  replace (world (set_rejected (lockFieldsAsync storage rd data (world s)).1
                    (set_world (lockFieldsAsync storage rd data (world s)).2 s)))
    with (lockFieldsAsync storage rd data (world s)).2 by by destruct s.
  unfold fieldsSent. rewrite Hcalls, fmap_app. simpl. by rewrite Hf.
Qed.

Lemma fieldsSent_compileMetadata rd (s : @LoEvent St) :
  rejected s = None →
  fieldsSent (world (runStep storage rd s CompileMetadata))
  = fieldsSent (world s)
    ++ [Some (Util.mergeMetadata
                (Util.MValue <$> (compileMetadata (pendingMetadata s) (world s)).1))].
Proof.
  intros Hrej. unfold runStep. rewrite Hrej.
  destruct (compileMetadata (pendingMetadata s) (world s)) as [results w] eqn:Hcm.
  assert (Hw : setFieldCalls w = setFieldCalls (world s)).
  { unfold compileMetadata in Hcm. injection Hcm as _ <-. by destruct (world s). }
  unfold settleWith.
  destruct (lockFieldsAsync_payload storage rd (Util.MValue <$> results) w)
    as (payload & Hcalls & Hf & _).
  replace (world (set_rejected (lockFieldsAsync storage rd (Util.MValue <$> results) w).1
                    (set_world (lockFieldsAsync storage rd (Util.MValue <$> results) w).2 s)))
    with (lockFieldsAsync storage rd (Util.MValue <$> results) w).2 by by destruct s.
  unfold fieldsSent. rewrite Hcalls, fmap_app, Hw. simpl. by rewrite Hf.
Qed.

Lemma fieldsSent_mainLoop_start (q : Queue.Queue) (w : @World St) :
  fieldsSent (Queue.startDequeueLoop (mainLoopConfig storage) (q, w)).2.2 = fieldsSent w.
Proof.
  unfold Queue.startDequeueLoop, Util.once. cbn [fst snd].
  destruct (Queue.startDequeueLoop_run q); cbn [negb fst snd]; [done|].
  unfold Queue.startDequeueLoop_body, Queue.iteration, Queue.terminate, Queue.report.
  simpl. destruct (isInitialized w); simpl; [|by destruct w].
  destruct (Disabler.retry storage (disabler w)) as [again d].
  destruct again; simpl; by destruct w.
Qed.

Lemma fieldsSent_startStep (s : @LoEvent St) :
  fieldsSent (world (startStep storage s)) = fieldsSent (world s).
Proof.
  unfold startStep. destruct (initialized (world s)) eqn:Hi;
    try (by destruct s as [[]]);
    (destruct (queue s) as [q|]; [|by destruct s as [[]]];
     pose proof (fieldsSent_mainLoop_start q (set_initialized READY (world s))) as Hf;
     destruct (Queue.startDequeueLoop (mainLoopConfig storage)
                 (q, set_initialized READY (world s))) as [[u|e] [q' w']];
     cbn [fst snd] in Hf;
     [replace (world (set_queue (Some q') (set_world w' s))) with w' by by destruct s
     |replace (world (set_rejected (Some e) (set_queue (Some q') (set_world w' s))))
        with w' by by destruct s];
     rewrite Hf; by destruct s as [[]]).
Qed.

(** the [lockFields] calls made between [init] and [go], one callback each *)
Lemma fieldsSent_lockFields_all rd q loggers i ds : ∀ (s : @LoEvent St),
  setField_returns loggers →
  tracked q loggers i s →
  let s' := foldl (runStep storage rd) s (LockFields <$> ds) in
  tracked q loggers i s'
  ∧ pendingMetadata s' = pendingMetadata s
  ∧ fieldsSent (world s') = fieldsSent (world s) ++ (Some <$> (Util.mergeMetadata <$> ds)).
Proof.
  induction ds as [|data ds IH]; intros s Hret Htr.
  - simpl. by rewrite app_nil_r.
  - cbn [fmap list_fmap foldl].
    pose proof (tracked_neutral storage rd q loggers i s (LockFields data) eq_refl Hret Htr)
      as Htr'.
    destruct Htr as (Hrej & _ & Hl & _).
    destruct (runStep_neutral storage rd s (LockFields data) eq_refl Hrej
                ltac:(by rewrite Hl)) as (_ & _ & _ & _ & Hpm).
    destruct (IH _ Hret Htr') as (Htr'' & Hpm' & Hf).
    split; [done|]. split; [by rewrite Hpm', Hpm|].
    rewrite Hf, fieldsSent_lockFields by done.
    by rewrite <- app_assoc.
Qed.

Lemma pipeline_lockFields ds : ∀ (s : @LoEvent St),
  let s' := foldl (λ s data, lockFields data s) s ds in
  pipeline s' = pipeline s ++ (LockFields <$> ds)
  ∧ set_pipeline [] s' = set_pipeline [] s.
Proof.
  induction ds as [|data ds IH]; intros s.
  - simpl. by rewrite app_nil_r.
  - cbn [foldl fmap list_fmap]. destruct (IH (lockFields data s)) as [Hp Hs].
    split.
    + rewrite Hp. unfold lockFields, chain. destruct s. simpl. by rewrite <- app_assoc.
    + rewrite Hs. by destruct s.
Qed.

(** the callbacks [init] chains: the disabler's [init], if it is used, and
    [initializeLoggers] *)
Lemma init_steps rd q loggers steps (s0 : @LoEvent St) :
  steps = [InitializeLoggers] ∨ steps = [DisablerInit; InitializeLoggers] →
  firstThrown (omap init_hook loggers) = None →
  setField_returns loggers →
  tracked q loggers IN_PROGRESS s0 →
  let after := foldl (runStep storage rd) s0 steps in
  tracked q loggers
    (match firstRejected (omap init_hook loggers) with
     | Some _ => ERROR
     | None => LOGGERS_READY
     end) after
  ∧ fieldsSent (world after) = fieldsSent (world s0)
  ∧ pendingMetadata after = pendingMetadata s0
  ∧ (firstRejected (omap init_hook loggers) = None →
     debugErrors (world after) = debugErrors (world s0)).
Proof.
  intros Hsteps Hthrown Hret Htr.
  assert (Hinit : ∀ s, tracked q loggers IN_PROGRESS s →
    let after := runStep storage rd s InitializeLoggers in
    tracked q loggers
      (match firstRejected (omap init_hook loggers) with
       | Some _ => ERROR
       | None => LOGGERS_READY
       end) after
    ∧ fieldsSent (world after) = fieldsSent (world s)
    ∧ pendingMetadata after = pendingMetadata s
    ∧ (firstRejected (omap init_hook loggers) = None →
       debugErrors (world after) = debugErrors (world s))).
  { intros s Hs. split; [by apply tracked_initializeLoggers|].
    destruct Hs as (Hrej & _ & Hl & _). unfold runStep. rewrite Hrej.
    unfold settleWith, initializeLoggers. rewrite Hl, Hthrown.
    destruct (firstRejected (omap init_hook loggers)); cbn [fst snd];
      repeat split; try done; by destruct s as [[]]. }
  assert (Hdis : ∀ s, tracked q loggers IN_PROGRESS s →
    let after := runStep storage rd s DisablerInit in
    tracked q loggers IN_PROGRESS after
    ∧ fieldsSent (world after) = fieldsSent (world s)
    ∧ pendingMetadata after = pendingMetadata s
    ∧ debugErrors (world after) = debugErrors (world s)).
  { intros s Hs. split; [by apply tracked_neutral|].
    destruct Hs as (Hrej & _). unfold runStep. rewrite Hrej.
    repeat split; by destruct s as [[]]. }
  destruct Hsteps as [-> | ->]; cbn [foldl].
  - by apply Hinit.
  - destruct (Hdis s0 Htr) as (Htr' & Hf & Hpm & Hde).
    destruct (Hinit _ Htr') as (Htr'' & Hf' & Hpm' & Hde').
    split; [done|]. split; [by rewrite Hf', Hf|]. split; [by rewrite Hpm', Hpm|].
    intros Hnone. by rewrite Hde', Hde.
Qed.

(** what [init] leaves for [go] *)
Lemma init_pending rd indexedDB rows source version loggers options
    (s : @LoEvent St) (q : Queue.Queue) :
  source ≠ "" →
  version ≠ "" →
  sendBrowserInfo options = None →
  Queue.new (queueType options) indexedDB rows = Returned q →
  let s1 := (init storage rd indexedDB rows source version loggers options s).2 in
  pendingSource s1 = source ∧ pendingVersion s1 = version
  ∧ pendingMetadata s1 = metadata options
  ∧ fieldsSent (world s1) = fieldsSent (world s)
  ∧ debugErrors (world s1) = debugErrors (world s).
Proof.
  intros Hsrc Hver Hinfo Hnew. unfold init.
  apply String.eqb_neq in Hsrc, Hver. rewrite Hsrc, Hver, Hnew, Hinfo.
  destruct s as [w qo r p ps pv pm]. simpl.
  destruct (useDisabler options); simpl; by destruct w.
Qed.

(** The loggers are told the locked fields in the order of the calls:
    after [init], any number of [lockFields] calls, and [go], the
    [setField] hooks (all of which return) are handed, in this order, one
    payload for each [lockFields] call with the fragments of that call
    merged, then the payload with [source] and [version], then the payload
    with the results of the metadata tasks. This holds also when an [init]
    hook was rejected and the loop is not going to start. It is stated for
    calls whose fragments have ordinary keys that are all different within
    the call, and for metadata tasks with ordinary names that are all
    different: there the merge changes no fragment, and what it returns is
    a matter of the fragments' contents alone. *)
Theorem lockFields_in_call_order (rd : Util.Readings) (indexedDB : bool)
    (rows : list JSON) (source version : string) (loggers : list Logger)
    (options : InitOptions) (s : @LoEvent St) (q : Queue.Queue)
    (calls : list (list Util.MetadataInput)) :
  rejected s = None →
  pipeline s = [] →
  source ≠ "" →
  version ≠ "" →
  sendBrowserInfo options = None →
  Queue.new (queueType options) indexedDB rows = Returned q →
  firstThrown (omap init_hook loggers) = None →
  setField_returns loggers →
  Forall separateKeys calls →
  NoDup (name <$> metadata options) →
  Forall (λ task, ordinaryKey (name task) = true) (metadata options) →
  let s1 := (init storage rd indexedDB rows source version loggers options s).2 in
  let s2 := foldl (λ s data, lockFields data s) s1 calls in
  let final := settle storage rd (go s2) in
  fieldsSent (world final)
  = fieldsSent (world s)
    ++ (Some <$> ((Util.mergeMetadata <$> calls)
                  ++ [obj [("source", JStr source); ("version", JStr version)];
                      Util.mergeMetadata
                        (Util.MValue <$> (compileMetadata (metadata options) (world s)).1)])).
Proof.
  intros Hrej Hpipe Hsrc Hver Hinfo Hnew Hthrown Hret _ _ _ s1 s2 final.
  destruct (init_tracked storage rd indexedDB rows source version loggers options s q
              Hrej Hpipe Hsrc Hver Hinfo Hnew) as [Htr Hsteps].
  destruct (init_pending rd indexedDB rows source version loggers options s q
              Hsrc Hver Hinfo Hnew) as (Hps & Hpv & Hpm & Hfs & _).
  fold s1 in Htr, Hsteps, Hps, Hpv, Hpm, Hfs.
  destruct (pipeline_lockFields calls s1) as [Hp2 Hs2]. fold s2 in Hp2, Hs2.
  set (fields := [Util.MValue (obj [("source", JStr source); ("version", JStr version)])]).
  assert (Hgo : pipeline (go s2)
                = pipeline s1 ++ (LockFields <$> calls)
                  ++ [LockFields fields; CompileMetadata; StartDequeueLoop]).
  { assert (Hsv : pendingSource s2 = source ∧ pendingVersion s2 = version).
    { assert (Hkeep : ∀ (l : list (list Util.MetadataInput)) (s0 : @LoEvent St),
                pendingSource (foldl (λ s data, lockFields data s) s0 l) = pendingSource s0
                ∧ pendingVersion (foldl (λ s data, lockFields data s) s0 l)
                  = pendingVersion s0).
      { induction l as [|d l IHl]; intros s0; [done|]. cbn [foldl].
        destruct (IHl (lockFields d s0)) as [-> ->]. by destruct s0. }
      destruct (Hkeep calls s1) as [Hks Hkv]. fold s2 in Hks, Hkv.
      by rewrite Hks, Hkv. }
    destruct Hsv as [Hsv1 Hsv2]. unfold go, lockFields, chain. cbn [pipeline set_pipeline].
    rewrite Hsv1, Hsv2, Hp2. by rewrite <- !app_assoc. }
  assert (Hstart : set_pipeline [] (go s2) = set_pipeline [] s1).
  { rewrite <- Hs2. by destruct s2. }
  unfold final, settle. rewrite Hgo, Hstart, !foldl_app.
  (* the callbacks chained by [init] *)
  destruct (init_steps rd q loggers (pipeline s1) (set_pipeline [] s1) Hsteps Hthrown Hret
              ltac:(by destruct s1)) as (HtrA & HfA & HpmA & _).
  set (sA := foldl (runStep storage rd) (set_pipeline [] s1) (pipeline s1)) in *.
  (* the calls of [lockFields] *)
  destruct (fieldsSent_lockFields_all rd q loggers _ calls sA Hret HtrA)
    as (HtrB & HpmB & HfB).
  set (sB := foldl (runStep storage rd) sA (LockFields <$> calls)) in *.
  (* the three callbacks chained by [go] *)
  cbn [foldl].
  pose proof (tracked_neutral storage rd q loggers _ sB (LockFields fields) eq_refl Hret HtrB)
    as HtrC.
  destruct (runStep_neutral storage rd sB (LockFields fields) eq_refl
              (proj1 HtrB) ltac:(by rewrite (proj1 (proj2 (proj2 HtrB)))))
    as (_ & _ & _ & _ & HpmC).
  pose proof (fieldsSent_lockFields rd fields sB (proj1 HtrB)) as HfC.
  set (sC := runStep storage rd sB (LockFields fields)) in *.
  pose proof (tracked_neutral storage rd q loggers _ sC CompileMetadata eq_refl Hret HtrC)
    as HtrD.
  pose proof (fieldsSent_compileMetadata rd sC (proj1 HtrC)) as HfD.
  set (sD := runStep storage rd sC CompileMetadata) in *.
  assert (HfE : fieldsSent (world (runStep storage rd sD StartDequeueLoop))
                = fieldsSent (world sD)).
  { unfold runStep. rewrite (proj1 HtrD). apply fieldsSent_startStep. }
  rewrite HfE, HfD, HfC, HfB, HfA.
  replace (fieldsSent (world (set_pipeline [] s1))) with (fieldsSent (world s))
    by (rewrite <- Hfs; by destruct s1).
  rewrite HpmC, HpmB, HpmA.
  replace (pendingMetadata (set_pipeline [] s1)) with (metadata options)
    by (rewrite <- Hpm; by destruct s1).
  rewrite (compileMetadata_results (metadata options) (world sC)).
  rewrite (compileMetadata_results (metadata options) (world s)).
  rewrite !fmap_app, <- !app_assoc. reflexivity.
Qed.

Lemma lockFieldsAsync_fails rd data (w : @World St) :
  setField_fails (loggersEnabled w) →
  (lockFieldsAsync storage rd data w).1 ≠ None
  ∧ initialized (lockFieldsAsync storage rd data w).2 = initialized w
  ∧ debugErrors (lockFieldsAsync storage rd data w).2 = debugErrors w.
Proof.
  intros Hfails. unfold lockFieldsAsync.
  pose proof (UtilFacts.timestampEvent_returns storage rd PlainObject
                [("fields", Util.mergeMetadata data); ("event", JStr "lock_fields")]
                (util w) (Disabler.store (disabler w)) eq_refl) as Hts.
  fold (obj [("fields", Util.mergeMetadata data); ("event", JStr "lock_fields")]) in Hts.
  destruct (Util.timestampEvent storage rd _ (util w) (Disabler.store (disabler w)))
    as [[[stamped payload] u] st].
  simpl in Hts. subst stamped.
  assert (Hloggers : ∀ x y, loggersEnabled (set_util x (set_disabler y w)) = loggersEnabled w)
    by by destruct w.
  rewrite Hloggers.
  destruct (Hfails payload) as [Hf|Hf].
  - destruct (firstThrown _) as [e|]; [|done]. by destruct w.
  - destruct (firstThrown _) as [e|]; [by destruct w|].
    destruct (firstRejected _) as [e|]; [|done]. by destruct w.
Qed.

(** When a [setField] hook fails, the loop never starts, and nothing says
    so: with [init] hooks that all return, [init] then [go] leave the
    state at [LOGGERS_READY]; the first payload ([source] and [version])
    rejects the chain, the callbacks after it are skipped, so the state
    never becomes [READY], [startDequeueLoop] is not called, and no
    message is given to [debug.error]. *)
Theorem failing_setField_stalls_the_pipeline (rd : Util.Readings) (indexedDB : bool)
    (rows : list JSON) (source version : string) (loggers : list Logger)
    (options : InitOptions) (s : @LoEvent St) (q : Queue.Queue) :
  rejected s = None →
  pipeline s = [] →
  source ≠ "" →
  version ≠ "" →
  sendBrowserInfo options = None →
  Queue.new (queueType options) indexedDB rows = Returned q →
  firstThrown (omap init_hook loggers) = None →
  firstRejected (omap init_hook loggers) = None →
  setField_fails loggers →
  let s1 := (init storage rd indexedDB rows source version loggers options s).2 in
  let final := settle storage rd (go s1) in
  rejected final ≠ None
  ∧ initialized (world final) = LOGGERS_READY
  ∧ loopStarted final = false
  ∧ debugErrors (world final) = debugErrors (world s).
Proof.
  intros Hrej Hpipe Hsrc Hver Hinfo Hnew Hthrown Hrejected Hfails s1 final.
  destruct (init_tracked storage rd indexedDB rows source version loggers options s q
              Hrej Hpipe Hsrc Hver Hinfo Hnew) as [Htr Hsteps].
  destruct (init_pending rd indexedDB rows source version loggers options s q
              Hsrc Hver Hinfo Hnew) as (_ & _ & _ & _ & Hde).
  fold s1 in Htr, Hsteps, Hde.
  destruct (QueueFacts.new_not_run _ _ _ _ Hnew) as (Hrun & _).
  set (fields := [Util.MValue (obj [("source", JStr (pendingSource s1));
                                    ("version", JStr (pendingVersion s1))])]).
  assert (Hgo : pipeline (go s1)
                = pipeline s1 ++ [LockFields fields; CompileMetadata; StartDequeueLoop]).
  { unfold go, lockFields, chain. simpl. by rewrite <- !app_assoc. }
  unfold final, settle. rewrite Hgo, foldl_app.
  replace (set_pipeline [] (go s1)) with (set_pipeline [] s1) by by destruct s1.
  (* the hooks of [init] return: no use is made of [setField] yet *)
  assert (HA : let sA := foldl (runStep storage rd) (set_pipeline [] s1) (pipeline s1) in
               tracked q loggers LOGGERS_READY sA
               ∧ debugErrors (world sA) = debugErrors (world s1)).
  { assert (Htr0 : tracked q loggers IN_PROGRESS (set_pipeline [] s1)) by by destruct s1.
    assert (Hinit : ∀ s0, tracked q loggers IN_PROGRESS s0 →
              tracked q loggers LOGGERS_READY (runStep storage rd s0 InitializeLoggers)
              ∧ debugErrors (world (runStep storage rd s0 InitializeLoggers))
                = debugErrors (world s0)).
    { intros s0 Hs0.
      pose proof (tracked_initializeLoggers storage rd q loggers s0 Hthrown Hs0) as Ht.
      rewrite Hrejected in Ht. split; [done|].
      destruct Hs0 as (Hr0 & _ & Hl0 & _). unfold runStep. rewrite Hr0.
      unfold settleWith, initializeLoggers. rewrite Hl0, Hthrown, Hrejected.
      by destruct s0 as [[]]. }
    assert (Hdis : ∀ s0, tracked q loggers IN_PROGRESS s0 →
              tracked q loggers IN_PROGRESS (runStep storage rd s0 DisablerInit)
              ∧ debugErrors (world (runStep storage rd s0 DisablerInit))
                = debugErrors (world s0)).
    { intros s0 (Hr0 & Hq0 & Hl0 & Hi0). unfold runStep. rewrite Hr0. unfold tracked.
      by destruct s0 as [[]]. }
    destruct Hsteps as [-> | ->]; cbn [foldl].
    - destruct (Hinit _ Htr0) as [? Hd]. split; [done|]. rewrite Hd. by destruct s1.
    - destruct (Hdis _ Htr0) as [Ht1 Hd1]. destruct (Hinit _ Ht1) as [? Hd2].
      split; [done|]. rewrite Hd2, Hd1. by destruct s1. }
  destruct HA as [(HrA & HqA & HlA & HiA) HdA].
  set (sA := foldl (runStep storage rd) (set_pipeline [] s1) (pipeline s1)) in *.
  (* the first payload *)
  destruct (lockFieldsAsync_fails rd fields (world sA) ltac:(by rewrite HlA))
    as (Hfail & Hi & Hd).
  assert (HC : let sC := runStep storage rd sA (LockFields fields) in
               rejected sC ≠ None ∧ initialized (world sC) = LOGGERS_READY
               ∧ queue sC = Some q ∧ debugErrors (world sC) = debugErrors (world sA)).
  { unfold runStep. rewrite HrA. unfold settleWith.
    destruct (lockFieldsAsync storage rd fields (world sA)) as [r w'].
    cbn [fst snd] in *. rewrite <- HiA, <- Hi, <- HqA, <- Hd. by destruct sA. }
  destruct HC as (HrC & HiC & HqC & HdC).
  cbn [foldl]. set (sC := runStep storage rd sA (LockFields fields)) in *.
  rewrite !runStep_rejected by (rewrite ?runStep_rejected; done).
  split; [done|]. split; [done|]. split.
  - unfold loopStarted. by rewrite HqC.
  - by rewrite HdC, HdA, Hde.
Qed.

(** The [init] hooks decide whether the loop runs. With hooks that do not
    throw while they are being called, [init] then [go] end with the state
    [READY] and the loop started exactly when no hook's promise was
    rejected; if one was, even with all others succeeding, they end with
    the state [ERROR], the loop not started, and the message that it
    cannot be started given to [debug.error] last. *)
Theorem init_hooks_decide_the_loop (rd : Util.Readings) (indexedDB : bool)
    (rows : list JSON) (source version : string) (loggers : list Logger)
    (options : InitOptions) (s : @LoEvent St) (q : Queue.Queue) :
  rejected s = None →
  pipeline s = [] →
  source ≠ "" →
  version ≠ "" →
  sendBrowserInfo options = None →
  Queue.new (queueType options) indexedDB rows = Returned q →
  firstThrown (omap init_hook loggers) = None →
  setField_returns loggers →
  let s1 := (init storage rd indexedDB rows source version loggers options s).2 in
  let gone := settle storage rd (go s1) in
  (loopStarted gone = true ↔ firstRejected (omap init_hook loggers) = None)
  ∧ (initialized (world gone) = READY ↔ firstRejected (omap init_hook loggers) = None)
  ∧ (firstRejected (omap init_hook loggers) ≠ None →
     initialized (world gone) = ERROR
     ∧ last (debugErrors (world gone))
       = Some "Cannot start dequeue loop: logger initialization failed").
Proof.
  intros Hrej Hpipe Hsrc Hver Hinfo Hnew Hthrown Hret s1 gone.
  pose proof (init_go_outcome storage rd indexedDB rows source version loggers options s q
                Hrej Hpipe Hsrc Hver Hinfo Hnew Hthrown Hret) as Hout.
  cbv zeta in Hout. fold s1 in Hout. fold gone in Hout.
  destruct (firstRejected (omap init_hook loggers)) as [e|].
  - destruct Hout as (_ & Hi & Hl & before & Hd).
    split; [split; [congruence|discriminate]|].
    split; [split; [congruence|discriminate]|].
    intros _. split; [done|]. rewrite Hd. apply last_snoc.
  - destruct Hout as (_ & Hi & Hl).
    split; [done|]. split; [done|]. done.
Qed.

End WithStorage.

Lemma quiet_setField_returns (loggers : list Logger) :
  Forall (λ logger, logger = quietLogger ∨ logger = rejectingLogger) loggers →
  setField_returns loggers.
Proof.
  intros Hall logger f payload Hin Hf.
  rewrite Forall_forall in Hall. destruct (Hall logger Hin) as [-> | ->];
    injection Hf as <-; reflexivity.
Qed.

Lemma deaf_setField_fails : setField_fails [quietLogger; deafLogger].
Proof. intros payload. right. discriminate. Qed.

Lemma freshQueue :
  Queue.new (queueType defaultOptions) false []
  = Returned {| Queue.queue := Queue.InMemory MemoryQueue.new;
                Queue.startDequeueLoop_run := false; Queue.loop := Queue.NotStarted;
                Queue.calls := []; Queue.reported := [] |}.
Proof. reflexivity. Qed.

Lemma compileMetadata_keeps_what_succeeds_witness :
  let r := compileMetadata someTasks (world freshModule) in
  NoDup (name <$> someTasks)
  ∧ ("__proto__" ∉ (name <$> someTasks))
  ∧ getProp (Util.mergeMetadata (Util.MValue <$> r.1)) "screen"
    = Some (obj [("width", JNum 800)])
  ∧ getProp (Util.mergeMetadata (Util.MValue <$> r.1)) "localStorageInfo" = None.
Proof.
  intros r.
  assert (Hnd : NoDup (name <$> someTasks)).
  { apply (bool_decide_unpack _). vm_compute. exact I. }
  assert (Hproto : "__proto__" ∉ (name <$> someTasks)).
  { intros Hin. repeat (apply elem_of_cons in Hin as [Hin|Hin]; [discriminate|]).
    by apply elem_of_nil in Hin. }
  destruct (compileMetadata_keeps_what_succeeds someTasks (world freshModule) Hnd Hproto)
    as (Hfields & _).
  split; [exact Hnd|]. split; [exact Hproto|]. split.
  - apply (Hfields {| name := "screen"; func := Returned (obj [("width", JNum 800)]) |}).
    apply elem_of_cons. by left.
  - apply (Hfields {| name := "localStorageInfo";
                      func := Thrown (ErrorExn "SecurityError") |}).
    apply elem_of_cons. right. apply elem_of_cons. by left.
Defined.

Lemma lockFields_in_call_order_witness :
  let s1 := (init BrowserStorage.thunkStorage someReadings false [] "S" "V"
               [quietLogger] defaultOptions freshModule).2 in
  let s2 := lockFields [Util.MValue (obj [("postauth_type", JStr "test")])]
              (lockFields [Util.MValue (obj [("preauth_type", JStr "test")])] s1) in
  setField_returns [quietLogger]
  ∧ Forall separateKeys [[Util.MValue (obj [("preauth_type", JStr "test")])];
                         [Util.MValue (obj [("postauth_type", JStr "test")])]]
  ∧ fieldsSent (world (settle BrowserStorage.thunkStorage someReadings (go s2)))
    = [Some (obj [("preauth_type", JStr "test")]);
       Some (obj [("postauth_type", JStr "test")]);
       Some (obj [("source", JStr "S"); ("version", JStr "V")]);
       Some (obj [])].
Proof.
  intros s1 s2.
  assert (Hret : setField_returns [quietLogger]).
  { apply quiet_setField_returns. apply Forall_cons. split; [by left|]. constructor. }
  assert (Hkeys : Forall separateKeys
                    [[Util.MValue (obj [("preauth_type", JStr "test")])];
                     [Util.MValue (obj [("postauth_type", JStr "test")])]]).
  { repeat (apply Forall_cons; split); [| |apply Forall_nil_2];
      (split; [apply NoDup_singleton
              |apply Forall_cons; split; [reflexivity|apply Forall_nil_2]]). }
  split; [exact Hret|]. split; [exact Hkeys|].
  exact (lockFields_in_call_order BrowserStorage.thunkStorage someReadings false [] "S" "V"
           [quietLogger] defaultOptions freshModule _
           [[Util.MValue (obj [("preauth_type", JStr "test")])];
            [Util.MValue (obj [("postauth_type", JStr "test")])]]
           eq_refl eq_refl ltac:(discriminate) ltac:(discriminate) eq_refl freshQueue
           eq_refl Hret Hkeys (NoDup_nil_2 : NoDup (name <$> metadata defaultOptions))
           (Forall_nil_2 _ : Forall _ (metadata defaultOptions))).
Defined.

Lemma failing_setField_stalls_the_pipeline_witness :
  let final := settle BrowserStorage.thunkStorage someReadings
                 (go (init BrowserStorage.thunkStorage someReadings false [] "S" "V"
                        [quietLogger; deafLogger] defaultOptions freshModule).2) in
  setField_fails [quietLogger; deafLogger]
  ∧ rejected final ≠ None
  ∧ initialized (world final) = LOGGERS_READY
  ∧ loopStarted final = false
  ∧ debugErrors (world final) = [].
Proof.
  intros final. split; [exact deaf_setField_fails|].
  exact (failing_setField_stalls_the_pipeline BrowserStorage.thunkStorage someReadings
           false [] "S" "V" [quietLogger; deafLogger] defaultOptions freshModule _
           eq_refl eq_refl ltac:(discriminate) ltac:(discriminate) eq_refl freshQueue
           eq_refl eq_refl deaf_setField_fails).
Defined.

Lemma init_hooks_decide_the_loop_witness :
  let gone := settle BrowserStorage.thunkStorage someReadings
                (go (init BrowserStorage.thunkStorage someReadings false [] "S" "V"
                       [quietLogger; rejectingLogger] defaultOptions freshModule).2) in
  setField_returns [quietLogger; rejectingLogger]
  ∧ initialized (world gone) = ERROR
  ∧ loopStarted gone ≠ true.
Proof.
  intros gone.
  assert (Hret : setField_returns [quietLogger; rejectingLogger]).
  { apply quiet_setField_returns.
    apply Forall_cons. split; [by left|].
    apply Forall_cons. split; [by right|]. constructor. }
  destruct (init_hooks_decide_the_loop BrowserStorage.thunkStorage someReadings
              false [] "S" "V" [quietLogger; rejectingLogger] defaultOptions freshModule _
              eq_refl eq_refl ltac:(discriminate) ltac:(discriminate) eq_refl freshQueue
              eq_refl Hret) as (Hloop & _ & Herror).
  split; [exact Hret|]. split.
  - apply Herror. discriminate.
  - intros Hstarted. apply Hloop in Hstarted. discriminate.
Defined.

End LoEventChain.
(** ** util.ts: copyFields and treeget *)

Module TreegetFacts.
Import Util.
Import Strings.Ascii.

(** *** Splitting *)

Lemma split_cons c s : ∃ first rest, split c s = first :: rest.
Proof.
  destruct s as [|a s]; simpl; [by eexists _, _|].
  destruct (Strings.Ascii.eqb a c); [by eexists _, _|].
  destruct (split c s); by eexists _, _.
Qed.

Lemma split_absent c s : occurs c s = false → split c s = [s].
Proof.
  induction s as [|a s IH]; simpl; [done|].
  intros Hocc. apply orb_false_iff in Hocc as [-> Hocc]. by rewrite IH.
Qed.

Lemma split_at c a b :
  occurs c a = false →
  split c (String.append a (String c b)) = a :: split c b.
Proof.
  induction a as [|x a IH]; simpl.
  - intros _. by rewrite Strings.Ascii.eqb_refl.
  - intros Hocc. apply orb_false_iff in Hocc as [-> Hocc]. by rewrite IH.
Qed.

Lemma indexOf_at c a b :
  occurs c a = false →
  indexOf c (String.append a (String c b)) = Some (String.length a).
Proof.
  induction a as [|x a IH]; simpl.
  - intros _. by rewrite Strings.Ascii.eqb_refl.
  - intros Hocc. apply orb_false_iff in Hocc as [-> Hocc]. by rewrite IH.
Qed.

Lemma split_prefix c a b :
  occurs c a = false →
  ∃ f r, split c b = f :: r ∧ split c (String.append a b) = String.append a f :: r.
Proof.
  induction a as [|x a IH].
  - intros _. destruct (split_cons c b) as (f & r & Hb). exists f, r.
    split; [done|]. exact Hb.
  - intros Hocc. simpl in Hocc. apply orb_false_iff in Hocc as [Hx Hocc].
    destruct (IH Hocc) as (f & r & Hb & Hab). exists f, r. split; [done|].
    change (split c (String x (String.append a b)) = String x (String.append a f) :: r).
    cbn [split]. by rewrite Hx, Hab.
Qed.

Lemma occurs_app c a b :
  occurs c (String.append a b) = occurs c a || occurs c b.
Proof.
  induction a as [|x a IH]; [done|].
  change (occurs c (String x (String.append a b))
          = occurs c (String x a) || occurs c b).
  cbn [occurs]. by rewrite IH, orb_assoc.
Qed.

Lemma split_dotted (path : list string) :
  path ≠ [] →
  Forall (λ key, occurs "." key = false) path →
  split "." (dotted path) = path.
Proof.
  induction path as [|key path IH]; [done|]. intros _ Hall.
  apply Forall_cons in Hall as [Hkey Hall].
  destruct path as [|key' path]; [by apply split_absent|].
  change (dotted (key :: key' :: path))
    with (String.append key (String "." (dotted (key' :: path)))).
  rewrite split_at by done. by rewrite IH.
Qed.

Section Members.
Variable builtin : JSON → string → bool.

(** *** Walking *)

Lemma member_own node key v :
  getProp node key = Some v → member builtin node key = Some (Value v).
Proof. unfold member. by intros ->. Qed.

Lemma treeget_loop_walk path : ∀ tree node more,
  walk tree path = Some node →
  treeget_loop builtin (path ++ more) tree = treeget_loop builtin more node.
Proof.
  induction path as [|key path IH]; intros tree node more Hwalk.
  - by injection Hwalk as ->.
  - simpl in Hwalk. destruct (getProp tree key) as [v|] eqn:Hv; [|done].
    destruct tree as [| | | |c ps]; try done.
    cbn [app treeget_loop]. rewrite (member_own _ _ _ Hv). by apply IH.
Qed.

(** [treeget] follows a dotted path of own keys: where every key of the
    path is an own property of the object reached before it, the value
    under the last key is returned, whatever it is. *)
Theorem treeget_follows_own_keys (tree : JSON) (path : list string) (v : JSON) :
  path ≠ [] →
  Forall (λ key, occurs "." key = false) path →
  walk tree path = Some v →
  treeget builtin tree (dotted path) = Value v.
Proof.
  intros Hne Hall Hwalk. unfold treeget. rewrite split_dotted by done.
  rewrite <- (app_nil_r path). by rewrite (treeget_loop_walk path tree v []).
Qed.

(** Where the path leaves the tree. With the first keys of a dotted path
    leading to a value [node] and more keys following: if [node] is
    [null], [treeget] returns [null]; if it is an object that has no
    property of the next key (written without a bracket), [treeget] returns
    [null], whatever follows; but if it is a number, a string or a boolean,
    [treeget] throws a [TypeError] (the [in] operator does not take a
    primitive) instead of returning [null]. *)
Theorem treeget_off_the_tree (tree node : JSON) (path : list string) (key : string)
    (more : list string) :
  Forall (λ key, occurs "." key = false) (path ++ key :: more) →
  walk tree path = Some node →
  (node = JNull →
   treeget builtin tree (dotted (path ++ key :: more)) = Value JNull)
  ∧ (isObject node = true → member builtin node key = None →
     occurs "[" key = false →
     treeget builtin tree (dotted (path ++ key :: more)) = Value JNull)
  ∧ (node ≠ JNull → isObject node = false →
     treeget builtin tree (dotted (path ++ key :: more)) = Fault notAnObject).
Proof.
  intros Hall Hwalk. unfold treeget.
  rewrite split_dotted; [|by destruct path|done].
  rewrite (treeget_loop_walk path tree node (key :: more) Hwalk).
  split; [by intros ->|]. split.
  - intros Hobj Hm Hocc. destruct node as [| | | |c ps]; try done.
    cbn [treeget_loop]. rewrite Hm.
    assert (Hidx : indexOf "[" key = None).
    { clear -Hocc. induction key as [|a key IH]; simpl in *; [done|].
      apply orb_false_iff in Hocc as [-> Hocc]. by rewrite IH. }
    rewrite Hidx. by rewrite andb_false_r.
  - intros Hnull Hobj. by destruct node.
Qed.

(** *** Brackets *)

Lemma bracket_parts (item i tail : string) :
  item ≠ "" →
  occurs "[" item = false →
  occurs "[" i = false →
  occurs "]" i = false →
  let key := String.append item (String "[" (String.append i (String "]" tail))) in
  (∃ n, indexOf "[" key = Some (S n))
  ∧ String.eqb key "" = false
  ∧ part 0 (split "[" key) = item
  ∧ part 0 (split "]" (part 1 (split "[" key))) = i.
Proof.
  intros Hne Hitem Hi Hi' key. unfold key.
  rewrite indexOf_at, split_at by done.
  split; [destruct item; [done|by eexists]|].
  split; [by destruct item|]. split; [done|].
  cbn [part nth].
  destruct (split_prefix "[" i (String "]" tail) Hi) as (f & r & Hb & ->).
  cbn [nth]. simpl in Hb.
  destruct (split_cons "[" tail) as (f' & r' & Hs). rewrite Hs in Hb.
  injection Hb as <- _. by rewrite split_at.
Qed.

Lemma treeget_loop_bracket (node : JSON) (key : string) (more : list string) n :
  member builtin node key = None →
  indexOf "[" key = Some (S n) →
  String.eqb key "" = false →
  treeget_loop builtin (key :: more) node
  = match node with
    | JNull => Value JNull
    | JObject _ _ =>
        match member builtin node (part 0 (split "[" key)) with
        | Some (Value arr) =>
            match element builtin arr
                    (part 0 (split "]" (part 1 (split "[" key)))) with
            | Some (Value v) => treeget_loop builtin more v
            | Some other => other
            | None => Value JNull
            end
        | Some other => other
        | None => Value JNull
        end
    | _ => Fault notAnObject
    end.
Proof.
  intros Hm Hx He. destruct node as [| | | |c ps]; try done.
  cbn [treeget_loop]. by rewrite Hm, Hx, He.
Qed.

(** [treeget] reads one bracket and no more. A key written [item[i][j]]
    is read like [item[i]]: what follows the first closing bracket is
    dropped without a word, so the walk goes on from [item[i]], not from
    [item[i][j]]. (The node is taken to have no property under the full
    spelling of either key.) *)
Theorem treeget_reads_one_bracket (node : JSON) (item i j : string) (more : list string) :
  item ≠ "" →
  occurs "[" item = false →
  occurs "[" i = false →
  occurs "]" i = false →
  Forall (λ key, occurs "." key = false) (item :: i :: j :: more) →
  let once := String.append item (String "[" (String.append i "]")) in
  let twice := String.append item
                 (String "[" (String.append i
                    (String "]" (String "[" (String.append j "]"))))) in
  member builtin node once = None →
  member builtin node twice = None →
  treeget builtin node (dotted (twice :: more))
  = treeget builtin node (dotted (once :: more))
  ∧ ∀ arr v, getProp node item = Some arr →
             getProp arr i = Some v →
             treeget builtin node (dotted (twice :: more))
             = treeget_loop builtin more v.
Proof.
  intros Hne Hitem Hi Hi' Hdots once twice Honce Htwice.
  apply Forall_cons in Hdots as [Hd1 Hdots].
  apply Forall_cons in Hdots as [Hd2 Hdots].
  apply Forall_cons in Hdots as [Hd3 Hdots].
  assert (Hdo : occurs "." once = false).
  { unfold once. rewrite occurs_app. cbn [occurs]. rewrite occurs_app.
    cbn [occurs]. by rewrite Hd1, Hd2. }
  assert (Hdt : occurs "." twice = false).
  { unfold twice. rewrite occurs_app. cbn [occurs]. rewrite occurs_app.
    cbn [occurs]. rewrite occurs_app. cbn [occurs]. by rewrite Hd1, Hd2, Hd3. }
  unfold treeget.
  rewrite (split_dotted (twice :: more)) by (done || by apply Forall_cons).
  rewrite (split_dotted (once :: more)) by (done || by apply Forall_cons).
  destruct (bracket_parts item i "" Hne Hitem Hi Hi') as ((n1 & Hx1) & He1 & Hp1 & Hq1).
  destruct (bracket_parts item i (String "[" (String.append j "]")) Hne Hitem Hi Hi')
    as ((n2 & Hx2) & He2 & Hp2 & Hq2).
  fold once in Hx1, He1, Hp1, Hq1. fold twice in Hx2, He2, Hp2, Hq2.
  rewrite (treeget_loop_bracket node twice more n2 Htwice Hx2 He2).
  rewrite (treeget_loop_bracket node once more n1 Honce Hx1 He1).
  rewrite Hp1, Hq1, Hp2, Hq2.
  split; [done|]. intros arr v Harr Hv.
  destruct node as [| | | |c ps]; try done.
  rewrite (member_own _ _ _ Harr).
  destruct arr as [| | | |c' ps']; try done.
  unfold element. by rewrite (member_own _ _ _ Hv).
Qed.

(** *** copyFields *)

Lemma assign_plain items key v :
  key ≠ "__proto__" → assign items key v = Some (setProp items key v).
Proof. intros Hkey. unfold assign. by rewrite (proj2 (String.eqb_neq _ _) Hkey). Qed.

Lemma copyFields_loop source fields : ∀ result,
  isObject result = true →
  "__proto__" ∉ fields →
  (∀ field, field ∈ fields → getProp source field = None →
            builtin source field = false) →
  ∃ copied,
    (fix forEach (fields : list string) (result : JSON) : reached :=
       match fields with
       | [] => Value result
       | field :: fields' =>
           match member builtin source field with
           | Some (Value v) =>
               match assign result field v with
               | Some result' => forEach fields' result'
               | None => Builtin result field
               end
           | Some other => other
           | None => forEach fields' result
           end
       end) fields result = Value copied
    ∧ isObject copied = true
    ∧ ∀ k, getProp copied k
           = if bool_decide (k ∈ fields)
             then match getProp source k with
                  | Some v => Some v
                  | None => getProp result k
                  end
             else getProp result k.
Proof.
  induction fields as [|field fields IH]; intros result Hobj Hproto Hplain.
  - exists result. split; [done|]. split; [done|]. intros k.
    by rewrite bool_decide_eq_false_2 by apply not_elem_of_nil.
  - assert (Hplain' : ∀ f, f ∈ fields → getProp source f = None →
                           builtin source f = false).
    { intros f Hf. apply Hplain, elem_of_cons. by right. }
    apply not_elem_of_cons in Hproto as [Hfield Hproto].
    unfold member at 1. destruct (getProp source field) as [v|] eqn:Hv.
    + rewrite assign_plain by done.
      destruct (IH (setProp result field v)) as (copied & -> & Hobj' & Hget);
        [by rewrite isObject_setProp|done|done|].
      exists copied. split; [done|]. split; [done|]. intros k. rewrite Hget.
      destruct (decide (k = field)) as [->|Hne].
      * rewrite (bool_decide_eq_true_2 (field ∈ field :: fields))
          by (apply elem_of_cons; by left).
        rewrite Hv. destruct result as [| | | |c ps]; try done.
        rewrite getProp_setProp_eq. by destruct (bool_decide (field ∈ fields)).
      * rewrite getProp_setProp_ne by congruence.
        assert (Hin : bool_decide (k ∈ field :: fields) = bool_decide (k ∈ fields))
          by (apply bool_decide_ext; rewrite elem_of_cons; intuition congruence).
        by rewrite Hin.
    + rewrite (Hplain field) by (done || apply elem_of_cons; by left).
      destruct (IH result Hobj Hproto Hplain') as (copied & -> & Hobj' & Hget).
      exists copied. split; [done|]. split; [done|]. intros k. rewrite Hget.
      destruct (decide (k = field)) as [->|Hne].
      * rewrite (bool_decide_eq_true_2 (field ∈ field :: fields))
          by (apply elem_of_cons; by left).
        rewrite Hv. by destruct (bool_decide (field ∈ fields)).
      * assert (Hin : bool_decide (k ∈ field :: fields) = bool_decide (k ∈ fields))
          by (apply bool_decide_ext; rewrite elem_of_cons; intuition congruence).
        by rewrite Hin.
Qed.

(** [copyFields] of an object returns a new object that has, of the fields
    asked for, exactly those the source has, each with the value it has in
    the source, whatever the order and however often a field is named; the
    fields the source lacks are left out rather than set to anything. (The
    field [__proto__] is not asked for, and the fields asked for that are
    no own properties of the source are taken not to name one of its
    built-in properties.) Of a falsy source it returns the empty object. *)
Theorem copyFields_copies_what_is_there (source : JSON) (fields : list string) :
  "__proto__" ∉ fields →
  (∀ field, field ∈ fields → getProp source field = None →
            builtin source field = false) →
  (isObject source = true →
   ∃ copied, copyFields builtin source fields = Value copied
             ∧ ∀ k, getProp copied k
                    = if bool_decide (k ∈ fields) then getProp source k else None)
  ∧ (truthy source = false → copyFields builtin source fields = Value (obj [])).
Proof.
  intros Hproto Hplain. split.
  - intros Hobj. destruct source as [| | | |c ps]; try done.
    unfold copyFields. cbn [truthy].
    destruct (copyFields_loop (JObject c ps) fields (obj []) eq_refl Hproto Hplain)
      as (copied & -> & _ & Hget).
    exists copied. split; [done|]. intros k. rewrite Hget.
    destruct (bool_decide (k ∈ fields)); [|done].
    by destruct (getProp (JObject c ps) k).
  - intros Hfalsy. unfold copyFields. by rewrite Hfalsy.
Qed.

End Members.

Lemma treeget_follows_own_keys_witness :
  treeget objectPrototype
    (obj [("event", obj [("target", obj [("id", JStr "save")])])])
    "event.target.id"
  = Value (JStr "save").
Proof.
  apply (treeget_follows_own_keys objectPrototype
           (obj [("event", obj [("target", obj [("id", JStr "save")])])])
           ["event"; "target"; "id"] (JStr "save")).
  - discriminate.
  - repeat (apply Forall_cons; split; [reflexivity|]). apply Forall_nil_2.
  - reflexivity.
Defined.

Lemma treeget_off_the_tree_witness :
  let tree := obj [("count", JNum 5); ("target", JNull)] in
  treeget objectPrototype tree "target.id" = Value JNull
  ∧ treeget objectPrototype tree "source.id" = Value JNull
  ∧ treeget objectPrototype tree "count.id" = Fault notAnObject.
Proof.
  intros tree.
  assert (Hdots : ∀ a b, occurs "." a = false → occurs "." b = false →
                         Forall (λ key, occurs "." key = false) [a; b]).
  { intros a b Ha Hb. apply Forall_cons. split; [exact Ha|].
    apply Forall_cons. split; [exact Hb|]. apply Forall_nil_2. }
  destruct (treeget_off_the_tree objectPrototype tree JNull ["target"] "id" []
              (Hdots "target" "id" eq_refl eq_refl) eq_refl) as (Hnull & _ & _).
  destruct (treeget_off_the_tree objectPrototype tree tree [] "source" ["id"]
              (Hdots "source" "id" eq_refl eq_refl) eq_refl) as (_ & Hmissing & _).
  destruct (treeget_off_the_tree objectPrototype tree (JNum 5) ["count"] "id" []
              (Hdots "count" "id" eq_refl eq_refl) eq_refl) as (_ & _ & Hnumber).
  split; [exact (Hnull eq_refl)|].
  split; [exact (Hmissing eq_refl eq_refl eq_refl)|].
  apply Hnumber; [discriminate|reflexivity].
Defined.

Lemma treeget_reads_one_bracket_witness :
  let node := obj [("rows", arr [arr [JNum 1; JNum 2]; arr [JNum 3; JNum 4]])] in
  treeget objectPrototype node "rows[1][0]" = treeget objectPrototype node "rows[1]"
  ∧ treeget objectPrototype node "rows[1][0]" = Value (arr [JNum 3; JNum 4]).
Proof.
  intros node.
  assert (Hdots : Forall (λ key, occurs "." key = false) ["rows"; "1"; "0"]).
  { repeat (apply Forall_cons; split; [reflexivity|]). apply Forall_nil_2. }
  assert (Hne : "rows" ≠ "") by discriminate.
  destruct (treeget_reads_one_bracket objectPrototype node "rows" "1" "0" []
              Hne eq_refl eq_refl eq_refl Hdots eq_refl eq_refl) as [Hsame Hvalue].
  split; [exact Hsame|].
  exact (Hvalue (arr [arr [JNum 1; JNum 2]; arr [JNum 3; JNum 4]])
                (arr [JNum 3; JNum 4]) eq_refl eq_refl).
Defined.

Lemma copyFields_copies_what_is_there_witness :
  let source := obj [("a", JNum 1); ("b", JNum 2); ("c", JNum 3)] in
  ∃ copied,
    copyFields objectPrototype source ["a"; "b"; "z"; "a"] = Value copied
    ∧ getProp copied "a" = Some (JNum 1)
    ∧ getProp copied "b" = Some (JNum 2)
    ∧ getProp copied "c" = None
    ∧ getProp copied "z" = None.
Proof.
  intros source.
  assert (Hplain : ∀ field, field ∈ ["a"; "b"; "z"; "a"] →
                            getProp source field = None →
                            objectPrototype source field = false).
  { intros field Hin _.
    repeat (apply elem_of_cons in Hin as [->|Hin]; [reflexivity|]).
    by apply elem_of_nil in Hin. }
  assert (Hproto : "__proto__" ∉ ["a"; "b"; "z"; "a"]).
  { intros Hin.
    repeat (apply elem_of_cons in Hin as [Hin|Hin]; [discriminate|]).
    by apply elem_of_nil in Hin. }
  destruct (proj1 (copyFields_copies_what_is_there objectPrototype source
                     ["a"; "b"; "z"; "a"] Hproto Hplain) eq_refl)
    as (copied & Hcopied & Hget).
  exists copied. split; [exact Hcopied|].
  repeat split; by rewrite Hget.
Defined.

End TreegetFacts.
(** ** websocketLogger.ts: the reconnect loop *)

Module ReconnectFacts.
Import WebsocketLogger.
Local Open Scope Z_scope.

Lemma connectionLoop_app (before after : list bool) (c : Connection) :
  connectionLoop (before ++ after) c
  = let '(c', slept) := connectionLoop before c in
    let '(c'', later) := connectionLoop after c' in
    (c'', slept ++ later).
Proof.
  revert c. induction before as [|connected before IH]; intros c.
  - simpl. by destruct (connectionLoop after c).
  - cbn [app connectionLoop].
    destruct (connectionTurn connected c) as [c1 slept]. rewrite IH.
    destruct (connectionLoop before c1) as [c2 later].
    destruct (connectionLoop after c2) as [c3 last]. by destruct slept.
Qed.

Lemma connectionLoop_failures (k : nat) (c : Connection) :
  connectionLoop (replicate k false) c
  = ({| failures := failures c + Z.of_nat k; READY := READY c |},
     (λ n, calculateExponentialBackoff (failures c + Z.of_nat n)) <$> seq 1 k).
Proof.
  revert c. induction k as [|k IH]; intros c.
  - simpl. destruct c as [f r]. simpl. by rewrite Z.add_0_r.
  - cbn [replicate connectionLoop]. unfold connectionTurn. cbn [negb].
    rewrite IH. cbn [failures READY fst snd]. f_equal.
    + f_equal. lia.
    + change (seq 1 (S k)) with (1%nat :: seq 2 k).
      rewrite <- (fmap_S_seq 1 k), fmap_cons, <- list_fmap_compose.
      f_equal. apply list_fmap_ext. intros _ n _. simpl. f_equal. lia.
Qed.

Lemma connectionLoop_bounds (attempts : list bool) : ∀ c,
  0 ≤ failures c →
  0 ≤ failures (connectionLoop attempts c).1
  ∧ Forall (λ d, 2000 ≤ d ≤ 900000) (connectionLoop attempts c).2.
Proof.
  induction attempts as [|connected attempts IH]; intros c Hc.
  - split; [done|]. apply Forall_nil_2.
  - cbn [connectionLoop]. unfold connectionTurn.
    destruct connected; cbn [negb].
    + destruct (IH {| failures := 0; READY := false |}) as [Hf Hd]; [done|].
      by destruct (connectionLoop attempts {| failures := 0; READY := false |}).
    + destruct (IH {| failures := failures c + 1; READY := READY c |}) as [Hf Hd];
        [simpl; lia|].
      destruct (connectionLoop attempts
                  {| failures := failures c + 1; READY := READY c |}) as [c' later].
      split; [done|]. apply Forall_cons. split; [|done].
      unfold calculateExponentialBackoff.
      assert (2 ^ 1 ≤ 2 ^ (failures c + 1)) by (apply Z.pow_le_mono_r; lia).
      change (2 ^ 1) with 2 in *. lia.
Qed.

Lemma connectionLoop_connected (attempts : list bool) (c : Connection) :
  connectionLoop (attempts ++ [true]) c
  = ({| failures := 0; READY := false |}, (connectionLoop attempts c).2).
Proof.
  rewrite connectionLoop_app. destruct (connectionLoop attempts c) as [c' slept].
  simpl. by rewrite app_nil_r.
Qed.

(** The reconnect loop of the web socket logger, over any course of
    attempts: every delay it sleeps lies between 2 seconds and 15 minutes
    (the first retry waits 2000 ms, not 1000: the count is raised before the
    delay is computed); and once a connection has been open, however many
    failures came before it, the next [k] failures in a row sleep the
    delays of the counts 1 to [k] again. *)
Theorem reconnect_delays (attempts : list bool) (k : nat) :
  Forall (λ d, 2000 ≤ d ≤ 900000) (connectionLoop attempts initialConnection).2
  ∧ (connectionLoop (attempts ++ true :: replicate k false) initialConnection).2
    = (connectionLoop attempts initialConnection).2
      ++ ((λ n, calculateExponentialBackoff (Z.of_nat n)) <$> seq 1 k)
  ∧ (connectionLoop (replicate k false) initialConnection).2
    = (λ n, calculateExponentialBackoff (Z.of_nat n)) <$> seq 1 k.
Proof.
  split; [by apply connectionLoop_bounds|]. split.
  - change (true :: replicate k false) with ([true] ++ replicate k false).
    rewrite app_assoc, connectionLoop_app, connectionLoop_connected.
    rewrite connectionLoop_failures. cbn [failures fst snd]. f_equal.
  - rewrite connectionLoop_failures. cbn [failures initialConnection snd].
    done.
Qed.

End ReconnectFacts.

(** ** metadata/storage.ts: getStorageMetadata *)

Module StorageMetadataFacts.
Import StorageMetadata.

(** the keys reported: those asked for, but never [__proto__] *)
Lemma assign_lookup items k v items' :
  isObject items = true →
  Util.assign items k v = Some items' →
  isObject items' = true
  ∧ ∀ k', getProp items' k'
          = if bool_decide (k' = k) && negb (String.eqb k' "__proto__")
            then Some v else getProp items k'.
Proof.
  intros Hobj. unfold Util.assign.
  destruct (String.eqb_spec k "__proto__") as [->|Hk].
  - intros Hsome. assert (items' = items) as -> by (destruct v; congruence).
    split; [done|]. intros k'.
    destruct (decide (k' = "__proto__")) as [->|Hne].
    + by rewrite andb_false_r.
    + by rewrite bool_decide_eq_false_2.
  - intros [= <-]. split; [by rewrite isObject_setProp|]. intros k'.
    destruct (decide (k' = k)) as [->|Hne].
    + rewrite bool_decide_eq_true_2 by done.
      rewrite (proj2 (String.eqb_neq _ _) Hk). cbn [negb andb].
      destruct items as [| | | |c ps]; try done. apply getProp_setProp_eq.
    + rewrite bool_decide_eq_false_2 by done. cbn [andb].
      apply getProp_setProp_ne. congruence.
Qed.

Lemma assign_item items k s : ∃ items', Util.assign items k (JStr s) = Some items'.
Proof. unfold Util.assign. destruct (String.eqb k "__proto__"); by eexists. Qed.

Lemma assign_other items k v :
  k ≠ "__proto__" → ∃ items', Util.assign items k v = Some items'.
Proof.
  intros Hk. unfold Util.assign. rewrite (proj2 (String.eqb_neq _ _) Hk). by eexists.
Qed.

Lemma forEach_lookup (storage : Storage) (keys : list string) : ∀ items,
  isObject items = true →
  ("__proto__" ∈ keys → ∃ s, getItem storage "__proto__" = Item s) →
  ∃ items',
    forEach storage keys items = Answer items'
    ∧ ∀ k, getProp items' k
           = if bool_decide (k ∈ keys) && negb (String.eqb k "__proto__")
             then Some (entry (getItem storage k)) else getProp items k.
Proof.
  induction keys as [|k0 keys IH]; intros items Hobj Hproto.
  - exists items. split; [done|]. intros k.
    by rewrite bool_decide_eq_false_2 by apply not_elem_of_nil.
  - cbn [forEach].
    assert (Hassign : ∃ items1,
      Util.assign items k0 (entry (getItem storage k0)) = Some items1).
    { destruct (decide (k0 = "__proto__")) as [->|Hk0].
      - destruct Hproto as [s ->]; [apply elem_of_cons; by left|]. apply assign_item.
      - by apply assign_other. }
    destruct Hassign as [items1 Hassign]. rewrite Hassign.
    destruct (assign_lookup _ _ _ _ Hobj Hassign) as [Hobj1 Hget1].
    destruct (IH items1 Hobj1) as (items' & -> & Hget).
    { intros Hin. apply Hproto, elem_of_cons. by right. }
    exists items'. split; [done|]. intros k. rewrite Hget, Hget1.
    destruct (decide (k ∈ keys)) as [Hin|Hout].
    + rewrite (bool_decide_eq_true_2 (k ∈ keys)) by done.
      rewrite (bool_decide_eq_true_2 (k ∈ k0 :: keys))
        by (apply elem_of_cons; by right).
      cbn [andb]. destruct (String.eqb k "__proto__"); cbn [negb]; [|done].
      by rewrite andb_false_r.
    + rewrite (bool_decide_eq_false_2 (k ∈ keys)) by done. cbn [andb].
      destruct (decide (k = k0)) as [->|Hne].
      * rewrite (bool_decide_eq_true_2 (k0 = k0)) by done.
        by rewrite (bool_decide_eq_true_2 (k0 ∈ k0 :: keys))
          by (apply elem_of_cons; by left).
      * rewrite (bool_decide_eq_false_2 (k = k0)) by done.
        rewrite (bool_decide_eq_false_2 (k ∈ k0 :: keys)); [done|].
        rewrite elem_of_cons. tauto.
Qed.

Lemma forLoop_forEach (storage : Storage) (keys : list string) : ∀ i items,
  (∀ j k, keys !! j = Some k → key storage (i + j) = Some k) →
  forLoop storage (List.length keys) i items = forEach storage keys items.
Proof.
  induction keys as [|k0 keys IH]; intros i items Hkeys; [done|].
  cbn [List.length forLoop forEach].
  rewrite <- (Nat.add_0_r i) at 1. rewrite (Hkeys 0 k0 eq_refl).
  destruct (Util.assign items k0 (entry (getItem storage k0))) as [items'|]; [|done].
  apply IH. intros j k Hj. rewrite Nat.add_succ_comm. by apply Hkeys.
Qed.

Lemma forLoop_unlisted (storage : Storage) (more : nat) (listed : list string) :
  ∀ i items,
  (∀ j k, listed !! j = Some k → key storage (i + j) = Some k) →
  key storage (i + List.length listed) = None →
  Forall (λ k, k ≠ "__proto__") listed →
  forLoop storage (List.length listed + S more) i items = Answer JNull.
Proof.
  induction listed as [|k0 listed IH]; intros i items Hkeys Hnone Hplain.
  - cbn [List.length Nat.add forLoop]. rewrite Nat.add_0_r in Hnone.
    by rewrite Hnone.
  - cbn [List.length Nat.add forLoop].
    rewrite <- (Nat.add_0_r i) at 1. rewrite (Hkeys 0 k0 eq_refl).
    apply Forall_cons in Hplain as [Hk0 Hplain].
    destruct (assign_other items k0 (entry (getItem storage k0)) Hk0) as [items' ->].
    apply IH; [|by rewrite Nat.add_succ_comm|done].
    intros j k Hj. rewrite Nat.add_succ_comm. by apply Hkeys.
Qed.

(** [getStorageMetadata] of a storage reports each key on its own. With
    [ks] the keys asked for, or all the keys the storage lists when none
    are asked for, the result is an object that has exactly the keys of
    [ks]: each with the string stored under it, with [null] where nothing
    is stored, or, where reading it throws, with a record of the error; a
    key that cannot be read takes nothing from the others. Only a key named
    [__proto__] (holding a string, when it is among [ks]) is never
    reported. *)
Theorem getStorageMetadata_reports_each_key (storage : Storage)
    (keys : option (list string)) (ks : list string) :
  match keys with
  | Some asked => asked = ks
  | None => length storage = Some (List.length ks)
            ∧ ∀ i k, ks !! i = Some k → key storage i = Some k
  end →
  ("__proto__" ∈ ks → ∃ s, getItem storage "__proto__" = Item s) →
  ∃ items,
    getStorageMetadata (Some storage) keys = Answer items
    ∧ ∀ k, getProp items k
           = if bool_decide (k ∈ ks) && negb (String.eqb k "__proto__")
             then Some (entry (getItem storage k)) else None.
Proof.
  intros Hks Hproto.
  destruct (forEach_lookup storage ks (obj []) eq_refl Hproto) as (items & Heach & Hget).
  exists items. split; [|exact Hget].
  unfold getStorageMetadata. destruct keys as [asked|].
  - by rewrite Hks.
  - destruct Hks as [-> Hkeys]. by rewrite forLoop_forEach.
Qed.

(** When [getStorageMetadata] gives up. It returns [null] for no storage,
    for a storage whose [length] cannot be read, and, when no keys are
    asked for, as soon as one key cannot be listed: what was read under
    the keys before it is dropped, unlike for a key that is listed but
    cannot be read. *)
Theorem getStorageMetadata_gives_up (storage : Storage) (keys : option (list string)) :
  getStorageMetadata None keys = Answer JNull
  ∧ (length storage = None → getStorageMetadata (Some storage) None = Answer JNull)
  ∧ ∀ (listed : list string) (more : nat),
      length storage = Some (List.length listed + S more) →
      (∀ i k, listed !! i = Some k → key storage i = Some k) →
      key storage (List.length listed) = None →
      Forall (λ k, k ≠ "__proto__") listed →
      getStorageMetadata (Some storage) None = Answer JNull.
Proof.
  split; [done|]. split.
  - intros Hlen. unfold getStorageMetadata. by rewrite Hlen.
  - intros listed more Hlen Hkeys Hnone Hplain. unfold getStorageMetadata.
    rewrite Hlen. by apply forLoop_unlisted.
Qed.

Lemma getStorageMetadata_reports_each_key_witness :
  ∃ items,
    getStorageMetadata (Some guarded) None = Answer items
    ∧ getProp items "user" = Some (JStr "ada")
    ∧ getProp items "token"
      = Some (obj [("type", JStr "error"); ("error_type", JStr "SecurityError");
                   ("error_message", JStr "denied")])
    ∧ getProp items "other" = None.
Proof.
  assert (Hks : length guarded = Some (List.length ["user"; "token"])
                ∧ ∀ i k, ["user"; "token"] !! i = Some k → key guarded i = Some k).
  { split; [reflexivity|]. intros [|[|i]] k Hk; [exact Hk|exact Hk|discriminate]. }
  assert (Hproto : "__proto__" ∈ ["user"; "token"]
                   → ∃ s, getItem guarded "__proto__" = Item s).
  { intros Hin. exfalso.
    repeat (apply elem_of_cons in Hin as [Hin|Hin]; [discriminate|]).
    by apply elem_of_nil in Hin. }
  destruct (getStorageMetadata_reports_each_key guarded None ["user"; "token"]
              Hks Hproto) as (items & Hitems & Hget).
  exists items. split; [exact Hitems|].
  repeat split; by rewrite Hget.
Defined.

Lemma getStorageMetadata_gives_up_witness :
  getStorageMetadata (Some unlisted) None = Answer JNull.
Proof.
  destruct (getStorageMetadata_gives_up unlisted None) as (_ & _ & Hunlisted).
  apply (Hunlisted ["user"] 0).
  - reflexivity.
  - intros [|i] k Hk; [exact Hk|discriminate].
  - reflexivity.
  - apply Forall_cons. split; [discriminate|apply Forall_nil_2].
Defined.

End StorageMetadataFacts.

(** ** util.ts: the merge, on objects held by reference *)

Module ObjectsFacts.
Import Objects.
Set Warnings "-clear-no-such-hyp".


(** *** Property lists *)




(** *** Trees *)











(** *** Assigning a property *)





(** *** One key *)


(** *** The loop *)


(** *** mergeDictionary on two trees that share no object *)


(** *** mergeMetadata *)




Lemma foldl_mergeInput_stuck fuel r inputs :
  foldl (mergeInput fuel r) OutsideModel inputs = OutsideModel
  ∧ foldl (mergeInput fuel r) StillRunning inputs = StillRunning.
Proof. induction inputs as [|v inputs [IH1 IH2]]; [done|]. by split. Qed.



(** the merge of the two literals: the incoming array [[9]] has gone into
    the array [[1, 2, 3]], and the number has taken the place of the
    object *)
Lemma mergeMetadata_literals :
  ∃ h', mergeMetadata 5 literals [VRef 2; VRef 4] = Done (h', 5)
        ∧ read 5 h' (VRef 5)
          = Some (obj [("a", arr [JNum 9; JNum 2; JNum 3]); ("b", JNum 2)]).
Proof. eexists. split; reflexivity. Qed.

(** A fragment given twice. With the fragment [{a: {x: 1}}] first and last
    and [{a: {x: 2}}] between them, [mergeMetadata] returns [{a: {x: 2}}]:
    the first turn puts the fragment's own object under [a], the second
    merges [x: 2] into that object, and the third merges the object with
    itself. On contents alone, [Util.mergeMetadata] gives [{a: {x: 1}}]. *)
Lemma mergeMetadata_fragment_given_twice :
  (∃ h', mergeMetadata 4 twoFragments [VRef 1; VRef 3; VRef 1] = Done (h', 4)
         ∧ read 4 h' (VRef 4) = Some (obj [("a", obj [("x", JNum 2)])]))
  ∧ Util.mergeMetadata [Util.MValue (obj [("a", obj [("x", JNum 1)])]);
                        Util.MValue (obj [("a", obj [("x", JNum 2)])]);
                        Util.MValue (obj [("a", obj [("x", JNum 1)])])]
    = obj [("a", obj [("x", JNum 1)])].
Proof. split; [eexists; split; reflexivity|reflexivity]. Qed.

End ObjectsFacts.
